(** * Generador de laberintos: modelo y verificacion

    Modelo en Rocq de [src/generador/laberinto.py] (clase [Laberinto]):
    la matriz NumPy es una lista de filas, las excepciones de Python son
    resultados [Lanza], el generador [random] es un flujo de enteros que
    se consume en orden, y los bucles [while] y la recursion de [dfs]
    llevan combustible (el resultado [Agotado] no es una excepcion de
    Python: los teoremas muestran que nunca aparece).

    Abstracciones del modelo, dichas una vez:
    - los [float] de Python se modelan como racionales exactos ([Q]); la
      etapa [_agregar_complejidad], donde el redondeo decide cuantas
      bifurcaciones se procesan, va ademas en doble precision
      ([_agregar_complejidad_doble], sobre [SpecFloat]);
    - cada llamada primitiva al generador ([_randbelow], [random()])
      consume un elemento del flujo; [_randbelow n] lo reduce modulo [n];
    - el limite de recursion de CPython no interviene en [dfs], que lleva
      combustible, sino en [dfs_limitado], con el que [Laberinto_init_limitado]
      construye el laberinto y puede lanzar [RecursionError].

    Al final van los modulos que usan el laberinto: las funciones puras
    y el [Temporizador] de [src/utilidades/helpers.py] (el reloj
    [time.time()] es un argumento de cada metodo que lo consulta) y la
    clase [Jugador] de [src/jugador/personaje.py] (los eventos de pygame
    son un tipo enumerado; el dibujo queda fuera). *)

From Stdlib Require Import ZArith QArith Qround Qminmax Ascii Lia.
From Stdlib Require SpecFloat.
From stdpp Require Import base decidable option list gmap sets strings pretty relations.

Set Warnings "-level-tolerance,-clear-no-such-hyp".

Close Scope Q_scope.
Open Scope Z_scope.

(** ** Matrices NumPy *)

Abbreviation Pos := (Z * Z)%type (only parsing).
Abbreviation Matriz A := (list (list A)) (only parsing).

Inductive Excepcion : Type := ValueError | IndexError | RecursionError | OverflowError.

(** Normalizacion de un indice como la hace NumPy: los negativos cuentan
    desde el final y fuera de [-n, n) el acceso es un [IndexError]. *)
Definition indice (n : nat) (i : Z) : option nat :=
  if decide (0 ≤ i < Z.of_nat n) then Some (Z.to_nat i)
  else if decide (- Z.of_nat n ≤ i < 0) then Some (Z.to_nat (i + Z.of_nat n))
  else None.

Definition leer {A} (m : Matriz A) (p : Pos) : option A :=
  i ← indice (length m) p.1;
  fila ← m !! i;
  j ← indice (length fila) p.2;
  fila !! j.

Definition escribir {A} (m : Matriz A) (p : Pos) (v : A) : option (Matriz A) :=
  i ← indice (length m) p.1;
  fila ← m !! i;
  j ← indice (length fila) p.2;
  Some (<[i := <[j := v]> fila]> m).

Definition np_full {A} (f c : Z) (v : A) : Matriz A :=
  replicate (Z.to_nat f) (replicate (Z.to_nat c) v).

Definition np_fill {A} (m : Matriz A) (v : A) : Matriz A :=
  (λ fila : list A, (λ _, v) <$> fila) <$> m.

Definition forma {A} (f c : Z) (m : Matriz A) : Prop :=
  0 ≤ f ∧ 0 ≤ c ∧ length m = Z.to_nat f ∧ Forall (λ fila, length fila = Z.to_nat c) m.

(** ** Estado mutable y monada de efectos *)

(** El flujo de valores que entrega el generador pseudoaleatorio. *)
Definition Rng : Type := nat → Z.

(** Los atributos de [self] que la generacion modifica, mas el estado del
    modulo [random]. *)
Record Estado : Type := mkEstado {
  matriz : Matriz Z;
  inicio : Pos;
  meta : Pos;
  azar : Rng
}.

Inductive Resultado (A : Type) : Type :=
  | Ok (a : A)
  | Lanza (e : Excepcion)
  | Agotado.
Arguments Ok {A} a.
Arguments Lanza {A} e.
Arguments Agotado {A}.

Definition M (A : Type) : Type := Estado → Resultado (A * Estado).

Definition ret {A} (a : A) : M A := λ s, Ok (a, s).
Definition ligar {A B} (c : M A) (k : A → M B) : M B :=
  λ s, match c s with
       | Ok (a, s') => k a s'
       | Lanza e => Lanza e
       | Agotado => Agotado
       end.
Definition lanzar {A} (e : Excepcion) : M A := λ _, Lanza e.
Definition agotado {A} : M A := λ _, Agotado.

Global Instance M_ret : MRet M := @ret.
Global Instance M_bind : MBind M := λ A B k c, ligar c k.

Definition leer_matriz (p : Pos) : M Z :=
  λ s, match leer (matriz s) p with
       | Some v => Ok (v, s)
       | None => Lanza IndexError
       end.

Definition escribir_matriz (p : Pos) (v : Z) : M unit :=
  λ s, match escribir (matriz s) p v with
       | Some m' => Ok (tt, mkEstado m' (inicio s) (meta s) (azar s))
       | None => Lanza IndexError
       end.

Definition leer_inicio : M Pos := λ s, Ok (inicio s, s).
Definition leer_meta : M Pos := λ s, Ok (meta s, s).
Definition asignar_inicio (p : Pos) : M unit :=
  λ s, Ok (tt, mkEstado (matriz s) p (meta s) (azar s)).
Definition asignar_meta (p : Pos) : M unit :=
  λ s, Ok (tt, mkEstado (matriz s) (inicio s) p (azar s)).

Definition rellenar_matriz (v : Z) : M unit :=
  λ s, Ok (tt, mkEstado (np_fill (matriz s) v) (inicio s) (meta s) (azar s)).

(** Lectura y escritura en una matriz local (no un atributo de [self]). *)
Definition leer_en {A} (m : Matriz A) (p : Pos) : M A :=
  match leer m p with
  | Some v => ret v
  | None => lanzar IndexError
  end.
Definition escribir_en {A} (m : Matriz A) (p : Pos) (v : A) : M (Matriz A) :=
  match escribir m p v with
  | Some m' => ret m'
  | None => lanzar IndexError
  end.

(** [for a in l: s = cuerpo(a, s)] *)
Fixpoint para {A S} (l : list A) (cuerpo : A → S → M S) (s : S) : M S :=
  match l with
  | [] => ret s
  | a :: l' => s' ← cuerpo a s; para l' cuerpo s'
  end.

(** [range(a, b, paso)] con [paso > 0]. *)
Definition rango (a b paso : Z) : list Z :=
  (λ k : nat, a + paso * Z.of_nat k) <$> seq 0 (Z.to_nat ((b - a + paso - 1) / paso)).

(** ** El modulo [random] *)

Definition extraer : M Z :=
  λ s, Ok (azar s O, mkEstado (matriz s) (inicio s) (meta s) (λ n, azar s (S n))).

Definition randbelow (n : Z) : M Z :=
  u ← extraer; ret (u mod n).

Definition randrange (start stop step : Z) : M Z :=
  let width := stop - start in
  if decide (0 < step) then
    let n := (width + step - 1) / step in
    if decide (n ≤ 0) then lanzar ValueError
    else k ← randbelow n; ret (start + step * k)
  else if decide (step < 0) then
    let n := (width + step + 1) / step in
    if decide (n ≤ 0) then lanzar ValueError
    else k ← randbelow n; ret (start + step * k)
  else lanzar ValueError.

Definition randint (a b : Z) : M Z := randrange a (b + 1) 1.

(** [random.random()]: un multiplo de 2^-53 en [0, 1). *)
Definition random_random : M Q :=
  u ← extraer; ret (Qmake (u mod 2 ^ 53) (2 ^ 53)%positive).

Definition intercambiar {A} (x : list A) (i j : nat) : list A :=
  match x !! i, x !! j with
  | Some a, Some b => <[j := a]> (<[i := b]> x)
  | _, _ => x
  end.

(** [random.shuffle]: Fisher-Yates desde el ultimo indice hasta el 1. *)
Fixpoint shuffle_desde {A} (i : nat) (x : list A) : M (list A) :=
  match i with
  | O => ret x
  | S i' =>
      j ← randbelow (Z.of_nat (S i));
      shuffle_desde i' (intercambiar x i (Z.to_nat j))
  end.

Definition shuffle {A} (x : list A) : M (list A) :=
  shuffle_desde (length x - 1) x.

(** [min(l, key=k)] y [max(l, key=k)] de Python: el primer elemento que
    alcanza el extremo; sobre una lista vacia es un [ValueError]. *)
Definition min_por {A} (k : A → Z) (l : list A) : option A :=
  match l with
  | [] => None
  | a :: l' => Some (fold_left (λ mejor x, if decide (k x < k mejor) then x else mejor) l' a)
  end.

Definition max_por {A} (k : A → Z) (l : list A) : option A :=
  match l with
  | [] => None
  | a :: l' => Some (fold_left (λ mejor x, if decide (k mejor < k x) then x else mejor) l' a)
  end.

Definition o_lanza {A} (o : option A) (e : Excepcion) : M A :=
  match o with
  | Some a => ret a
  | None => lanzar e
  end.

(** [int(q)] de Python: truncamiento hacia cero. *)
Definition int_de (q : Q) : Z := Z.quot (Qnum q) (Z.pos (Qden q)).

(** [round(q)] de Python 3: el entero mas cercano, y el par en caso de
    empate. *)
Definition redondear (q : Q) : Z :=
  let n := Qfloor q in
  match Qcompare (Qminus q (inject_Z n)) (1 # 2) with
  | Lt => n
  | Gt => n + 1
  | Eq => if Z.even n then n else n + 1
  end.

(** ** La clase [Laberinto] *)

Abbreviation Vecino := (Z * Z * Z * Z)%type (only parsing).
Abbreviation Bifurcacion := (Z * Z * list (Z * Z * Z * Z))%type (only parsing).

(** Las variables locales del bucle de [_generar]. La pila se representa
    con la cima en cabeza: [pila[-1]] es la cabeza, [append] es [::] y
    [pop] es la cola. *)
Record Recorrido : Type := mkRecorrido {
  pila : list Pos;
  visitadas : gset Pos;
  bifurcaciones : list Bifurcacion;
  direcciones : list (Z * Z)
}.

Section Generador.

Variables filas columnas : Z.

(** Combustible comun de los bucles [while] y de la recursion. *)
Definition combustible : nat := S (Z.to_nat (2 * filas * columnas)).

Definition dentro (p : Pos) : Prop :=
  1 ≤ p.1 < filas - 1 ∧ 1 ≤ p.2 < columnas - 1.

Global Instance dentro_dec p : Decision (dentro p).
Proof. unfold dentro. apply _. Defined.

(** El [for dx, dy in direcciones] del bucle principal de [_generar]. *)
Definition vecinos_libres (x y : Z) (dirs : list (Z * Z)) (vis : gset Pos) : list Vecino :=
  omap (λ d : Z * Z,
          let nx := x + d.1 in
          let ny := y + d.2 in
          if decide (dentro (nx, ny)) then
            if decide ((nx, ny) ∉ vis) then Some (nx, ny, d.1 / 2, d.2 / 2) else None
          else None) dirs.

(** El bucle [while pila] de [_generar]. *)
Fixpoint bucle_dfs (comb : nat) (r : Recorrido) : M Recorrido :=
  match comb with
  | O => agotado
  | S comb' =>
      match pila r with
      | [] => ret r
      | (x, y) :: resto =>
          dirs ← shuffle (direcciones r);
          let vecinos := vecinos_libres x y dirs (visitadas r) in
          match vecinos with
          | (nx, ny, wx, wy) :: otros =>
              let bifs :=
                if decide (1 < length vecinos)%nat
                then bifurcaciones r ++ [(x, y, otros)]
                else bifurcaciones r in
              escribir_matriz (x + wx, y + wy) 0;;
              escribir_matriz (nx, ny) 0;;
              bucle_dfs comb'
                (mkRecorrido ((nx, ny) :: pila r) ({[ (nx, ny) ]} ∪ visitadas r) bifs dirs)
          | [] =>
              bucle_dfs comb' (mkRecorrido resto (visitadas r) (bifurcaciones r) dirs)
          end
      end
  end.

(** [_crear_callejon]: el [for _ in range(longitud)] con su [for ... else]. *)
Fixpoint callejon_pasos (n : nat) (dirs : list (Z * Z)) (x y : Z) (vis : gset Pos)
  : M (gset Pos) :=
  match n with
  | O => ret vis
  | S n' =>
      match find (λ d : Z * Z,
                    bool_decide (dentro (x + d.1, y + d.2) ∧ (x + d.1, y + d.2) ∉ vis)) dirs with
      | Some d =>
          let nx := x + d.1 in
          let ny := y + d.2 in
          escribir_matriz (x + d.1 / 2, y + d.2 / 2) 0;;
          escribir_matriz (nx, ny) 0;;
          callejon_pasos n' dirs nx ny ({[ (nx, ny) ]} ∪ vis)
      | None => ret vis
      end
  end.

Definition _crear_callejon (x y longitud : Z) (vis : gset Pos) : M (gset Pos) :=
  dirs ← shuffle [(-2, 0); (0, 2); (2, 0); (0, -2)];
  callejon_pasos (Z.to_nat longitud) dirs x y vis.

(** Cuantas bifurcaciones recorre el bucle de [_agregar_complejidad]:
    [min(int(len(bifurcaciones) * factor_ramificacion), len(bifurcaciones))]. *)
Definition num_a_procesar (n_bifurcaciones : nat) (factor_ramificacion : Q) : nat :=
  let num_bifurcaciones :=
    int_de (Qmult (inject_Z (Z.of_nat n_bifurcaciones)) factor_ramificacion) in
  Z.to_nat (Z.min num_bifurcaciones (Z.of_nat n_bifurcaciones)).

Definition _agregar_complejidad (vis : gset Pos) (bifs : list Bifurcacion)
    (factor_ramificacion : Q) : M (gset Pos) :=
  bifs ← shuffle bifs;
  para (seq 0 (num_a_procesar (length bifs) factor_ramificacion))
    (λ i vis,
       '(x, y, vecinos) ← o_lanza (bifs !! i) IndexError;
       match vecinos with
       | (nx, ny, wx, wy) :: _ =>
           if decide ((nx, ny) ∉ vis) then
             escribir_matriz (x + wx, y + wy) 0;;
             escribir_matriz (nx, ny) 0;;
             longitud ← randint 1 3;
             _crear_callejon nx ny longitud vis
           else ret vis
       | [] => ret vis
       end) vis.

(** [_establecer_inicio_meta]: la lista [caminos]. *)
Definition celdas_camino : M (list Pos) :=
  para (rango 1 (filas - 1) 1)
    (λ i acc,
       para (rango 1 (columnas - 1) 1)
         (λ j acc,
            v ← leer_matriz (i, j);
            if decide (v = 0) then ret (acc ++ [(i, j)]) else ret acc) acc) [].

(** Las listas [caminos_inicio] y [caminos_meta] con sus reservas. *)
Definition caminos_inicio (caminos : list Pos) : list Pos :=
  let mitad_fila := filas / 2 in
  let mitad_columna := columnas / 2 in
  let caminos_inicio :=
    filter (λ p : Pos, p.1 < mitad_fila ∧ p.2 < mitad_columna) caminos in
  let caminos_inicio :=
    match caminos_inicio with
    | [] => filter (λ p : Pos, p.2 < mitad_columna) caminos
    | _ :: _ => caminos_inicio
    end in
  match caminos_inicio with
  | [] => caminos
  | _ :: _ => caminos_inicio
  end.

Definition caminos_meta (caminos : list Pos) (ini : Pos) : list Pos :=
  let mitad_fila := filas / 2 in
  let mitad_columna := columnas / 2 in
  let caminos_meta :=
    filter (λ p : Pos,
              mitad_fila ≤ p.1 ∧ mitad_columna ≤ p.2 ∧
              Z.max filas columnas / 2 < Z.abs (p.1 - ini.1) + Z.abs (p.2 - ini.2))
           caminos in
  let caminos_meta :=
    match caminos_meta with
    | [] => filter (λ p : Pos, mitad_columna ≤ p.2 ∧ p ≠ ini) caminos
    | _ :: _ => caminos_meta
    end in
  match caminos_meta with
  | [] => filter (λ p : Pos, p ≠ ini) caminos
  | _ :: _ => caminos_meta
  end.

Definition _establecer_inicio_meta : M unit :=
  caminos ← celdas_camino;
  match caminos with
  | [] =>
      escribir_matriz (1, 1) 0;;
      escribir_matriz (filas - 2, columnas - 2) 0;;
      asignar_inicio (1, 1);;
      asignar_meta (filas - 2, columnas - 2)
  | _ :: _ =>
      ini ← o_lanza (min_por (λ p : Pos, p.1 + p.2) (caminos_inicio caminos)) ValueError;
      asignar_inicio ini;;
      match caminos_meta caminos ini with
      | [] =>
          let nueva_meta := (filas - 2, columnas - 2) in
          escribir_matriz nueva_meta 0;;
          asignar_meta nueva_meta
      | _ :: _ =>
          fin ← o_lanza (max_por (λ p : Pos, (filas - p.1 - 1) + (columnas - p.2 - 1))
                                 (caminos_meta caminos ini)) ValueError;
          asignar_meta fin;;
          escribir_matriz ini 0;;
          escribir_matriz fin 0
      end
  end.

(** El [for dx, dy in direcciones] de la funcion local [dfs] de
    [_garantizar_solucion]; [llamar] es la llamada recursiva y [visitado]
    la matriz booleana de la clausura, que entra y sale con cada llamada. *)
Fixpoint recorrer (llamar : Matriz bool → Pos → M (bool * Matriz bool))
    (p : Pos) (ds : list (Z * Z)) (visitado : Matriz bool) : M (bool * Matriz bool) :=
  match ds with
  | [] => ret (false, visitado)
  | d :: ds' =>
      let n : Pos := (p.1 + d.1, p.2 + d.2) in
      if decide ((0 ≤ n.1 < filas) ∧ (0 ≤ n.2 < columnas)) then
        v ← leer_matriz n;
        if decide (v = 0) then
          b ← leer_en visitado n;
          if (b : bool) then recorrer llamar p ds' visitado
          else
            '(hallado, visitado) ← llamar visitado n;
            if (hallado : bool) then ret (true, visitado)
            else recorrer llamar p ds' visitado
        else recorrer llamar p ds' visitado
      else recorrer llamar p ds' visitado
  end.

(** La funcion local [dfs] de [_garantizar_solucion]. *)
Fixpoint dfs (comb : nat) (visitado : Matriz bool) (p : Pos) : M (bool * Matriz bool) :=
  match comb with
  | O => agotado
  | S comb' =>
      fin ← leer_meta;
      if decide (p = fin) then ret (true, visitado)
      else
        visitado ← escribir_en visitado p true;
        dirs ← shuffle [(-1, 0); (0, 1); (1, 0); (0, -1)];
        recorrer (dfs comb') p dirs visitado
  end.

(** Los dos [while] de [_crear_camino]. *)
Fixpoint camino_horizontal (comb : nat) (x y meta_y : Z) : M Z :=
  match comb with
  | O => agotado
  | S comb' =>
      if decide (y ≠ meta_y) then
        let y := y + (if decide (y < meta_y) then 1 else -1) in
        escribir_matriz (x, y) 0;;
        camino_horizontal comb' x y meta_y
      else ret y
  end.

Fixpoint camino_vertical (comb : nat) (x y meta_x : Z) : M Z :=
  match comb with
  | O => agotado
  | S comb' =>
      if decide (x ≠ meta_x) then
        let x := x + (if decide (x < meta_x) then 1 else -1) in
        escribir_matriz (x, y) 0;;
        camino_vertical comb' x y meta_x
      else ret x
  end.

Definition _crear_camino : M unit :=
  '(x, y) ← leer_inicio;
  '(meta_x, meta_y) ← leer_meta;
  y ← camino_horizontal combustible x y meta_y;
  camino_vertical combustible x y meta_x;;
  ret tt.

Definition _garantizar_solucion : M unit :=
  let visitado := np_full filas columnas false in
  ini ← leer_inicio;
  '(hallado, _) ← dfs combustible visitado ini;
  if (hallado : bool) then ret tt else _crear_camino.

(** [_crear_ciclos] *)
Definition ciclo_en (probabilidad : Q) (i j : Z) : M unit :=
  v ← leer_matriz (i, j);
  if decide (v = 1) then
    a ← leer_matriz (i - 1, j);
    es_horizontal ← (if decide (a = 0)
                     then b ← leer_matriz (i + 1, j); ret (bool_decide (b = 0))
                     else ret false);
    a ← leer_matriz (i, j - 1);
    es_vertical ← (if decide (a = 0)
                   then b ← leer_matriz (i, j + 1); ret (bool_decide (b = 0))
                   else ret false);
    if es_horizontal || es_vertical then
      u ← random_random;
      if Qlt_le_dec u probabilidad then escribir_matriz (i, j) 0 else ret tt
    else ret tt
  else ret tt.

Definition bucle_ciclos (probabilidad : Q) : M unit :=
  para (rango 2 (filas - 2) 2)
    (λ i _, para (rango 2 (columnas - 2) 2) (λ j _, ciclo_en probabilidad i j) tt) tt.

Definition _crear_ciclos (vis : gset Pos) (probabilidad : Q) : M unit :=
  bucle_ciclos probabilidad;;
  _establecer_inicio_meta;;
  _garantizar_solucion.

(** [_generar], desde la eleccion de la celda inicial hasta el final del
    bucle [while]. *)
Definition tallar : M Recorrido :=
  inicio_x ← randrange 1 (filas - 1) 2;
  inicio_y ← randrange 1 (columnas - 1) 2;
  escribir_matriz (inicio_x, inicio_y) 0;;
  bucle_dfs combustible
    (mkRecorrido [(inicio_x, inicio_y)] {[ (inicio_x, inicio_y) ]} []
       [(-2, 0); (0, 2); (2, 0); (0, -2)]).

Definition factor_de (complejidad : Q) : Q :=
  let x := Qmult complejidad (4 # 10) in
  if Qlt_le_dec x (3 # 10) then x else (3 # 10).

Definition _generar (complejidad densidad : Q) : M unit :=
  rellenar_matriz 1;;
  r ← tallar;
  vis ← _agregar_complejidad (visitadas r) (bifurcaciones r) (factor_de complejidad);
  _crear_ciclos vis (Qmult densidad (15 # 100)).

(** Dos tramos iniciales de [_generar], para hablar del estado al acabar
    [_agregar_complejidad] y del estado al llamar a
    [_garantizar_solucion]. *)
Definition hasta_complejidad (complejidad : Q) : M (gset Pos) :=
  rellenar_matriz 1;;
  r ← tallar;
  _agregar_complejidad (visitadas r) (bifurcaciones r) (factor_de complejidad).

Definition hasta_inicio_meta (complejidad densidad : Q) : M unit :=
  hasta_complejidad complejidad;;
  bucle_ciclos (Qmult densidad (15 # 100));;
  _establecer_inicio_meta.

End Generador.

(** [Laberinto.__init__] seguido de un programa sobre el objeto recien
    creado: [np.zeros] rechaza dimensiones negativas; los atributos de
    dibujo ([tamano_celda], [ancho], [alto]) no intervienen en la
    generacion y quedan fuera. *)
Definition objeto_nuevo (filas columnas : Z) (g : Rng) : Estado :=
  mkEstado (np_full filas columnas 0) (0, 0) (filas - 1, columnas - 1) g.

Definition correr {A} (filas columnas : Z) (g : Rng) (prog : M A) : Resultado Estado :=
  if decide (filas < 0 ∨ columnas < 0) then Lanza ValueError
  else
    match prog (objeto_nuevo filas columnas g) with
    | Ok (_, s) => Ok s
    | Lanza e => Lanza e
    | Agotado => Agotado
    end.

Definition Laberinto_init (filas columnas : Z) (complejidad densidad : Q) (g : Rng)
  : Resultado Estado :=
  correr filas columnas g (_generar filas columnas complejidad densidad).

Definition es_pared (filas columnas : Z) (s : Estado) (fila columna : Z) : Resultado bool :=
  if decide (fila < 0 ∨ filas ≤ fila ∨ columna < 0 ∨ columnas ≤ columna) then Ok true
  else match leer (matriz s) (fila, columna) with
       | Some v => Ok (bool_decide (v = 1))
       | None => Lanza IndexError
       end.

Definition es_meta (s : Estado) (fila columna : Z) : bool :=
  bool_decide ((fila, columna) = meta s).

(** ** Vocabulario de la especificacion *)

Definition enrango (f c : Z) (p : Pos) : Prop := 0 ≤ p.1 < f ∧ 0 ≤ p.2 < c.

Global Instance enrango_dec f c p : Decision (enrango f c p).
Proof. unfold enrango. apply _. Defined.

(** Celda de camino (Path) y celda de pared (Wall) de una matriz de
    [f] filas y [c] columnas. *)
Definition camino (f c : Z) (m : Matriz Z) (p : Pos) : Prop :=
  enrango f c p ∧ leer m p = Some 0.

Definition pared (f c : Z) (m : Matriz Z) (p : Pos) : Prop :=
  enrango f c p ∧ leer m p = Some 1.

Global Instance camino_dec f c m p : Decision (camino f c m p).
Proof. unfold camino. apply _. Defined.

Definition adyacente (p q : Pos) : Prop :=
  Z.abs (p.1 - q.1) + Z.abs (p.2 - q.2) = 1.

Global Instance adyacente_dec p q : Decision (adyacente p q).
Proof. unfold adyacente. apply _. Defined.

(** Alcanzabilidad en 4 direcciones por celdas de camino. *)
Inductive alcanzable (f c : Z) (m : Matriz Z) : Pos → Pos → Prop :=
  | alc_aqui p : camino f c m p → alcanzable f c m p p
  | alc_paso p q r :
      camino f c m p → adyacente p q → alcanzable f c m q r → alcanzable f c m p r.

Definition conexo (f c : Z) (m : Matriz Z) : Prop :=
  ∀ p q, camino f c m p → camino f c m q → alcanzable f c m p q.

Definition borde (f c : Z) (p : Pos) : Prop :=
  enrango f c p ∧ (p.1 = 0 ∨ p.1 = f - 1 ∨ p.2 = 0 ∨ p.2 = c - 1).

Definition posiciones (f c : Z) : list Pos := cprod (seqZ 0 f) (seqZ 0 c).

Definition caminos_de (f c : Z) (m : Matriz Z) : gset Pos :=
  list_to_set (filter (camino f c m) (posiciones f c)).

(** Numero de celdas de camino. *)
Definition num_caminos (f c : Z) (m : Matriz Z) : nat := size (caminos_de f c m).

(** Un ciclo: recorrido cerrado simple, de al menos tres celdas de camino
    distintas, cada una vecina de la siguiente y la ultima de la primera. *)
Definition ciclo (f c : Z) (m : Matriz Z) (l : list Pos) : Prop :=
  NoDup l ∧ (3 ≤ length l)%nat ∧
  ∀ (i : nat) x y, l !! i = Some x → l !! (S i mod length l)%nat = Some y →
                   camino f c m x ∧ adyacente x y.

Definition sin_ciclos (f c : Z) (m : Matriz Z) : Prop := ∀ l, ¬ ciclo f c m l.

(** Las celdas de camino forman un arbol: grafo conexo y sin ciclos. *)
Definition es_arbol (f c : Z) (m : Matriz Z) : Prop :=
  conexo f c m ∧ sin_ciclos f c m.

(** Toda celda de la matriz vale 0 o 1. *)
Definition binaria (f c : Z) (m : Matriz Z) : Prop :=
  ∀ p, enrango f c p → leer m p = Some 0 ∨ leer m p = Some 1.

Definition impar (x : Z) : Prop := x mod 2 = 1.

Definition entre (a b x : Z) : Prop := Z.min a b ≤ x ≤ Z.max a b.

(** Un paso de programa que solo consume azar: deja igual el laberinto. *)
Definition estable (s s' : Estado) : Prop :=
  matriz s' = matriz s ∧ inicio s' = inicio s ∧ meta s' = meta s.

(** ** Logica de programas: precondicion mas debil (correccion total) *)

Definition wp {A} (c : M A) (Q : A → Estado → Prop) (s : Estado) : Prop :=
  match c s with
  | Ok (a, s') => Q a s'
  | _ => False
  end.

(** Version relacional, para comparar dos ejecuciones paso a paso. *)
Definition wp2 {A B} (c1 : M A) (c2 : M B)
    (R : A → Estado → B → Estado → Prop) (s1 s2 : Estado) : Prop :=
  match c1 s1, c2 s2 with
  | Ok (a, s1'), Ok (b, s2') => R a s1' b s2'
  | _, _ => False
  end.

Definition con_matriz (s : Estado) (m : Matriz Z) : Estado :=
  mkEstado m (inicio s) (meta s) (azar s).
Definition con_azar (s : Estado) (g : Rng) : Estado :=
  mkEstado (matriz s) (inicio s) (meta s) g.

(** ** Invariantes de la generacion *)

Section Invariantes.

Variables filas columnas : Z.

(** Las celdas de la reticula impar dentro del borde. *)
Definition reticula (p : Pos) : Prop :=
  dentro filas columnas p ∧ impar p.1 ∧ impar p.2.

Definition dirs4 : list (Z * Z) := [(-2, 0); (0, 2); (2, 0); (0, -2)].

Definition celdas_dentro : gset Pos :=
  list_to_set (filter (dentro filas columnas) (posiciones filas columnas)).

(** Variante del bucle [while pila]. *)
Definition medida (r : Recorrido) : nat :=
  (2 * size (celdas_dentro ∖ visitadas r) + length (pila r))%nat.

(** Invariante del bucle [while pila] de [_generar]. *)
Record inv_dfs (r : Recorrido) (s : Estado) : Prop := mk_inv_dfs {
  inv_forma : forma filas columnas (matriz s);
  inv_binaria : binaria filas columnas (matriz s);
  inv_vis_ret : ∀ p, p ∈ visitadas r → reticula p;
  inv_pila : ∀ p, p ∈ pila r → p ∈ visitadas r;
  inv_caminos : ∀ p, camino filas columnas (matriz s) p →
    p ∈ visitadas r ∨
    ∃ a d, a ∈ visitadas r ∧ d ∈ dirs4 ∧ (a.1 + d.1, a.2 + d.2) ∈ visitadas r ∧
           p = (a.1 + d.1 / 2, a.2 + d.2 / 2);
  inv_vis_camino : ∀ p, p ∈ visitadas r → camino filas columnas (matriz s) p;
  inv_cerrado : ∀ p d, p ∈ visitadas r → p ∉ pila r → d ∈ dirs4 →
    dentro filas columnas (p.1 + d.1, p.2 + d.2) → (p.1 + d.1, p.2 + d.2) ∈ visitadas r;
  inv_arbol : es_arbol filas columnas (matriz s);
  inv_no_vacio : ∃ p, p ∈ visitadas r;
  inv_bifs : Forall (λ b : Bifurcacion,
                       Forall (λ v : Vecino, reticula (v.1.1.1, v.1.1.2)) b.2)
                    (bifurcaciones r);
  inv_dirs : direcciones r ≡ₚ dirs4
}.

(** Celdas marcadas y sin marcar de la matriz [visitado] de [dfs]. *)
Definition marcada (v : Matriz bool) (q : Pos) : Prop :=
  enrango filas columnas q ∧ leer v q = Some true.

Definition libres (v : Matriz bool) : gset Pos :=
  list_to_set (filter (λ q, ¬ marcada v q) (posiciones filas columnas)).

(** Lo que garantiza una llamada [dfs(p)] que parte de las marcas [v]:
    si devuelve [True] hay camino de [p] a la meta; si devuelve [False],
    toda celda que marco tiene marcados todos sus vecinos de camino. *)
Definition post_dfs (m : Matriz Z) (fin : Pos) (v : Matriz bool) (p : Pos)
    (r : bool * Matriz bool) : Prop :=
  forma filas columnas r.2 ∧ (∀ q, marcada v q → marcada r.2 q) ∧ ¬ marcada r.2 fin ∧
  if r.1 then alcanzable filas columnas m p fin
  else marcada r.2 p ∧
       ∀ q, marcada r.2 q → ¬ marcada v q →
            ∀ n, adyacente q n → camino filas columnas m n → marcada r.2 n.

(** Lo que vale de la matriz desde que termina el tallado. *)
Record inv_lab (m : Matriz Z) : Prop := mk_inv_lab {
  lab_forma : forma filas columnas m;
  lab_binaria : binaria filas columnas m;
  lab_conexo : conexo filas columnas m;
  lab_dentro : ∀ p, camino filas columnas m p → dentro filas columnas p;
  lab_reticula : ∀ p, reticula p → camino filas columnas m p;
  lab_chico : filas ≤ 4 → columnas ≤ 4 → ∀ p, camino filas columnas m p → p = (1, 1)
}.

(** Relacion entre dos barridos de [_crear_ciclos] con el mismo azar y
    probabilidades [p1 ≤ p2]: las matrices coinciden salvo en celdas de
    coordenadas pares ya barridas ([¬ pend]), que el segundo abrio. *)
Definition par2 (q : Pos) : Prop := q.1 mod 2 = 0 ∧ q.2 mod 2 = 0.

Definition rel_ciclos (pend : Pos → Prop) (s1 s2 : Estado) : Prop :=
  azar s1 = azar s2 ∧ forma filas columnas (matriz s1) ∧ forma filas columnas (matriz s2) ∧
  ∀ q, enrango filas columnas q →
       leer (matriz s1) q = leer (matriz s2) q ∨
       (¬ pend q ∧ par2 q ∧ leer (matriz s2) q = Some 0).

(** Lo que vale del laberinto terminado [sE], y de su relacion con el
    estado [sD] con que se llamo a [_garantizar_solucion]. *)
Record laberinto_listo (sD sE : Estado) : Prop := mk_laberinto_listo {
  ll_inicio : inicio sE = (1, 1);
  ll_meta : meta sE = meta sD;
  ll_forma : forma filas columnas (matriz sE);
  ll_binaria : binaria filas columnas (matriz sE);
  ll_cam_inicio : camino filas columnas (matriz sE) (inicio sE);
  ll_cam_meta : camino filas columnas (matriz sE) (meta sE);
  ll_alcanzable : alcanzable filas columnas (matriz sE) (inicio sE) (meta sE);
  ll_conexo : conexo filas columnas (matriz sE);
  ll_dentro : ∀ p, camino filas columnas (matriz sE) p → dentro filas columnas p;
  ll_cuadrante : 10 ≤ filas → 10 ≤ columnas →
                 filas / 2 ≤ (meta sE).1 ∧ columnas / 2 ≤ (meta sE).2;
  ll_distintas : ¬ (filas = 3 ∧ columnas = 3) → meta sE ≠ inicio sE;
  ll_sin_reparar : ¬ (filas = 4 ∧ columnas = 4) → matriz sE = matriz sD
}.

End Invariantes.

(** ** Tacticas *)

Ltac zlia := Z.div_mod_to_equations; lia.

(** Analisis por casos de [d ∈ dirs4] (o de otra lista explicita). *)
Ltac casos_dir H :=
  repeat (apply elem_of_cons in H as [->|H]); [..|by apply elem_of_nil in H].

(** ** Un estado de ejemplo

    El laberinto de 4 x 4 tal como lo deja [_establecer_inicio_meta]: solo
    son camino el inicio (1, 1) y la meta forzada (2, 2). *)
Definition estado_4x4 : Estado :=
  mkEstado [[1; 1; 1; 1]; [1; 0; 1; 1]; [1; 1; 0; 1]; [1; 1; 1; 1]] (1, 1) (2, 2) (λ _, 0).

(** ** El modulo [utilidades.helpers] *)

(** Fallos de los modulos que rodean al laberinto: los que salen del
    propio laberinto, y la division entera por cero. *)
Inductive Fallo : Type :=
  | Fallo_de (e : Excepcion)
  | ZeroDivisionError
  | Sin_combustible.

Definition de_resultado {A} (r : Resultado A) : Fallo + A :=
  match r with
  | Ok a => inr a
  | Lanza e => inl (Fallo_de e)
  | Agotado => inl Sin_combustible
  end.

(** [a // b] sobre enteros de Python: division hacia menos infinito. *)
Definition division_entera (a b : Z) : Fallo + Z :=
  if decide (b = 0) then inl ZeroDivisionError else inr (a / b).

(** [a % b] sobre enteros de Python: el resto lleva el signo del divisor. *)
Definition resto_entero (a b : Z) : Fallo + Z :=
  if decide (b = 0) then inl ZeroDivisionError else inr (a mod b).

Definition calcular_centro_celda (fila columna tamano_celda : Z) : Z * Z :=
  let x := columna * tamano_celda + tamano_celda / 2 in
  let y := fila * tamano_celda + tamano_celda / 2 in
  (x, y).

Definition calcular_posicion_celda (x y tamano_celda : Z) : Fallo + (Z * Z) :=
  match division_entera y tamano_celda with
  | inl e => inl e
  | inr fila =>
      match division_entera x tamano_celda with
      | inl e => inl e
      | inr columna => inr (fila, columna)
      end
  end.

(** El formato [:02d] de una f-string: la escritura decimal del entero,
    con un cero delante si ocupa menos de dos caracteres (lo que solo pasa
    de 0 a 9; un negativo ya lleva su signo). *)
Definition formato_02d (n : Z) : string :=
  let s := pretty n in
  if decide (String.length s < 2)%nat then ("0" +:+ s)%string else s.

Definition formatear_tiempo (segundos : Z) : string :=
  let minutos := segundos / 60 in
  let segundos_restantes := segundos mod 60 in
  (formato_02d minutos +:+ ":" +:+ formato_02d segundos_restantes)%string.

(** Un color RGB es una terna; [factor] es un racional exacto. *)
Definition interpolar_color (color1 color2 : Z * Z * Z) (factor : Q) : Z * Z * Z :=
  let r := int_de (Qplus (inject_Z color1.1.1)
                     (Qmult (inject_Z (color2.1.1 - color1.1.1)) factor)) in
  let g := int_de (Qplus (inject_Z color1.1.2)
                     (Qmult (inject_Z (color2.1.2 - color1.1.2)) factor)) in
  let b := int_de (Qplus (inject_Z color1.2)
                     (Qmult (inject_Z (color2.2 - color1.2)) factor)) in
  (r, g, b).

(** La clase [Temporizador]. Cada metodo que llama a [time.time()] recibe
    en [ahora] el valor que el reloj le devuelve; los tiempos son
    racionales exactos. *)
Module Temporizador.

Record t : Type := mk {
  tiempo_inicio : Q;
  tiempo_limite : option Z;
  tiempo_pausado : Q;
  pausado : bool;
  tiempo_pausa_inicio : Q
}.

Definition init (tiempo_limite : option Z) (ahora : Q) : t :=
  mk ahora tiempo_limite 0 false 0.

Definition reiniciar (self : t) (limite : option Z) (ahora : Q) : t :=
  mk ahora
     (match limite with Some l => Some l | None => tiempo_limite self end)
     0 false (tiempo_pausa_inicio self).

Definition pausar (self : t) (ahora : Q) : t :=
  if negb (pausado self)
  then mk (tiempo_inicio self) (tiempo_limite self) (tiempo_pausado self) true ahora
  else self.

Definition reanudar (self : t) (ahora : Q) : t :=
  if pausado self
  then mk (tiempo_inicio self) (tiempo_limite self)
          (Qplus (tiempo_pausado self) (Qminus ahora (tiempo_pausa_inicio self)))
          false (tiempo_pausa_inicio self)
  else self.

Definition obtener_tiempo_transcurrido (self : t) (ahora : Q) : Z :=
  if pausado self
  then int_de (Qminus (Qminus (tiempo_pausa_inicio self) (tiempo_inicio self))
                 (tiempo_pausado self))
  else int_de (Qminus (Qminus ahora (tiempo_inicio self)) (tiempo_pausado self)).

Definition obtener_tiempo_restante (self : t) (ahora : Q) : option Z :=
  match tiempo_limite self with
  | None => None
  | Some limite =>
      let tiempo_restante := limite - obtener_tiempo_transcurrido self ahora in
      Some (Z.max 0 tiempo_restante)
  end.

(** Tras comprobar que hay limite, [obtener_tiempo_restante] no devuelve
    [None]; esa rama (un [TypeError] de la comparacion) no se alcanza. *)
Definition ha_terminado (self : t) (ahora : Q) : bool :=
  match tiempo_limite self with
  | None => false
  | Some _ =>
      match obtener_tiempo_restante self ahora with
      | Some restante => bool_decide (restante ≤ 0)
      | None => false
      end
  end.

End Temporizador.

(** ** El objeto [Laberinto] completo y la clase [Jugador] *)

Definition TAMANO_CELDA : Z := 30.
Definition VELOCIDAD_JUGADOR : Z := 5.
Definition AZUL : Z * Z * Z := (0, 0, 255).
Definition COLOR_JUGADOR : Z * Z * Z := AZUL.

(** El objeto que deja [Laberinto.__init__], ahora con los atributos de
    dibujo; [estado_de] lleva la matriz, el inicio y la meta. *)
Record Laberinto : Type := mkLaberinto {
  filas_de : Z;
  columnas_de : Z;
  complejidad_de : Q;
  densidad_de : Q;
  tamano_celda_de : Z;
  ancho_de : Z;
  alto_de : Z;
  estado_de : Estado
}.

Definition Laberinto_nuevo (filas columnas : Z) (complejidad densidad : Q)
    (tamano_celda : option Z) (g : Rng) : Resultado Laberinto :=
  let tc := match tamano_celda with Some t => t | None => TAMANO_CELDA end in
  match Laberinto_init filas columnas complejidad densidad g with
  | Ok s => Ok (mkLaberinto filas columnas complejidad densidad tc
                  (columnas * tc) (filas * tc) s)
  | Lanza e => Lanza e
  | Agotado => Agotado
  end.

(** Los eventos de pygame que distingue [Jugador.manejar_evento]. *)
Inductive TipoEvento : Type := KEYDOWN | KEYUP | OTRO_TIPO.
Inductive Tecla : Type := K_UP | K_DOWN | K_LEFT | K_RIGHT | OTRA_TECLA.
Record Evento : Type := mkEvento { tipo : TipoEvento; key : Tecla }.

Module Jugador.

Record t : Type := mk {
  _laberinto : Laberinto;
  _fila : Z;
  _columna : Z;
  _tamano_celda : Z;
  _x : Z;
  _y : Z;
  _tamano : Z;
  _color : Z * Z * Z;
  _velocidad : Z;
  _moviendo_arriba : bool;
  _moviendo_abajo : bool;
  _moviendo_izquierda : bool;
  _moviendo_derecha : bool;
  _animacion_contador : Z;
  _animacion_max : Z
}.

Definition init (laberinto : Laberinto) : t :=
  let '(fila, columna) := inicio (estado_de laberinto) in
  let tamano_celda := tamano_celda_de laberinto in
  let '(centro_x, centro_y) := calcular_centro_celda fila columna tamano_celda in
  mk laberinto fila columna tamano_celda
     centro_y centro_x
     (int_de (Qmult (inject_Z tamano_celda) (7 # 10))) COLOR_JUGADOR VELOCIDAD_JUGADOR
     false false false false 0 5.

Definition posicion (self : t) : Z * Z := (_x self, _y self).

Definition celda (self : t) : Z * Z := (_fila self, _columna self).

Definition reiniciar (self : t) : t :=
  let '(fila, columna) := inicio (estado_de (_laberinto self)) in
  let '(centro_x, centro_y) := calcular_centro_celda fila columna (_tamano_celda self) in
  mk (_laberinto self) fila columna (_tamano_celda self)
     centro_y centro_x
     (_tamano self) (_color self) (_velocidad self)
     false false false false 0 (_animacion_max self).

(** Asignacion de los cuatro indicadores de movimiento. *)
Definition con_movimiento (self : t) (arriba abajo izquierda derecha : bool) : t :=
  mk (_laberinto self) (_fila self) (_columna self) (_tamano_celda self)
     (_x self) (_y self) (_tamano self) (_color self) (_velocidad self)
     arriba abajo izquierda derecha
     (_animacion_contador self) (_animacion_max self).

Definition pulsar (self : t) (tecla : Tecla) (valor : bool) : t :=
  match tecla with
  | K_UP => con_movimiento self valor (_moviendo_abajo self)
              (_moviendo_izquierda self) (_moviendo_derecha self)
  | K_DOWN => con_movimiento self (_moviendo_arriba self) valor
                (_moviendo_izquierda self) (_moviendo_derecha self)
  | K_LEFT => con_movimiento self (_moviendo_arriba self) (_moviendo_abajo self)
                valor (_moviendo_derecha self)
  | K_RIGHT => con_movimiento self (_moviendo_arriba self) (_moviendo_abajo self)
                 (_moviendo_izquierda self) valor
  | OTRA_TECLA => self
  end.

Definition manejar_evento (self : t) (evento : Evento) : t :=
  match tipo evento with
  | KEYDOWN => pulsar self (key evento) true
  | KEYUP => pulsar self (key evento) false
  | OTRO_TIPO => self
  end.

(** [actualizar]. Un fallo deja sin describir el objeto a medio cambiar. *)
Definition actualizar (self : t) : Fallo + t :=
  let x_anterior := _x self in
  let y_anterior := _y self in
  let fila_anterior := _fila self in
  let columna_anterior := _columna self in
  let y1 := if _moviendo_arriba self then _y self - _velocidad self else _y self in
  let y2 := if _moviendo_abajo self then y1 + _velocidad self else y1 in
  let x1 := if _moviendo_izquierda self then _x self - _velocidad self else _x self in
  let x2 := if _moviendo_derecha self then x1 + _velocidad self else x1 in
  match division_entera y2 (_tamano_celda self) with
  | inl e => inl e
  | inr nueva_fila =>
  match division_entera x2 (_tamano_celda self) with
  | inl e => inl e
  | inr nueva_columna =>
  match de_resultado (es_pared (filas_de (_laberinto self)) (columnas_de (_laberinto self))
                        (estado_de (_laberinto self)) nueva_fila nueva_columna) with
  | inl e => inl e
  | inr choca =>
      let '(x3, y3, fila3, columna3) :=
        if (choca : bool)
        then (x_anterior, y_anterior, fila_anterior, columna_anterior)
        else (x2, y2, nueva_fila, nueva_columna) in
      let se_mueve :=
        _moviendo_arriba self || _moviendo_abajo self ||
        _moviendo_izquierda self || _moviendo_derecha self in
      match (if se_mueve
             then resto_entero (_animacion_contador self + 1) (_animacion_max self)
             else inr (_animacion_contador self)) with
      | inl e => inl e
      | inr contador =>
          inr (mk (_laberinto self) fila3 columna3 (_tamano_celda self) x3 y3
                  (_tamano self) (_color self) (_velocidad self)
                  (_moviendo_arriba self) (_moviendo_abajo self)
                  (_moviendo_izquierda self) (_moviendo_derecha self)
                  contador (_animacion_max self))
      end
  end end end.

Definition ha_llegado_meta (self : t) : bool :=
  es_meta (estado_de (_laberinto self)) (_fila self) (_columna self).

(** Lo que puede ocurrirle a un jugador entre dos fotogramas: un evento
    de teclado, una actualizacion que termina, o un reinicio. *)
Inductive paso : t → t → Prop :=
  | paso_evento self evento : paso self (manejar_evento self evento)
  | paso_actualizar self self' : actualizar self = inr self' → paso self self'
  | paso_reiniciar self : paso self (reiniciar self).

End Jugador.

(** Lo que vale de un jugador sobre el laberinto [l] en todo momento. *)
Record jugador_en_juego (l : Laberinto) (j : Jugador.t) : Prop := mk_jugador_en_juego {
  jj_laberinto : Jugador._laberinto j = l;
  jj_tamano_celda : Jugador._tamano_celda j = tamano_celda_de l;
  jj_celda : Jugador.celda j =
             (Jugador._y j / tamano_celda_de l, Jugador._x j / tamano_celda_de l);
  jj_camino : camino (filas_de l) (columnas_de l) (matriz (estado_de l)) (Jugador.celda j);
  jj_tamano : Jugador._tamano j = int_de (Qmult (inject_Z (tamano_celda_de l)) (7 # 10));
  jj_color : Jugador._color j = COLOR_JUGADOR;
  jj_velocidad : Jugador._velocidad j = VELOCIDAD_JUGADOR;
  jj_animacion_max : Jugador._animacion_max j = 5;
  jj_contador : 0 ≤ Jugador._animacion_contador j < 5
}.

(** ** El limite de recursion de CPython

    [dfs] es recursiva y CPython corta la recursion con [RecursionError].
    [limite] es el numero de llamadas anidadas a [dfs] que el interprete
    aun admite cuando [_garantizar_solucion] hace la primera. Las
    definiciones que siguen son las de arriba con ese limite en lugar del
    combustible; coinciden con ellas siempre que el limite no se alcanza
    ([garantizar_limitado_o_desborda]). *)

Section ConLimiteDeRecursion.

Variables filas columnas : Z.

Fixpoint dfs_limitado (limite : nat) (visitado : Matriz bool) (p : Pos)
  : M (bool * Matriz bool) :=
  match limite with
  | O => lanzar RecursionError
  | S limite' =>
      fin ← leer_meta;
      if decide (p = fin) then ret (true, visitado)
      else
        visitado ← escribir_en visitado p true;
        dirs ← shuffle [(-1, 0); (0, 1); (1, 0); (0, -1)];
        recorrer filas columnas (dfs_limitado limite') p dirs visitado
  end.

Definition _garantizar_solucion_limitado (limite : nat) : M unit :=
  let visitado := np_full filas columnas false in
  ini ← leer_inicio;
  '(hallado, _) ← dfs_limitado limite visitado ini;
  if (hallado : bool) then ret tt else _crear_camino filas columnas.

Definition _crear_ciclos_limitado (limite : nat) (vis : gset Pos) (probabilidad : Q)
  : M unit :=
  bucle_ciclos filas columnas probabilidad;;
  _establecer_inicio_meta filas columnas;;
  _garantizar_solucion_limitado limite.

Definition _generar_limitado (limite : nat) (complejidad densidad : Q) : M unit :=
  rellenar_matriz 1;;
  r ← tallar filas columnas;
  vis ← _agregar_complejidad filas columnas (visitadas r) (bifurcaciones r)
          (factor_de complejidad);
  _crear_ciclos_limitado limite vis (Qmult densidad (15 # 100)).

End ConLimiteDeRecursion.

Definition Laberinto_init_limitado (limite : nat) (filas columnas : Z)
    (complejidad densidad : Q) (g : Rng) : Resultado Estado :=
  correr filas columnas g (_generar_limitado filas columnas limite complejidad densidad).

(** Un resultado con el combustible agotado, leido como desbordamiento de
    la pila. *)
Definition cambiar {A} (r : Resultado A) : Resultado A :=
  match r with
  | Agotado => Lanza RecursionError
  | _ => r
  end.

(** [r2] es [r1], salvo que la recursion se haya desbordado. *)
Definition o_desborda {A} (r1 r2 : Resultado A) : Prop :=
  r2 = r1 ∨ r2 = Lanza RecursionError.

(** ** Aritmetica de doble precision

    Los [float] de Python son numeros binary64 de IEEE 754, y con ellos
    calcula el generador [factor_ramificacion] y [num_bifurcaciones]. Las
    definiciones que siguen son esa parte de [_generar] y la etapa
    [_agregar_complejidad] con la aritmetica de doble precision en lugar de
    la racional exacta de [factor_de] y [num_a_procesar]. *)

Definition doble : Type := SpecFloat.spec_float.

Definition d_mul : doble → doble → doble := SpecFloat.SFmul 53 1024.
Definition d_div : doble → doble → doble := SpecFloat.SFdiv 53 1024.
Definition d_lt : doble → doble → bool := SpecFloat.SFltb.

(** El doble mas cercano al entero [n]. *)
Definition doble_de_int (n : Z) : doble := SpecFloat.binary_normalize 53 1024 n 0 false.

(** El literal decimal [n/d]: el doble mas cercano al cociente. *)
Definition literal (n d : Z) : doble := d_div (doble_de_int n) (doble_de_int d).

Definition d_0_3 : doble := literal 3 10.
Definition d_0_4 : doble := literal 4 10.

(** [float(n)] para un operando entero: [OverflowError] si no cabe. *)
Definition float_de_int (n : Z) : Excepcion + doble :=
  match doble_de_int n with
  | SpecFloat.S754_infinity _ => inl OverflowError
  | x => inr x
  end.

(** [int(x)] sobre un [float]: truncamiento hacia cero; [OverflowError]
    sobre un infinito y [ValueError] sobre un NaN. *)
Definition int_de_doble (x : doble) : Excepcion + Z :=
  match x with
  | SpecFloat.S754_zero _ => inr 0
  | SpecFloat.S754_finite signo m e =>
      let magnitud := if decide (0 ≤ e) then Z.pos m * 2 ^ e else Z.pos m / 2 ^ (- e) in
      inr (if signo then - magnitud else magnitud)
  | SpecFloat.S754_infinity _ => inl OverflowError
  | SpecFloat.S754_nan => inl ValueError
  end.

(** [min(0.3, self.complejidad * 0.4)]: [min] devuelve su segundo argumento
    solo si es menor que el primero. *)
Definition factor_de_doble (complejidad : doble) : doble :=
  let x := d_mul complejidad d_0_4 in
  if d_lt x d_0_3 then x else d_0_3.

(** [int(len(bifurcaciones) * factor_ramificacion)]. *)
Definition num_bifurcaciones_doble (n_bifurcaciones : nat) (factor_ramificacion : doble)
  : Excepcion + Z :=
  match float_de_int (Z.of_nat n_bifurcaciones) with
  | inl e => inl e
  | inr n => int_de_doble (d_mul n factor_ramificacion)
  end.

Definition elevar {A} (r : Excepcion + A) : M A :=
  match r with
  | inl e => lanzar e
  | inr a => ret a
  end.

Section EtapaEnDoblePrecision.

Variables filas columnas : Z.

(** El cuerpo del [for] de [_agregar_complejidad] sobre la bifurcacion
    [(x, y, vecinos)]. *)
Definition procesar_bifurcacion (b : Bifurcacion) (vis : gset Pos) : M (gset Pos) :=
  let '(x, y, vecinos) := b in
  match vecinos with
  | (nx, ny, wx, wy) :: _ =>
      if decide ((nx, ny) ∉ vis) then
        escribir_matriz (x + wx, y + wy) 0;;
        escribir_matriz (nx, ny) 0;;
        longitud ← randint 1 3;
        _crear_callejon filas columnas nx ny longitud vis
      else ret vis
  | [] => ret vis
  end.

Definition _agregar_complejidad_doble (vis : gset Pos) (bifs : list Bifurcacion)
    (factor_ramificacion : doble) : M (gset Pos) :=
  bifs ← shuffle bifs;
  num_bifurcaciones ← elevar (num_bifurcaciones_doble (length bifs) factor_ramificacion);
  para (seq 0 (Z.to_nat (Z.min num_bifurcaciones (Z.of_nat (length bifs)))))
    (λ i vis, b ← o_lanza (bifs !! i) IndexError; procesar_bifurcacion b vis) vis.

(** [_generar] con el limite de recursion y con la etapa de complejidad en
    doble precision. *)
Definition _generar_doble (limite : nat) (complejidad : doble) (densidad : Q) : M unit :=
  rellenar_matriz 1;;
  r ← tallar filas columnas;
  vis ← _agregar_complejidad_doble (visitadas r) (bifurcaciones r)
          (factor_de_doble complejidad);
  _crear_ciclos_limitado filas columnas limite vis (Qmult densidad (15 # 100)).

End EtapaEnDoblePrecision.

Definition Laberinto_init_doble (limite : nat) (filas columnas : Z) (complejidad : doble)
    (densidad : Q) (g : Rng) : Resultado Estado :=
  correr filas columnas g (_generar_doble filas columnas limite complejidad densidad).

(** * Verificacion *)

(** ** Lemas de matrices *)

Lemma indice_nonneg n i : 0 ≤ i < Z.of_nat n → indice n i = Some (Z.to_nat i).
Proof. intros H. unfold indice. by rewrite decide_True. Qed.

Lemma leer_fila {A} f c (m : Matriz A) p :
  forma f c m → enrango f c p →
  ∃ fila, m !! Z.to_nat p.1 = Some fila ∧ length fila = Z.to_nat c ∧
          leer m p = fila !! Z.to_nat p.2.
Proof.
  intros (Hf & Hc & Hl & Hr) [Hi Hj].
  destruct (lookup_lt_is_Some_2 m (Z.to_nat p.1)) as [fila Hfila]; [lia|].
  exists fila. 
  assert (length fila = Z.to_nat c) as Hlen.
  { rewrite Forall_forall in Hr. apply Hr. eapply list_elem_of_lookup_2; eauto. }
  split; [done|]. split; [done|].
  unfold leer. rewrite indice_nonneg by lia. simpl. rewrite Hfila. simpl.
  rewrite indice_nonneg by lia. done.
Qed.

Lemma leer_is_Some {A} f c (m : Matriz A) p :
  forma f c m → enrango f c p → is_Some (leer m p).
Proof.
  intros Hm Hp. destruct (leer_fila f c m p Hm Hp) as (fila & _ & Hlen & ->).
  apply lookup_lt_is_Some_2. destruct Hp. lia.
Qed.

Lemma escribir_spec {A} f c (m : Matriz A) p v :
  forma f c m → enrango f c p →
  ∃ m', escribir m p v = Some m' ∧ forma f c m' ∧ leer m' p = Some v ∧
        ∀ q, enrango f c q → q ≠ p → leer m' q = leer m q.
Proof.
  intros Hm Hp. destruct (leer_fila f c m p Hm Hp) as (fila & Hfila & Hlen & _).
  pose proof Hm as (Hf & Hc & Hl & Hr). pose proof Hp as [Hi Hj].
  exists (<[Z.to_nat p.1 := <[Z.to_nat p.2 := v]> fila]> m).
  assert (forma f c (<[Z.to_nat p.1 := <[Z.to_nat p.2 := v]> fila]> m)) as Hm'.
  { repeat split; try done.
    - by rewrite length_insert.
    - apply Forall_insert; [done|]. by rewrite length_insert. }
  split.
  { unfold escribir. rewrite indice_nonneg by lia. simpl. rewrite Hfila. simpl.
    rewrite indice_nonneg by lia. done. }
  split; [done|]. split.
  - destruct (leer_fila f c _ p Hm' Hp) as (fila' & Hfila' & _ & ->).
    rewrite list_lookup_insert_eq in Hfila' by lia. simplify_eq.
    apply list_lookup_insert_eq. lia.
  - intros q Hq Hne.
    destruct (leer_fila f c _ q Hm' Hq) as (fila' & Hfila' & _ & ->).
    destruct (leer_fila f c _ q Hm Hq) as (fila'' & Hfila'' & _ & ->).
    destruct Hq as [Hqi Hqj].
    destruct (decide (q.1 = p.1)) as [Heq|Hneq].
    + rewrite Heq in *. rewrite list_lookup_insert_eq in Hfila' by lia. simplify_eq.
      apply list_lookup_insert_ne. intros Hc'. apply Hne.
      destruct p, q; simpl in *. f_equal; lia.
    + rewrite list_lookup_insert_ne in Hfila' by lia. by simplify_eq.
Qed.

Lemma escribir_mismo {A} f c (m : Matriz A) p v :
  forma f c m → enrango f c p → leer m p = Some v → escribir m p v = Some m.
Proof.
  intros Hm Hp Hv. destruct (leer_fila f c m p Hm Hp) as (fila & Hfila & Hlen & Hl).
  pose proof Hm as (Hf & Hc & Hl' & Hr). pose proof Hp as [Hi Hj].
  unfold escribir. rewrite indice_nonneg by lia. simpl. rewrite Hfila. simpl.
  rewrite indice_nonneg by lia. simpl. f_equal.
  rewrite Hl in Hv. rewrite (list_insert_id fila) by done. by rewrite list_insert_id.
Qed.

Lemma forma_np_full {A} f c (v : A) : 0 ≤ f → 0 ≤ c → forma f c (np_full f c v).
Proof.
  intros. unfold np_full. repeat split; try done.
  - by rewrite length_replicate.
  - apply Forall_replicate. by rewrite length_replicate.
Qed.

Lemma leer_np_full {A} f c (v : A) p : enrango f c p → leer (np_full f c v) p = Some v.
Proof.
  intros Hp. pose proof Hp as [Hi Hj].
  destruct (leer_fila f c (np_full f c v) p) as (fila & Hfila & Hlen & ->);
    [apply forma_np_full; lia|done|].
  unfold np_full in Hfila. apply lookup_replicate in Hfila as [-> _].
  apply lookup_replicate. split; [done|lia].
Qed.

Lemma forma_np_fill {A} f c (m : Matriz A) (v : A) : forma f c m → forma f c (np_fill m v).
Proof.
  intros (Hf & Hc & Hl & Hr). unfold np_fill. repeat split; try done.
  - by rewrite length_fmap.
  - apply Forall_fmap. eapply Forall_impl; [done|]. intros x Hx. simpl. by rewrite length_fmap.
Qed.

Lemma leer_np_fill {A} f c (m : Matriz A) (v : A) p :
  forma f c m → enrango f c p → leer (np_fill m v) p = Some v.
Proof.
  intros Hm Hp.
  destruct (leer_fila f c _ p (forma_np_fill f c m v Hm) Hp) as (fila & Hfila & Hlen & ->).
  unfold np_fill in Hfila. rewrite list_lookup_fmap in Hfila.
  destruct (m !! Z.to_nat p.1) as [r|] eqn:E; simplify_eq/=.
  rewrite list_lookup_fmap. rewrite length_fmap in Hlen.
  destruct (lookup_lt_is_Some_2 r (Z.to_nat p.2)) as [x ->]; [destruct Hp; lia|done].
Qed.

(** ** Reglas de la logica de programas *)

Lemma wp_ret {A} (a : A) (Q : A → Estado → Prop) s : Q a s → wp (ret a) Q s.
Proof. done. Qed.

Lemma wp_bind {A B} (c : M A) (k : A → M B) (Q : B → Estado → Prop) s :
  wp c (λ a s', wp (k a) Q s') s → wp (c ≫= k) Q s.
Proof.
  unfold wp, mbind, M_bind, ligar. destruct (c s) as [[a s']| |]; done.
Qed.

Lemma wp_mono {A} (c : M A) (Q Q' : A → Estado → Prop) s :
  wp c Q s → (∀ a s', Q a s' → Q' a s') → wp c Q' s.
Proof. unfold wp. destruct (c s) as [[a s']| |]; auto. Qed.

Lemma wp_elim {A} (c : M A) (Q : A → Estado → Prop) s :
  wp c Q s → ∃ a s', c s = Ok (a, s') ∧ Q a s'.
Proof. unfold wp. destruct (c s) as [[a s']| |]; [eauto|done..]. Qed.

Lemma wp_intro {A} (c : M A) (Q : A → Estado → Prop) s a s' :
  c s = Ok (a, s') → Q a s' → wp c Q s.
Proof. unfold wp. by intros ->. Qed.

Lemma wp_leer_matriz f c p (Q : Z → Estado → Prop) s :
  forma f c (matriz s) → enrango f c p →
  (∀ v, leer (matriz s) p = Some v → Q v s) →
  wp (leer_matriz p) Q s.
Proof.
  intros Hm Hp HQ. destruct (leer_is_Some f c _ p Hm Hp) as [v Hv].
  unfold wp, leer_matriz. rewrite Hv. auto.
Qed.

Lemma wp_escribir_matriz f c p v (Q : unit → Estado → Prop) s :
  forma f c (matriz s) → enrango f c p →
  (∀ m', forma f c m' → leer m' p = Some v →
         (∀ q, enrango f c q → q ≠ p → leer m' q = leer (matriz s) q) →
         Q tt (con_matriz s m')) →
  wp (escribir_matriz p v) Q s.
Proof.
  intros Hm Hp HQ. destruct (escribir_spec f c _ p v Hm Hp) as (m' & He & H1 & H2 & H3).
  unfold wp, escribir_matriz. rewrite He. by apply HQ.
Qed.

Lemma wp_leer_en {A} f c (m : Matriz A) p (Q : A → Estado → Prop) s :
  forma f c m → enrango f c p →
  (∀ v, leer m p = Some v → Q v s) →
  wp (leer_en m p) Q s.
Proof.
  intros Hm Hp HQ. destruct (leer_is_Some f c _ p Hm Hp) as [v Hv].
  unfold leer_en. rewrite Hv. apply wp_ret. auto.
Qed.

Lemma wp_escribir_en {A} f c (m : Matriz A) p v (Q : Matriz A → Estado → Prop) s :
  forma f c m → enrango f c p →
  (∀ m', forma f c m' → leer m' p = Some v →
         (∀ q, enrango f c q → q ≠ p → leer m' q = leer m q) →
         Q m' s) →
  wp (escribir_en m p v) Q s.
Proof.
  intros Hm Hp HQ. destruct (escribir_spec f c _ p v Hm Hp) as (m' & He & H1 & H2 & H3).
  unfold escribir_en. rewrite He. apply wp_ret. by apply HQ.
Qed.

Lemma wp_extraer (Q : Z → Estado → Prop) s :
  Q (azar s O) (con_azar s (λ n, azar s (S n))) → wp extraer Q s.
Proof. done. Qed.

Lemma wp_randbelow n (Q : Z → Estado → Prop) s :
  0 < n → (∀ k g, 0 ≤ k < n → Q k (con_azar s g)) → wp (randbelow n) Q s.
Proof.
  intros Hn HQ. unfold randbelow. apply wp_bind, wp_extraer, wp_ret.
  apply HQ. by apply Z.mod_pos_bound.
Qed.

Lemma con_azar_con_azar s g g' : con_azar (con_azar s g) g' = con_azar s g'.
Proof. done. Qed.

Lemma intercambiar_perm {A} (x : list A) i j : intercambiar x i j ≡ₚ x.
Proof.
  unfold intercambiar.
  destruct (x !! i) as [a|] eqn:Hi; [|done].
  destruct (x !! j) as [b|] eqn:Hj; [|done].
  by apply Permutation_insert_swap.
Qed.

Lemma wp_shuffle_desde {A} i (x : list A) (Q : list A → Estado → Prop) s :
  (∀ x' g, x' ≡ₚ x → Q x' (con_azar s g)) →
  (∀ x', x' ≡ₚ x → Q x' s) →
  wp (shuffle_desde i x) Q s.
Proof.
  revert x s. induction i as [|i IH]; intros x s HQ HQ0.
  - apply wp_ret. by apply HQ0.
  - cbn [shuffle_desde]. apply wp_bind, wp_randbelow; [lia|].
    intros k g Hk. apply IH.
    + intros x' g' Hx'. rewrite con_azar_con_azar. apply HQ.
      by rewrite Hx', intercambiar_perm.
    + intros x' Hx'. apply HQ. by rewrite Hx', intercambiar_perm.
Qed.

Lemma wp_shuffle {A} (x : list A) (Q : list A → Estado → Prop) s :
  (∀ x' g, x' ≡ₚ x → Q x' (con_azar s g)) →
  wp (shuffle x) Q s.
Proof.
  intros HQ. apply wp_shuffle_desde; [done|].
  intros x' Hx'. specialize (HQ x' (azar s) Hx'). by destruct s.
Qed.

Lemma wp_randrange_paso a b paso (Q : Z → Estado → Prop) s :
  0 < paso → a < b →
  (∀ k g, 0 ≤ k → a + paso * k < b → Q (a + paso * k) (con_azar s g)) →
  wp (randrange a b paso) Q s.
Proof.
  intros Hp Hab HQ. unfold randrange. rewrite decide_True by done.
  assert (0 < (b - a + paso - 1) / paso).
  { apply Z.div_str_pos. lia. }
  rewrite decide_False by lia.
  apply wp_bind, wp_randbelow; [done|]. intros k g Hk. apply wp_ret, HQ; [lia|].
  assert (paso * k ≤ paso * ((b - a + paso - 1) / paso - 1)) by nia.
  pose proof (Z.mul_div_le (b - a + paso - 1) paso Hp). lia.
Qed.

Lemma randrange_vacio a b paso s :
  0 < paso → b ≤ a → randrange a b paso s = Lanza ValueError.
Proof.
  intros Hp Hab. unfold randrange. rewrite decide_True by done.
  rewrite decide_True; [done|].
  assert ((b - a + paso - 1) / paso < 1); [|lia].
  apply Z.div_lt_upper_bound; lia.
Qed.

Lemma wp_para {A S} (Inv : list A → S → Estado → Prop) (cuerpo : A → S → M S)
    (l : list A) (x : S) s :
  Inv l x s →
  (∀ a l' x s, Inv (a :: l') x s → wp (cuerpo a x) (λ x' s', Inv l' x' s') s) →
  wp (para l cuerpo x) (λ x' s', Inv [] x' s') s.
Proof.
  intros HI Hpaso. revert x s HI. induction l as [|a l IH]; intros x s HI.
  - by apply wp_ret.
  - cbn [para]. apply wp_bind. eapply wp_mono; [by apply Hpaso|].
    intros x' s' HI'. by apply IH.
Qed.

Lemma wp_o_lanza {A} (o : option A) e (Q : A → Estado → Prop) s a :
  o = Some a → Q a s → wp (o_lanza o e) Q s.
Proof. intros -> HQ. by apply wp_ret. Qed.

(** ** Alcanzabilidad y conexidad *)

Section Grafo.
Variables f c : Z.
Implicit Types (m : list (list Z)) (p q r w u : Z * Z).

Lemma adyacente_sym p q : adyacente p q → adyacente q p.
Proof. unfold adyacente. lia. Qed.

Lemma alcanzable_camino_l m p q : alcanzable f c m p q → camino f c m p.
Proof. by destruct 1. Qed.

Lemma alcanzable_camino_r m p q : alcanzable f c m p q → camino f c m q.
Proof. induction 1; auto. Qed.

Lemma alcanzable_trans m p q r :
  alcanzable f c m p q → alcanzable f c m q r → alcanzable f c m p r.
Proof. induction 1; [done|]. intros. eapply alc_paso; eauto. Qed.

Lemma alcanzable_un_paso m p q :
  camino f c m p → camino f c m q → adyacente p q → alcanzable f c m p q.
Proof. intros. eapply alc_paso; [done..|]. by apply alc_aqui. Qed.

Lemma alcanzable_sym m p q : alcanzable f c m p q → alcanzable f c m q p.
Proof.
  induction 1 as [p Hp|p q r Hp Hpq Hqr IH]; [by apply alc_aqui|].
  eapply alcanzable_trans; [done|].
  apply alcanzable_un_paso; [by eapply alcanzable_camino_l|done|by apply adyacente_sym].
Qed.

Lemma alcanzable_mono m m' p q :
  (∀ r, camino f c m r → camino f c m' r) →
  alcanzable f c m p q → alcanzable f c m' p q.
Proof.
  intros Hsub. induction 1; [apply alc_aqui; auto|]. eapply alc_paso; eauto.
Qed.

Lemma conexo_unico m w : (∀ p, camino f c m p → p = w) → conexo f c m.
Proof.
  intros Hw p q Hp Hq. rewrite (Hw p Hp), (Hw q Hq). apply alc_aqui.
  by rewrite <-(Hw p Hp).
Qed.

(** Anadir una celda vecina de una celda de camino conserva la conexidad. *)
Lemma conexo_agregar m m' w u :
  conexo f c m →
  (∀ p, camino f c m' p ↔ camino f c m p ∨ p = w) →
  camino f c m u → adyacente u w →
  conexo f c m'.
Proof.
  intros Hcon Hm' Hu Huw.
  assert (camino f c m' w) as Hw by (apply Hm'; auto).
  assert (∀ p, camino f c m p → alcanzable f c m' p w) as Hpw.
  { intros p Hp. eapply alcanzable_trans.
    - eapply alcanzable_mono; [|by apply (Hcon p u)]. intros r Hr. apply Hm'. auto.
    - apply alcanzable_un_paso; [apply Hm'; auto|done..]. }
  assert (∀ p, camino f c m' p → alcanzable f c m' p w) as Hall.
  { intros p [Hp| ->]%Hm'; [auto|by apply alc_aqui]. }
  intros p q Hp Hq. eapply alcanzable_trans; [by apply Hall|].
  apply alcanzable_sym. by apply Hall.
Qed.

Lemma camino_escrito m m' w :
  enrango f c w → leer m' w = Some 0 →
  (∀ q, enrango f c q → q ≠ w → leer m' q = leer m q) →
  ∀ p, camino f c m' p ↔ camino f c m p ∨ p = w.
Proof.
  intros Hw Hl Hotros p. unfold camino. split.
  - intros [Hp Hlp]. destruct (decide (p = w)) as [->|Hne]; [auto|].
    left. split; [done|]. by rewrite <-Hotros.
  - intros [[Hp Hlp]| ->]; [|done]. split; [done|].
    destruct (decide (p = w)) as [->|Hne]; [done|]. by rewrite Hotros.
Qed.

(** Escribir [0] donde ya hay camino no cambia las celdas de camino. *)
Lemma camino_reescrito m m' w :
  camino f c m w → leer m' w = Some 0 →
  (∀ q, enrango f c q → q ≠ w → leer m' q = leer m q) →
  ∀ p, camino f c m' p ↔ camino f c m p.
Proof.
  intros Hw Hl Hotros p. rewrite (camino_escrito m m' w); [|by destruct Hw|done..].
  split; [intros [?| ->]; done|auto].
Qed.

Lemma conexo_ext m m' :
  (∀ p, camino f c m' p ↔ camino f c m p) → conexo f c m → conexo f c m'.
Proof.
  intros He Hcon p q Hp Hq. eapply alcanzable_mono; [intros r; apply He|].
  apply Hcon; by apply He.
Qed.

End Grafo.

(** ** Ciclos *)

Section Ciclos.
Variables f c : Z.
Implicit Types (m : list (list Z)) (p q r w u : Z * Z).

(** Anadir una celda con un solo vecino de camino (una hoja) no crea
    ciclos. *)
Lemma sin_ciclos_agregar m m' w :
  sin_ciclos f c m →
  (∀ p, camino f c m' p ↔ camino f c m p ∨ p = w) →
  (∀ a b, camino f c m a → camino f c m b → adyacente w a → adyacente w b → a = b) →
  sin_ciclos f c m'.
Proof.
  intros Hsin Hm' Hhoja l (Hnd & Hlen & Hcic).
  set (n := length l) in *.
  assert (∀ i, (i < n)%nat → ∃ x, l !! i = Some x) as Hex.
  { intros i Hi. by apply lookup_lt_is_Some_2. }
  assert (∀ i x, l !! i = Some x → camino f c m' x) as Hcam.
  { intros i x Hx. destruct (Hex (S i mod n)%nat) as [y Hy]; [apply Nat.mod_upper_bound; lia|].
    by destruct (Hcic i x y Hx Hy). }
  destruct (decide (w ∈ l)) as [Hin|Hnin].
  - apply list_elem_of_lookup in Hin as [k Hk].
    assert (k < n)%nat as Hkn by (by eapply lookup_lt_Some).
    set (ia := (S k mod n)%nat).
    set (ib := (if decide (k = 0)%nat then n - 1 else k - 1)%nat).
    assert (ia < n)%nat as Hia by (apply Nat.mod_upper_bound; lia).
    assert (ib < n)%nat as Hib by (unfold ib; destruct (decide (k = 0)%nat); lia).
    assert (ia = if decide (S k = n) then 0%nat else S k) as Hia'.
    { unfold ia. destruct (decide (S k = n)) as [Hc|Hc].
      - rewrite Hc. apply Nat.Div0.mod_same.
      - apply Nat.mod_small. lia. }
    assert ((S ib mod n)%nat = k) as Hib'.
    { unfold ib. destruct (decide (k = 0)%nat) as [Hc|Hc].
      - replace (S (n - 1)) with n by lia. rewrite Hc. apply Nat.Div0.mod_same.
      - replace (S (k - 1)) with k by lia. apply Nat.mod_small. lia. }
    destruct (Hex ia Hia) as [a Ha]. destruct (Hex ib Hib) as [b Hb].
    destruct (Hcic k w a Hk Ha) as [_ Hwa].
    assert (adyacente b w) as Hbw.
    { eapply (Hcic ib b w); [done|]. by rewrite Hib'. }
    assert (ia ≠ k) as Hiak by (rewrite Hia'; destruct (decide (S k = n)); lia).
    assert (ib ≠ k) as Hibk by (unfold ib; destruct (decide (k = 0)%nat); lia).
    assert (ia ≠ ib) as Hiab.
    { rewrite Hia'. unfold ib.
      destruct (decide (S k = n)); destruct (decide (k = 0)%nat); lia. }
    assert (a ≠ w) as Haw.
    { intros ->. apply Hiak. by eapply NoDup_lookup. }
    assert (b ≠ w) as Hbw'.
    { intros ->. apply Hibk. by eapply NoDup_lookup. }
    assert (a ≠ b) as Hab.
    { intros ->. apply Hiab. by eapply NoDup_lookup. }
    apply Hab, Hhoja; [| |done|].
    + destruct (Hm' a) as [H1 _]. destruct (H1 (Hcam _ _ Ha)); done.
    + destruct (Hm' b) as [H1 _]. destruct (H1 (Hcam _ _ Hb)); done.
    + unfold adyacente in *. lia.
  - apply (Hsin l). split; [done|]. split; [done|].
    intros i x y Hx Hy. destruct (Hcic i x y Hx Hy) as [Hcx Hxy]. split; [|done].
    apply Hm' in Hcx as [?| ->]; [done|].
    exfalso. apply Hnin. by eapply list_elem_of_lookup_2.
Qed.

Lemma sin_ciclos_ext m m' :
  (∀ p, camino f c m' p ↔ camino f c m p) → sin_ciclos f c m → sin_ciclos f c m'.
Proof.
  intros He Hsin l (Hnd & Hlen & Hcic). apply (Hsin l). split; [done|]. split; [done|].
  intros i x y Hx Hy. destruct (Hcic i x y Hx Hy). split; [by apply He|done].
Qed.

Lemma sin_ciclos_unico m w : (∀ p, camino f c m p → p = w) → sin_ciclos f c m.
Proof.
  intros Hw l (Hnd & Hlen & Hcic).
  destruct l as [|x [|y l]]; simpl in Hlen; [lia..|].
  assert ((1 mod length (x :: y :: l))%nat = 1%nat) as H1.
  { apply Nat.mod_small. simpl. lia. }
  assert (x = w).
  { apply Hw. eapply (Hcic 0%nat x y); [done|]. by rewrite H1. }
  assert (y = w).
  { destruct (lookup_lt_is_Some_2 (x :: y :: l) (2 mod length (x :: y :: l))%nat) as [z Hz].
    { apply Nat.mod_upper_bound. simpl. lia. }
    apply Hw. by eapply (Hcic 1%nat y). }
  subst. apply NoDup_cons in Hnd as [Hnin _]. apply Hnin. left.
Qed.

End Ciclos.

(** ** El tallado en profundidad de [_generar] *)

Section Tallado.
Variables f c : Z.
Implicit Types (m : list (list Z)) (p q w n a : Z * Z) (r : Recorrido) (s : Estado).


Lemma dentro_enrango p : dentro f c p → enrango f c p.
Proof. unfold dentro, enrango. lia. Qed.

Lemma elem_of_posiciones p : p ∈ posiciones f c ↔ enrango f c p.
Proof.
  unfold posiciones, enrango. rewrite list_elem_of_cprod, !elem_of_seqZ. lia.
Qed.

Lemma elem_of_celdas_dentro p : p ∈ celdas_dentro f c ↔ dentro f c p.
Proof.
  unfold celdas_dentro. rewrite elem_of_list_to_set, list_elem_of_filter.
  rewrite elem_of_posiciones. split; [tauto|]. intros Hp. split; [done|].
  by apply dentro_enrango.
Qed.

Lemma binaria_escrito m m' w :
  binaria f c m → leer m' w = Some 0 →
  (∀ q, enrango f c q → q ≠ w → leer m' q = leer m q) →
  binaria f c m'.
Proof.
  intros Hb Hw Hotros p Hp. destruct (decide (p = w)) as [->|Hne]; [auto|].
  rewrite Hotros by done. by apply Hb.
Qed.

Lemma vecinos_libres_elem (x y : Z) (dirs : list (Z * Z)) (vis : gset (Z * Z)) v :
  v ∈ vecinos_libres f c x y dirs vis ↔
  ∃ d, d ∈ dirs ∧ dentro f c (x + d.1, y + d.2) ∧ ((x + d.1, y + d.2) ∉ vis) ∧
       v = (x + d.1, y + d.2, d.1 / 2, d.2 / 2).
Proof.
  unfold vecinos_libres. rewrite list_elem_of_omap. split.
  - intros (d & Hd & Hf). exists d. simpl in Hf.
    repeat case_decide; simplify_eq. done.
  - intros (d & Hd & Hden & Hvis & ->). exists d. split; [done|]. simpl.
    rewrite decide_True by done. by rewrite decide_True.
Qed.

Lemma medida_avanza (vis : gset (Z * Z)) n :
  dentro f c n → n ∉ vis →
  (size (celdas_dentro f c ∖ ({[ n ]} ∪ vis)) + 1 = size (celdas_dentro f c ∖ vis))%nat.
Proof.
  intros Hn Hvis.
  assert (celdas_dentro f c ∖ vis = {[ n ]} ∪ celdas_dentro f c ∖ ({[ n ]} ∪ vis)) as ->.
  { apply set_eq. intros p. rewrite elem_of_union, !elem_of_difference, elem_of_union,
      elem_of_singleton, elem_of_celdas_dentro.
    destruct (decide (p = n)) as [->|]; [tauto|]. tauto. }
  rewrite (size_union (C:=gset (Z * Z)) {[ n ]} (celdas_dentro f c ∖ ({[ n ]} ∪ vis)))
    by set_solver.
  rewrite size_singleton. lia.
Qed.

(** El unico vecino de camino f c de la pared que se derriba es la celda actual. *)
Lemma vecino_de_pared r s x y d a :
  inv_dfs f c r s → (x, y) ∈ visitadas r → d ∈ dirs4 →
  (x + d.1, y + d.2) ∉ visitadas r →
  camino f c (matriz s) a → adyacente (x + d.1 / 2, y + d.2 / 2) a →
  a = (x, y).
Proof.
  intros Hinv Hxy Hd Hn Ha Hady.
  destruct (inv_vis_ret _ _ _ _ Hinv _ Hxy) as (_ & Hx & Hy).
  destruct (inv_caminos _ _ _ _ Hinv _ Ha) as [Hav|(a0 & d0 & Ha0 & Hd0 & _ & ->)].
  - destruct (inv_vis_ret _ _ _ _ Hinv _ Hav) as (_ & Ha1 & Ha2).
    destruct a as [a1 a2]. unfold impar, adyacente in *. simpl in *.
    assert ((a1 = x ∧ a2 = y) ∨ (a1 = x + d.1 ∧ a2 = y + d.2)) as [[-> ->]|[-> ->]];
      [|done..].
    casos_dir Hd; simpl in *; zlia.
  - destruct (inv_vis_ret _ _ _ _ Hinv _ Ha0) as (_ & Ha1 & Ha2).
    exfalso. destruct a0 as [a1 a2]. unfold impar, adyacente in *. simpl in *.
    casos_dir Hd; casos_dir Hd0; simpl in *; zlia.
Qed.

(** Una celda de la reticula f c aun no visitada no tiene vecinos de camino f c. *)
Lemma sin_vecinos_nueva r s n a :
  inv_dfs f c r s → impar n.1 → impar n.2 → n ∉ visitadas r →
  camino f c (matriz s) a → adyacente n a → False.
Proof.
  intros Hinv Hn1 Hn2 Hn Ha Hady.
  destruct (inv_caminos _ _ _ _ Hinv _ Ha) as [Hav|(a0 & d0 & Ha0 & Hd0 & Ha0' & ->)].
  - destruct (inv_vis_ret _ _ _ _ Hinv _ Hav) as (_ & Ha1 & Ha2).
    destruct a as [a1 a2], n as [n1 n2]. unfold impar, adyacente in *. simpl in *. zlia.
  - destruct (inv_vis_ret _ _ _ _ Hinv _ Ha0) as (_ & Ha1 & Ha2).
    destruct a0 as [a1 a2], n as [n1 n2]. unfold impar, adyacente in *. simpl in *.
    assert ((n1 = a1 ∧ n2 = a2) ∨ (n1 = a1 + d0.1 ∧ n2 = a2 + d0.2)) as [[-> ->]|[-> ->]];
      [|done..].
    casos_dir Hd0; simpl in *; zlia.
Qed.

Lemma inv_avanza r s s' x y resto d m1 m2 bifs dirs :
  inv_dfs f c r s → pila r = (x, y) :: resto → d ∈ dirs4 →
  dentro f c (x + d.1, y + d.2) → (x + d.1, y + d.2) ∉ visitadas r →
  forma f c m1 → leer m1 (x + d.1 / 2, y + d.2 / 2) = Some 0 →
  (∀ q, enrango f c q → q ≠ (x + d.1 / 2, y + d.2 / 2) → leer m1 q = leer (matriz s) q) →
  forma f c m2 → leer m2 (x + d.1, y + d.2) = Some 0 →
  (∀ q, enrango f c q → q ≠ (x + d.1, y + d.2) → leer m2 q = leer m1 q) →
  Forall (λ b : Z * Z * list (Z * Z * Z * Z),
            Forall (λ v : Z * Z * Z * Z, reticula f c (v.1.1.1, v.1.1.2)) b.2) bifs →
  dirs ≡ₚ dirs4 → matriz s' = m2 →
  inv_dfs f c (mkRecorrido ((x + d.1, y + d.2) :: (x, y) :: resto)
                       ({[ (x + d.1, y + d.2) ]} ∪ visitadas r) bifs dirs) s'.
Proof.
  intros Hinv Hpila Hd Hden Hnv Hf1 Hw1 Ho1 Hf2 Hn2 Ho2 Hbifs Hdirs Hs'.
  destruct s' as [m2' ini fin g]. simpl in Hs'. subst m2'.
  set (n := (x + d.1, y + d.2)) in *. set (w := (x + d.1 / 2, y + d.2 / 2)) in *.
  assert ((x, y) ∈ visitadas r) as Hxy.
  { apply (inv_pila _ _ _ _ Hinv). rewrite Hpila. left. }
  destruct (inv_vis_ret _ _ _ _ Hinv _ Hxy) as (Hxyd & Hx & Hy). simpl in Hx, Hy.
  assert (impar n.1 ∧ impar n.2) as [Hn1 Hn2'].
  { unfold impar in *. subst n. simpl. casos_dir Hd; simpl; zlia. }
  assert (enrango f c w) as Hwr.
  { subst w. unfold dentro, enrango in *. simpl in *.
    casos_dir Hd; simpl in *; zlia. }
  assert (enrango f c n) as Hnr by (by apply dentro_enrango).
  pose proof (camino_escrito f c _ _ _ Hwr Hw1 Ho1) as C1.
  pose proof (camino_escrito f c _ _ _ Hnr Hn2 Ho2) as C2.
  assert (adyacente (x, y) w) as Hady1.
  { subst w. unfold adyacente. simpl. casos_dir Hd; simpl; zlia. }
  assert (adyacente w n) as Hady2.
  { subst w n. unfold adyacente. simpl. casos_dir Hd; simpl; zlia. }
  destruct (inv_arbol _ _ _ _ Hinv) as [Hcon Hsin].
  pose proof (inv_vis_camino _ _ _ _ Hinv _ Hxy) as Hcxy.
  split; simpl.
  - done.
  - eapply binaria_escrito; [|done..]. eapply binaria_escrito; [|done..].
    apply (inv_binaria _ _ _ _ Hinv).
  - intros p [->%elem_of_singleton|Hp]%elem_of_union; [done|].
    by apply (inv_vis_ret _ _ _ _ Hinv).
  - intros p [->|Hp]%elem_of_cons; [set_solver|].
    apply elem_of_union. right. apply (inv_pila _ _ _ _ Hinv). by rewrite Hpila.
  - intros p [[Hp| ->]%C1| ->]%C2.
    + destruct (inv_caminos _ _ _ _ Hinv _ Hp) as [?|(a0 & d0 & ? & ? & ? & ?)];
        [left; set_solver|].
      right. exists a0, d0. set_solver.
    + right. exists (x, y), d. simpl. set_solver.
    + left. set_solver.
  - intros p [->%elem_of_singleton|Hp]%elem_of_union; [apply C2; auto|].
    apply C2. left. apply C1. left. by apply (inv_vis_camino _ _ _ _ Hinv).
  - intros p d' [->%elem_of_singleton|Hp]%elem_of_union Hnp Hd' Hden'.
    { exfalso. apply Hnp. left. }
    apply elem_of_union. right. apply (inv_cerrado _ _ _ _ Hinv); try done.
    intros Hin. apply Hnp. right. by rewrite <-Hpila.
  - split.
    + eapply (conexo_agregar _ _ m1 m2 n w); [|done| |done].
      * eapply (conexo_agregar _ _ (matriz s) m1 w (x, y)); done.
      * apply C1. by right.
    + eapply (sin_ciclos_agregar _ _ m1 m2 n); [|done|].
      * eapply (sin_ciclos_agregar _ _ (matriz s) m1 w); [done..|].
        intros a b Ha Hb Hwa Hwb.
        rewrite (vecino_de_pared r s x y d a), (vecino_de_pared r s x y d b); done.
      * assert (∀ a, camino f c m1 a → adyacente n a → a = w) as Huno.
        { intros a [Ha| ->]%C1 Hna; [|done].
          exfalso. by eapply (sin_vecinos_nueva r s n a). }
        intros a b Ha Hb Hna Hnb. by rewrite (Huno a), (Huno b).
  - exists n. set_solver.
  - done.
  - done.
Qed.

Lemma inv_retrocede r s x y resto dirs g :
  inv_dfs f c r s → pila r = (x, y) :: resto → dirs ≡ₚ dirs4 →
  vecinos_libres f c x y dirs (visitadas r) = [] →
  inv_dfs f c (mkRecorrido resto (visitadas r) (bifurcaciones r) dirs) (con_azar s g).
Proof.
  intros Hinv Hpila Hdirs Hvec.
  destruct Hinv as [Hfo Hbi Hvr Hpi Hca Hvc Hce Har Hnv Hbf Hdi].
  split; simpl; try done.
  - intros p Hp. apply Hpi. rewrite Hpila. by right.
  - intros p d Hp Hnp Hd Hden. destruct (decide (p ∈ pila r)) as [Hin|Hnin]; [|auto].
    rewrite Hpila in Hin. apply elem_of_cons in Hin as [->|?]; [|done]. simpl in *.
    destruct (decide ((x + d.1, y + d.2) ∈ visitadas r)) as [|Hnvis]; [done|].
    assert ((x + d.1, y + d.2, d.1 / 2, d.2 / 2)
              ∈ vecinos_libres f c x y dirs (visitadas r)) as Hin.
    { apply vecinos_libres_elem. exists d. by rewrite Hdirs. }
    rewrite Hvec in Hin. by apply elem_of_nil in Hin.
Qed.

Lemma bucle_dfs_spec comb r s :
  inv_dfs f c r s → (medida f c r < comb)%nat →
  wp (bucle_dfs f c comb r)
     (λ r' s', inv_dfs f c r' s' ∧ pila r' = [] ∧ inicio s' = inicio s ∧ meta s' = meta s) s.
Proof.
  revert r s. induction comb as [|comb IH]; intros r s Hinv Hmed; [lia|].
  cbn [bucle_dfs]. destruct (pila r) as [|[x y] resto] eqn:Hpila.
  { by apply wp_ret. }
  apply wp_bind, wp_shuffle. intros dirs g Hperm.
  assert (dirs ≡ₚ dirs4) as Hdirs by (by rewrite Hperm, (inv_dirs _ _ _ _ Hinv)).
  assert ((x, y) ∈ visitadas r) as Hxy.
  { apply (inv_pila _ _ _ _ Hinv). rewrite Hpila. left. }
  destruct (inv_vis_ret _ _ _ _ Hinv _ Hxy) as (Hxyd & Hx & Hy). simpl in Hx, Hy.
  destruct (vecinos_libres f c x y dirs (visitadas r))
    as [|[[[nx ny] wx] wy] otros] eqn:Hvec.
  - eapply wp_mono.
    + apply IH; [by eapply inv_retrocede|].
      unfold medida in *. simpl. rewrite Hpila in Hmed. simpl in Hmed. lia.
    + simpl. intros r' s' H. exact H.
  - assert (∀ v, v ∈ (nx, ny, wx, wy) :: otros →
                 ∃ d, d ∈ dirs4 ∧ dentro f c (x + d.1, y + d.2) ∧
                      ((x + d.1, y + d.2) ∉ visitadas r) ∧
                      v = (x + d.1, y + d.2, d.1 / 2, d.2 / 2)) as Hvs.
    { intros v Hv. rewrite <-Hvec in Hv. apply vecinos_libres_elem in Hv as (d & ? & ?).
      exists d. by rewrite <-Hdirs. }
    destruct (Hvs (nx, ny, wx, wy)) as (d & Hd & Hden & Hnv & Heq); [left|].
    simplify_eq.
    assert (Forall (λ b : Z * Z * list (Z * Z * Z * Z),
              Forall (λ v : Z * Z * Z * Z, reticula f c (v.1.1.1, v.1.1.2)) b.2)
              (if decide (lt 1 (length ((x + d.1, y + d.2, d.1 / 2, d.2 / 2) :: otros)))
               then bifurcaciones r ++ [(x, y, otros)] else bifurcaciones r)) as Hbifs.
    { case_decide; [|apply (inv_bifs _ _ _ _ Hinv)].
      apply Forall_app. split; [apply (inv_bifs _ _ _ _ Hinv)|].
      apply Forall_singleton. simpl. apply Forall_forall. intros v Hv.
      destruct (Hvs v) as (d' & Hd' & Hden' & _ & ->); [by right|]. simpl.
      split; [done|]. unfold impar in *. simpl. casos_dir Hd'; simpl; zlia. }
    assert (enrango f c (x + d.1 / 2, y + d.2 / 2)) as Hwr.
    { unfold dentro, enrango in *. simpl in *.
      casos_dir Hd; simpl in *; zlia. }
    apply wp_bind.
    eapply (wp_escribir_matriz f c); [apply (inv_forma _ _ _ _ Hinv)|done|].
    intros m1 Hf1 Hw1 Ho1. apply wp_bind.
    eapply (wp_escribir_matriz f c); [done|by apply dentro_enrango|].
    intros m2 Hf2 Hn2 Ho2. simpl in Ho2.
    eapply wp_mono.
    + apply IH.
      * eapply (inv_avanza r (con_azar s g) _ x y resto d m1 m2); try done.
        destruct Hinv; by split.
      * unfold medida in *. simpl. rewrite Hpila in Hmed. simpl in Hmed.
        pose proof (medida_avanza (visitadas r) _ Hden Hnv). lia.
    + simpl. intros r' s' H. exact H.
Qed.

End Tallado.

(** ** Fin del tallado y [_agregar_complejidad] *)

Section FinTallado.
Variables f c : Z.
Implicit Types (m : list (list Z)) (p q w n a : Z * Z) (r : Recorrido) (s : Estado).

Lemma size_list_to_set_le (l : list (Z * Z)) :
  (size (list_to_set l : gset (Z * Z)) ≤ length l)%nat.
Proof.
  induction l as [|x l IH]; [by rewrite list_to_set_nil, size_empty|].
  rewrite list_to_set_cons, size_union_alt, size_singleton. simpl.
  pose proof (subseteq_size (list_to_set l ∖ {[x]}) (list_to_set l : gset (Z * Z))) as H.
  specialize (H ltac:(set_solver)). lia.
Qed.

Lemma size_celdas_dentro :
  0 ≤ f → 0 ≤ c → (size (celdas_dentro f c) ≤ Z.to_nat (f * c))%nat.
Proof.
  intros Hf Hc. unfold celdas_dentro.
  etrans; [apply size_list_to_set_le|]. etrans; [apply length_filter|].
  unfold posiciones. rewrite list_cprod_list_prod, length_prod, !length_seqZ. lia.
Qed.

Lemma visitadas_lineal r s (k : nat) a d :
  inv_dfs f c r s → pila r = [] → a ∈ visitadas r → d ∈ dirs4 →
  dentro f c (a.1 + Z.of_nat k * d.1, a.2 + Z.of_nat k * d.2) →
  (a.1 + Z.of_nat k * d.1, a.2 + Z.of_nat k * d.2) ∈ visitadas r.
Proof.
  intros Hinv Hpila Ha Hd. induction k as [|k IH]; intros Hden.
  - replace (a.1 + Z.of_nat 0 * d.1, a.2 + Z.of_nat 0 * d.2) with a; [done|].
    destruct a; simpl; f_equal; lia.
  - destruct (inv_vis_ret _ _ _ _ Hinv _ Ha) as (Hda & _).
    assert (dentro f c (a.1 + Z.of_nat k * d.1, a.2 + Z.of_nat k * d.2)) as Hk.
    { unfold dentro in *. simpl in *. casos_dir Hd; simpl in *; lia. }
    specialize (IH Hk).
    pose proof (inv_cerrado _ _ _ _ Hinv _ d IH) as Hc. simpl in Hc.
    replace (a.1 + Z.of_nat (S k) * d.1, a.2 + Z.of_nat (S k) * d.2)
      with (a.1 + Z.of_nat k * d.1 + d.1, a.2 + Z.of_nat k * d.2 + d.2)
      by (f_equal; lia).
    apply Hc; [rewrite Hpila; apply not_elem_of_nil|done|].
    replace (a.1 + Z.of_nat k * d.1 + d.1, a.2 + Z.of_nat k * d.2 + d.2)
      with (a.1 + Z.of_nat (S k) * d.1, a.2 + Z.of_nat (S k) * d.2)
      by (f_equal; lia).
    done.
Qed.

(** Al vaciarse la pila se han visitado todas las celdas de la reticula. *)
Lemma visitadas_total r s p :
  inv_dfs f c r s → pila r = [] → reticula f c p → p ∈ visitadas r.
Proof.
  intros Hinv Hpila (Hden & Hp1 & Hp2).
  destruct (inv_no_vacio _ _ _ _ Hinv) as [a Ha].
  destruct (inv_vis_ret _ _ _ _ Hinv _ Ha) as (Hda & Ha1 & Ha2).
  destruct a as [a1 a2], p as [p1 p2]. unfold impar, dentro in *. simpl in *.
  assert ((p1, a2) ∈ visitadas r) as Hmid.
  { destruct (decide (a1 ≤ p1)).
    - pose proof (visitadas_lineal r s (Z.to_nat ((p1 - a1) / 2)) (a1, a2) (2, 0)
                    Hinv Hpila Ha) as H. simpl in H.
      replace (a1 + Z.of_nat (Z.to_nat ((p1 - a1) / 2)) * 2) with p1 in H by zlia.
      replace (a2 + Z.of_nat (Z.to_nat ((p1 - a1) / 2)) * 0) with a2 in H by lia.
      apply H; [set_solver|]. unfold dentro. simpl. lia.
    - pose proof (visitadas_lineal r s (Z.to_nat ((a1 - p1) / 2)) (a1, a2) (-2, 0)
                    Hinv Hpila Ha) as H. simpl in H.
      replace (a1 + Z.of_nat (Z.to_nat ((a1 - p1) / 2)) * -2) with p1 in H by zlia.
      replace (a2 + Z.of_nat (Z.to_nat ((a1 - p1) / 2)) * 0) with a2 in H by lia.
      apply H; [set_solver|]. unfold dentro. simpl. lia. }
  destruct (decide (a2 ≤ p2)).
  - pose proof (visitadas_lineal r s (Z.to_nat ((p2 - a2) / 2)) (p1, a2) (0, 2)
                  Hinv Hpila Hmid) as H. simpl in H.
    replace (a2 + Z.of_nat (Z.to_nat ((p2 - a2) / 2)) * 2) with p2 in H by zlia.
    replace (p1 + Z.of_nat (Z.to_nat ((p2 - a2) / 2)) * 0) with p1 in H by lia.
    apply H; [set_solver|]. unfold dentro. simpl. lia.
  - pose proof (visitadas_lineal r s (Z.to_nat ((a2 - p2) / 2)) (p1, a2) (0, -2)
                  Hinv Hpila Hmid) as H. simpl in H.
    replace (a2 + Z.of_nat (Z.to_nat ((a2 - p2) / 2)) * -2) with p2 in H by zlia.
    replace (p1 + Z.of_nat (Z.to_nat ((a2 - p2) / 2)) * 0) with p1 in H by lia.
    apply H; [set_solver|]. unfold dentro. simpl. lia.
Qed.

Lemma inv_dfs_inv_lab r s :
  inv_dfs f c r s → pila r = [] → inv_lab f c (matriz s).
Proof.
  intros Hinv Hpila. split.
  - apply (inv_forma _ _ _ _ Hinv).
  - apply (inv_binaria _ _ _ _ Hinv).
  - apply (inv_arbol _ _ _ _ Hinv).
  - intros p Hp.
    destruct (inv_caminos _ _ _ _ Hinv _ Hp) as [Hv|(a & d & Ha & Hd & Had & ->)].
    + apply (inv_vis_ret _ _ _ _ Hinv _ Hv).
    + destruct (inv_vis_ret _ _ _ _ Hinv _ Ha) as (Hda & _).
      destruct (inv_vis_ret _ _ _ _ Hinv _ Had) as (Hdad & _).
      unfold dentro in *. simpl in *. casos_dir Hd; simpl in *; zlia.
  - intros p Hp. apply (inv_vis_camino _ _ _ _ Hinv). by eapply visitadas_total.
  - intros Hf4 Hc4 p Hp.
    assert (∀ a, a ∈ visitadas r → a = (1, 1)) as Hv.
    { intros a Ha. destruct (inv_vis_ret _ _ _ _ Hinv _ Ha) as (Hd & H1 & H2).
      unfold dentro, impar in *. destruct a; simpl in *. f_equal; zlia. }
    destruct (inv_caminos _ _ _ _ Hinv _ Hp) as [?|(a & d & Ha & Hd & Had & ->)]; [auto|].
    apply Hv in Ha. apply Hv in Had. subst a. simpl in Had.
    exfalso. casos_dir Hd; simpl in Had; simplify_eq.
Qed.

(** El estado con que empieza el bucle [while pila]. *)
Lemma inv_dfs_inicial s s' o :
  forma f c (matriz s) → (∀ p, enrango f c p → leer (matriz s) p = Some 1) →
  reticula f c o →
  forma f c (matriz s') → leer (matriz s') o = Some 0 →
  (∀ q, enrango f c q → q ≠ o → leer (matriz s') q = leer (matriz s) q) →
  inv_dfs f c (mkRecorrido [o] {[ o ]} [] dirs4) s'.
Proof.
  intros Hf Huno Ho Hf' Hlo Hotros.
  assert (enrango f c o) as Hor by (apply dentro_enrango, Ho).
  pose proof (camino_escrito f c _ _ _ Hor Hlo Hotros) as C.
  assert (∀ p, camino f c (matriz s') p → p = o) as Hsolo.
  { intros p [[Hp Hl]| ->]%C; [|done]. rewrite Huno in Hl by done. done. }
  split; simpl.
  - done.
  - eapply binaria_escrito; [|done..]. intros p Hp. right. by apply Huno.
  - intros p ->%elem_of_singleton. done.
  - intros p ->%list_elem_of_singleton. set_solver.
  - intros p Hp. left. rewrite (Hsolo p Hp). set_solver.
  - intros p ->%elem_of_singleton. apply C. by right.
  - intros p d ->%elem_of_singleton Hnp. exfalso. apply Hnp. left.
  - split; [by eapply conexo_unico|by eapply sin_ciclos_unico].
  - exists o. set_solver.
  - constructor.
  - done.
Qed.

Lemma tallar_spec s :
  3 ≤ f → 3 ≤ c →
  forma f c (matriz s) → (∀ p, enrango f c p → leer (matriz s) p = Some 1) →
  wp (tallar f c)
     (λ r s', inv_dfs f c r s' ∧ pila r = [] ∧ inicio s' = inicio s ∧ meta s' = meta s) s.
Proof.
  intros Hf3 Hc3 Hf Huno. unfold tallar.
  apply wp_bind, wp_randrange_paso; [lia..|]. intros kx g1 Hkx Hkx'.
  apply wp_bind, wp_randrange_paso; [lia..|]. intros ky g2 Hky Hky'.
  assert (reticula f c (1 + 2 * kx, 1 + 2 * ky)) as Ho.
  { unfold reticula, dentro, impar. simpl. repeat split; zlia. }
  apply wp_bind. eapply (wp_escribir_matriz f c); [done|apply dentro_enrango, Ho|].
  intros m' Hf' Hlo Hotros.
  eapply wp_mono.
  - apply bucle_dfs_spec.
    + eapply (inv_dfs_inicial s); done.
    + unfold medida, combustible. simpl.
      pose proof (size_celdas_dentro ltac:(lia) ltac:(lia)) as Hsz.
      pose proof (medida_avanza f c ∅ _ (proj1 Ho) ltac:(set_solver)) as Hav.
      rewrite (difference_empty_L (celdas_dentro f c)) in Hav.
      replace ({[(1 + 2 * kx, 1 + 2 * ky)]} ∪ ∅ : gset (Z * Z))
        with ({[(1 + 2 * kx, 1 + 2 * ky)]} : gset (Z * Z)) in Hav by set_solver.
      lia.
  - simpl. intros r s' H. exact H.
Qed.

Lemma agregar_complejidad_spec (vis : gset (Z * Z)) bifs factor s :
  forma f c (matriz s) →
  (∀ p, reticula f c p → p ∈ vis) →
  Forall (λ b : Z * Z * list (Z * Z * Z * Z),
            Forall (λ v : Z * Z * Z * Z, reticula f c (v.1.1.1, v.1.1.2)) b.2) bifs →
  wp (_agregar_complejidad f c vis bifs factor)
     (λ vis' s', vis' = vis ∧ matriz s' = matriz s ∧
                 inicio s' = inicio s ∧ meta s' = meta s) s.
Proof.
  intros Hf Htot Hbifs. unfold _agregar_complejidad.
  apply wp_bind, wp_shuffle. intros bifs' g Hperm.
  rewrite <-Hperm in Hbifs.
  eapply wp_mono.
  - apply (wp_para (λ (l : list nat) (v : gset (Z * Z)) s',
                      v = vis ∧ matriz s' = matriz s ∧ inicio s' = inicio s ∧
                      meta s' = meta s ∧ ∀ i, i ∈ l → (i < length bifs')%nat)).
    + repeat split; try done. intros i Hi%elem_of_seq. unfold num_a_procesar in Hi. lia.
    + intros i l v s' (-> & Hm & Hi & Hme & Hl).
      destruct (lookup_lt_is_Some_2 bifs' i) as [[[x y] vecinos] Hb]; [apply Hl; left|].
      apply wp_bind. eapply wp_o_lanza; [done|].
      assert (∀ j, j ∈ l → (j < length bifs')%nat) by (intros; apply Hl; by right).
      destruct vecinos as [|[[[nx ny] wx] wy] otros]; [by apply wp_ret|].
      rewrite Forall_forall in Hbifs.
      pose proof (Hbifs _ (list_elem_of_lookup_2 _ _ _ Hb)) as Hv. simpl in Hv.
      apply Forall_cons in Hv as [Hv _]. simpl in Hv.
      rewrite decide_False; [by apply wp_ret|]. intros Hn. apply Hn, Htot, Hv.
  - simpl. intros v s' (-> & ? & ? & ? & _). done.
Qed.

End FinTallado.

(** ** [_crear_ciclos]: el barrido de paredes *)

Section Ciclado.
Variables f c : Z.
Implicit Types (m : list (list Z)) (p q w u : Z * Z) (s : Estado).

Lemma elem_of_rango a b paso i :
  0 < paso → i ∈ rango a b paso → a ≤ i < b ∧ (i - a) mod paso = 0.
Proof.
  intros Hp. unfold rango. intros (k & -> & Hk)%list_elem_of_fmap.
  apply elem_of_seq in Hk as [_ Hk]. simpl in Hk.
  assert (Z.of_nat k < (b - a + paso - 1) / paso) as Hlt by lia.
  pose proof (Z.mul_div_le (b - a + paso - 1) paso Hp).
  split; [nia|]. replace (a + paso * Z.of_nat k - a) with (Z.of_nat k * paso) by lia.
  apply Z.mod_mul. lia.
Qed.

Lemma rango_uno a b i : i ∈ rango a b 1 ↔ a ≤ i < b.
Proof.
  split.
  - intros H%elem_of_rango; lia.
  - intros Hi. unfold rango. apply list_elem_of_fmap. exists (Z.to_nat (i - a)).
    split; [lia|]. apply elem_of_seq. simpl.
    replace (b - a + 1 - 1) with (b - a) by lia. rewrite Z.div_1_r. lia.
Qed.

Lemma wp_random_random (Q : Q → Estado → Prop) s :
  Q (Qmake (azar s O mod 2 ^ 53) (2 ^ 53)%positive) (con_azar s (λ n, azar s (S n))) →
  wp random_random Q s.
Proof. intros HQ. unfold random_random. by apply wp_bind, wp_extraer, wp_ret. Qed.

Lemma wp_escribir_matriz_mismo p v (Q : unit → Estado → Prop) s :
  forma f c (matriz s) → enrango f c p → leer (matriz s) p = Some v →
  Q tt s → wp (escribir_matriz p v) Q s.
Proof.
  intros Hf Hp Hl HQ. unfold wp, escribir_matriz.
  rewrite (escribir_mismo f c _ _ _ Hf Hp Hl). by destruct s.
Qed.

(** Abrir una celda interior vecina de una celda de camino conserva el
    invariante. *)
Lemma inv_lab_abrir m m' w u :
  inv_lab f c m → 5 ≤ f → dentro f c w → camino f c m u → adyacente u w →
  forma f c m' → leer m' w = Some 0 →
  (∀ q, enrango f c q → q ≠ w → leer m' q = leer m q) →
  inv_lab f c m' ∧ ∀ p, camino f c m' p ↔ camino f c m p ∨ p = w.
Proof.
  intros [Hf Hb Hcon Hden Hret Hch] Hf5 Hw Hu Huw Hf' Hl Ho.
  pose proof (camino_escrito f c _ _ _ (dentro_enrango f c _ Hw) Hl Ho) as C.
  split; [|done]. split.
  - done.
  - by eapply binaria_escrito.
  - by eapply conexo_agregar.
  - intros p [Hp| ->]%C; auto.
  - intros p Hp. apply C. auto.
  - lia.
Qed.

Lemma ciclo_en_spec prob i j s :
  inv_lab f c (matriz s) → 2 ≤ i < f - 2 → 2 ≤ j < c - 2 →
  wp (ciclo_en prob i j)
     (λ _ s', inv_lab f c (matriz s') ∧ inicio s' = inicio s ∧ meta s' = meta s ∧
              ∀ p, camino f c (matriz s) p → camino f c (matriz s') p) s.
Proof.
  intros Hinv Hi Hj. pose proof (lab_forma _ _ _ Hinv) as Hf.
  assert (∀ p, i - 1 ≤ p.1 ≤ i + 1 → j - 1 ≤ p.2 ≤ j + 1 → enrango f c p) as Hr.
  { intros p ??. unfold enrango. lia. }
  unfold ciclo_en.
  apply wp_bind. eapply (wp_leer_matriz f c); [done|apply Hr; simpl; lia|].
  intros v Hv.
  case_decide; [|apply wp_ret; split; [done|]; split; [done|]; split; [done|auto]].
  assert (∀ u (Q : unit → Estado → Prop) s0,
            matriz s0 = matriz s → inicio s0 = inicio s → meta s0 = meta s →
            camino f c (matriz s) u → adyacente u (i, j) →
            (∀ s', inv_lab f c (matriz s') → inicio s' = inicio s → meta s' = meta s →
                   (∀ p, camino f c (matriz s) p → camino f c (matriz s') p) → Q tt s') →
            wp (u ← random_random;
                if Qlt_le_dec u prob then escribir_matriz (i, j) 0 else ret tt) Q s0) as Habre.
  { intros u Q s0 Hm0 Hi0 Hme0 Hu Hady HQ.
    apply wp_bind, wp_random_random. destruct (Qlt_le_dec _ prob).
    - eapply (wp_escribir_matriz f c); [simpl; by rewrite Hm0|apply Hr; simpl; lia|].
      simpl. rewrite Hm0. intros m' Hf' Hl Ho.
      destruct (inv_lab_abrir (matriz s) m' (i, j) u) as [Hinv' C]; try done.
      { lia. }
      { unfold dentro. simpl. lia. }
      apply HQ; simpl; try done. intros p Hp. apply C. auto.
    - apply wp_ret, HQ; simpl; rewrite ?Hm0; done. }
  apply wp_bind. eapply (wp_leer_matriz f c); [done|apply Hr; simpl; lia|]. intros a1 Ha1.
  assert (∀ (Q : bool → Estado → Prop) a p1 p2,
            enrango f c p2 →
            (∀ b : bool, (b = true → a = 0 ∧ leer (matriz s) p2 = Some 0) → Q b s) →
            wp (if decide (a = 0)
                then b ← leer_matriz p2; ret (bool_decide (b = 0))
                else ret false) Q s) as Hlado.
  { intros Q a p1 p2 Hp2 HQ. case_decide.
    - apply wp_bind. eapply (wp_leer_matriz f c); [done..|]. intros b Hb.
      apply wp_ret, HQ. intros Hbd%bool_decide_eq_true. by subst.
    - apply wp_ret, HQ. done. }
  apply wp_bind. apply (Hlado _ a1 (i - 1, j) (i + 1, j)); [apply Hr; simpl; lia|].
  intros eh Heh.
  apply wp_bind. eapply (wp_leer_matriz f c); [done|apply Hr; simpl; lia|].
  intros a2 Ha2.
  apply wp_bind. apply (Hlado _ a2 (i, j - 1) (i, j + 1)); [apply Hr; simpl; lia|].
  intros ev Hev.
  destruct eh; simpl.
  - destruct Heh as [-> _]; [done|].
    apply (Habre (i - 1, j)); try done.
    + split; [apply Hr; simpl; lia|done].
    + unfold adyacente. simpl. lia.
  - destruct ev; [|apply wp_ret; split; [done|]; split; [done|]; split; [done|auto]].
    destruct Hev as [-> _]; [done|].
    apply (Habre (i, j - 1)); try done.
    + split; [apply Hr; simpl; lia|done].
    + unfold adyacente. simpl. lia.
Qed.

Lemma bucle_ciclos_spec prob s :
  inv_lab f c (matriz s) →
  wp (bucle_ciclos f c prob)
     (λ _ s', inv_lab f c (matriz s') ∧ inicio s' = inicio s ∧ meta s' = meta s ∧
              ∀ p, camino f c (matriz s) p → camino f c (matriz s') p) s.
Proof.
  intros Hinv. unfold bucle_ciclos.
  set (P := λ s', inv_lab f c (matriz s') ∧ inicio s' = inicio s ∧ meta s' = meta s ∧
                  ∀ p, camino f c (matriz s) p → camino f c (matriz s') p).
  eapply wp_mono.
  - apply (wp_para (λ (l : list Z) (_ : unit) s', P s' ∧ ∀ i, i ∈ l → 2 ≤ i < f - 2)).
    + split; [|intros i Hi%elem_of_rango; lia].
      split; [done|]. split; [done|]. split; [done|auto].
    + intros i l [] s1 [HP Hl].
      eapply wp_mono.
      * apply (wp_para (λ (l2 : list Z) (_ : unit) s', P s' ∧ ∀ j, j ∈ l2 → 2 ≤ j < c - 2)).
        -- split; [done|]. intros j Hj%elem_of_rango; lia.
        -- intros j l2 [] s2 [(Hinv2 & Hi2 & Hm2 & Hmono2) Hl2].
           eapply wp_mono.
           ++ apply ciclo_en_spec; [done|apply Hl; left|apply Hl2; left].
           ++ simpl. intros [] s3 (Hinv3 & Hi3 & Hm3 & Hmono3).
              split; [|intros; apply Hl2; by right].
              unfold P. split; [done|]. split; [congruence|]. split; [congruence|].
              intros p Hp. apply Hmono3, Hmono2, Hp.
      * simpl. intros [] s2 [HP2 _]. split; [done|]. intros; apply Hl; by right.
  - simpl. intros [] s' [HP _]. exact HP.
Qed.

End Ciclado.

(** ** [_establecer_inicio_meta] *)

Section InicioMeta.
Variables f c : Z.
Implicit Types (m : list (list Z)) (p q : Z * Z) (s : Estado) (cs : list (Z * Z)).

Lemma min_por_spec {A} (k : A → Z) (l : list A) r :
  min_por k l = Some r → r ∈ l ∧ ∀ x, x ∈ l → k r ≤ k x.
Proof.
  destruct l as [|a l]; [done|]. simpl. intros [= <-].
  assert (∀ l b, let r := fold_left (λ mejor x, if decide (k x < k mejor) then x else mejor) l b in
                 (r = b ∨ r ∈ l) ∧ k r ≤ k b ∧ ∀ x, x ∈ l → k r ≤ k x) as H.
  { clear. induction l as [|y l IH]; intros b; simpl.
    - split; [auto|]. split; [lia|]. by intros x ?%elem_of_nil.
    - specialize (IH (if decide (k y < k b) then y else b)). simpl in IH.
      destruct IH as (Hin & Hle & Hall). case_decide.
      + split; [destruct Hin as [->|]; [right; left|right; by right]|].
        split; [lia|]. intros x [->|?]%elem_of_cons; auto.
      + split; [destruct Hin as [->|]; [by left|right; by right]|].
        split; [lia|]. intros x [->|?]%elem_of_cons; [lia|auto]. }
  destruct (H l a) as (Hin & Hle & Hall). split.
  - destruct Hin as [->|]; [left|by right].
  - intros x [->|?]%elem_of_cons; auto.
Qed.

Lemma max_por_elem {A} (k : A → Z) (l : list A) r : max_por k l = Some r → r ∈ l.
Proof.
  destruct l as [|a l]; [done|]. simpl. intros [= <-].
  assert (∀ l b, let r := fold_left (λ mejor x, if decide (k mejor < k x) then x else mejor) l b in
                 r = b ∨ r ∈ l) as H.
  { clear. induction l as [|y l IH]; intros b; simpl; [auto|].
    specialize (IH (if decide (k b < k y) then y else b)). simpl in IH.
    destruct IH as [Hin|Hin]; [|right; by right].
    rewrite Hin. case_decide; [right; left|by left]. }
  destruct (H l a) as [->|]; [left|by right].
Qed.

Lemma min_por_is_Some {A} (k : A → Z) (l : list A) x : x ∈ l → is_Some (min_por k l).
Proof. destruct l; [by intros ?%elem_of_nil|]. by eexists. Qed.

Lemma max_por_is_Some {A} (k : A → Z) (l : list A) x : x ∈ l → is_Some (max_por k l).
Proof. destruct l; [by intros ?%elem_of_nil|]. by eexists. Qed.

Lemma elige_no_vacia {A} (l1 l2 : list A) :
  match l1 with [] => l2 | _ :: _ => l1 end = (if decide (l1 = []) then l2 else l1).
Proof. by destruct l1. Qed.

Lemma caminos_inicio_sub cs p : p ∈ caminos_inicio f c cs → p ∈ cs.
Proof.
  unfold caminos_inicio. cbv zeta. rewrite !elige_no_vacia.
  repeat case_decide; try done; by intros [_ ?]%list_elem_of_filter.
Qed.

Lemma caminos_inicio_11 cs :
  (1, 1) ∈ cs → (∀ p, p ∈ cs → dentro f c p) → (1, 1) ∈ caminos_inicio f c cs.
Proof.
  intros H11 Hden. unfold caminos_inicio. cbv zeta. rewrite !elige_no_vacia.
  assert (∀ (P : Z * Z → Prop) `{∀ x, Decision (P x)},
            (∀ p, dentro f c p → P p → P (1, 1)) →
            filter P cs ≠ [] → (1, 1) ∈ filter P cs) as Hfil.
  { intros P ? HP Hne. destruct (filter P cs) as [|p l] eqn:E; [done|]. rewrite <-E.
    assert (p ∈ filter P cs) as [Hp Hin]%list_elem_of_filter by (rewrite E; left).
    apply list_elem_of_filter. split; [|done]. eapply HP; [|done]. by apply Hden. }
  repeat case_decide; try done.
  - apply Hfil; [|done]. intros p Hp ?. unfold dentro in Hp. simpl. lia.
  - apply Hfil; [|done]. intros p Hp ?. unfold dentro in Hp. simpl. lia.
Qed.

Lemma caminos_meta_sub cs ini p :
  0 ≤ f → p ∈ caminos_meta f c cs ini → p ∈ cs ∧ p ≠ ini.
Proof.
  intros Hf. unfold caminos_meta. cbv zeta. rewrite !elige_no_vacia.
  repeat case_decide; try done.
  - intros [? ?]%list_elem_of_filter. done.
  - intros [[? ?] ?]%list_elem_of_filter. done.
  - intros [(_ & _ & Hd) ?]%list_elem_of_filter. split; [done|]. intros ->.
    assert (0 ≤ Z.max f c / 2) by (apply Z.div_pos; lia). lia.
Qed.

Lemma caminos_meta_no_vacia cs ini q :
  q ∈ cs → q ≠ ini → caminos_meta f c cs ini ≠ [].
Proof.
  intros Hq Hne. unfold caminos_meta. cbv zeta. rewrite !elige_no_vacia.
  repeat case_decide; try done.
  intros Hnil. assert (q ∈ filter (λ p, p ≠ ini) cs) as Hin.
  { by apply list_elem_of_filter. }
  rewrite Hnil in Hin. by apply elem_of_nil in Hin.
Qed.

Lemma caminos_meta_cuadrante cs ini q p :
  q ∈ cs → f / 2 ≤ q.1 → c / 2 ≤ q.2 →
  Z.max f c / 2 < Z.abs (q.1 - ini.1) + Z.abs (q.2 - ini.2) →
  p ∈ caminos_meta f c cs ini → f / 2 ≤ p.1 ∧ c / 2 ≤ p.2.
Proof.
  intros Hq H1 H2 H3. unfold caminos_meta. cbv zeta. rewrite !elige_no_vacia.
  set (P := λ p : Z * Z, f / 2 ≤ p.1 ∧ c / 2 ≤ p.2 ∧
                          Z.max f c / 2 < Z.abs (p.1 - ini.1) + Z.abs (p.2 - ini.2)).
  assert (filter P cs ≠ []) as Hne.
  { intros Hnil. assert (q ∈ filter P cs) as Hin by (by apply list_elem_of_filter).
    rewrite Hnil in Hin. by apply elem_of_nil in Hin. }
  rewrite (decide_False (P:=filter P cs = [])) by done.
  rewrite (decide_False (P:=filter P cs = [])) by done.
  intros [(? & ? & _) _]%list_elem_of_filter. done.
Qed.

Lemma celdas_camino_spec s :
  forma f c (matriz s) →
  wp (celdas_camino f c)
     (λ l s', s' = s ∧ ∀ p, p ∈ l ↔ dentro f c p ∧ camino f c (matriz s) p) s.
Proof.
  intros Hf. unfold celdas_camino. eapply wp_mono.
  - apply (wp_para (λ (l : list Z) (acc : list (Z * Z)) s',
        s' = s ∧ ∃ hechas, hechas ++ l = rango 1 (f - 1) 1 ∧
        ∀ p, p ∈ acc ↔ dentro f c p ∧ camino f c (matriz s) p ∧ p.1 ∈ hechas)).
    + split; [done|]. exists []. split; [done|]. intros p.
      split; [by intros ?%elem_of_nil|by intros (_ & _ & ?%elem_of_nil)].
    + intros i l acc s1 (-> & hechas & Hh & Hacc).
      assert (1 ≤ i < f - 1) as Hi.
      { apply rango_uno. rewrite <-Hh. apply elem_of_app. right. left. }
      eapply wp_mono.
      * apply (wp_para (λ (l2 : list Z) (acc2 : list (Z * Z)) s',
          s' = s ∧ ∃ hechas2, hechas2 ++ l2 = rango 1 (c - 1) 1 ∧
          ∀ p, p ∈ acc2 ↔
               p ∈ acc ∨ (p.1 = i ∧ dentro f c p ∧ camino f c (matriz s) p ∧ p.2 ∈ hechas2))).
        -- split; [done|]. exists []. split; [done|]. intros p.
           split; [auto|]. intros [?|(_ & _ & _ & ?%elem_of_nil)]; done.
        -- intros j l2 acc2 s2 (-> & hechas2 & Hh2 & Hacc2).
           assert (1 ≤ j < c - 1) as Hj.
           { apply rango_uno. rewrite <-Hh2. apply elem_of_app. right. left. }
           assert (dentro f c (i, j)) as Hden by (unfold dentro; simpl; lia).
           apply wp_bind. eapply (wp_leer_matriz f c); [done|by apply dentro_enrango|].
           intros v Hv. case_decide as Hv0; apply wp_ret; (split; [done|]);
             exists (hechas2 ++ [j]); (split; [by rewrite <-(assoc_L (++))|]); intros p.
           ++ rewrite elem_of_app, list_elem_of_singleton, Hacc2, elem_of_app,
                list_elem_of_singleton.
              assert (camino f c (matriz s) (i, j)) as Hcam.
              { split; [by apply dentro_enrango|by subst v]. }
              assert (p = (i, j) ↔ p.1 = i ∧ p.2 = j) as ->.
              { destruct p; simpl; split; [by intros [= -> ->]|by intros [-> ->]]. }
              split; [|tauto].
              intros [[?|?]|[Hp1 Hp2]]; [tauto..|]. right.
              replace p with (i, j) by (destruct p; simpl in *; by subst). tauto.
           ++ rewrite Hacc2, elem_of_app, list_elem_of_singleton. split; [tauto|].
              intros [?|(? & ? & Hcam & [?| ?])]; [tauto..|].
              exfalso. destruct Hcam as [_ Hl].
              destruct p; simpl in *; subst. rewrite Hv in Hl. by simplify_eq.
      * simpl. intros acc2 s2 (-> & hechas2 & Hh2 & Hacc2). split; [done|].
        exists (hechas ++ [i]). split; [by rewrite <-(assoc_L (++))|]. intros p.
        rewrite app_nil_r in Hh2. subst hechas2.
        rewrite Hacc2, Hacc, elem_of_app, list_elem_of_singleton, rango_uno. split.
        -- intros [(? & ? & ?)|(? & ? & ? & ?)]; tauto.
        -- intros (Hd & ? & [?| ?]); [tauto|right].
           split; [done|]. split; [done|]. split; [done|]. unfold dentro in Hd. lia.
  - simpl. intros l s' (-> & hechas & Hh & Hacc). split; [done|]. intros p.
    rewrite app_nil_r in Hh. subst hechas. rewrite Hacc, rango_uno.
    split; [tauto|]. intros [Hd ?]. split; [done|]. split; [done|].
    unfold dentro in Hd. lia.
Qed.

Lemma inv_lab_11 m : 3 ≤ f → 3 ≤ c → inv_lab f c m → camino f c m (1, 1).
Proof.
  intros Hf Hc Hinv. apply (lab_reticula _ _ _ Hinv).
  unfold reticula, dentro, impar. simpl. repeat split; try lia; done.
Qed.

Lemma establecer_spec s :
  3 ≤ f → 3 ≤ c → inv_lab f c (matriz s) →
  wp (_establecer_inicio_meta f c)
     (λ _ s', azar s' = azar s ∧ inicio s' = (1, 1) ∧
        ((∃ q, camino f c (matriz s) q ∧ q ≠ (1, 1)) →
           matriz s' = matriz s ∧ camino f c (matriz s) (meta s') ∧ meta s' ≠ (1, 1) ∧
           ∀ q, camino f c (matriz s) q → f / 2 ≤ q.1 → c / 2 ≤ q.2 →
                Z.max f c / 2 < Z.abs (q.1 - 1) + Z.abs (q.2 - 1) →
                f / 2 ≤ (meta s').1 ∧ c / 2 ≤ (meta s').2) ∧
        ((∀ q, camino f c (matriz s) q → q = (1, 1)) →
           meta s' = (f - 2, c - 2) ∧ forma f c (matriz s') ∧
           leer (matriz s') (f - 2, c - 2) = Some 0 ∧
           ∀ q, enrango f c q → q ≠ (f - 2, c - 2) →
                leer (matriz s') q = leer (matriz s) q)) s.
Proof.
  intros Hf3 Hc3 Hinv. pose proof (lab_forma _ _ _ Hinv) as Hf.
  pose proof (inv_lab_11 _ Hf3 Hc3 Hinv) as H11.
  unfold _establecer_inicio_meta. apply wp_bind.
  eapply wp_mono; [by apply celdas_camino_spec|]. simpl.
  intros cs s' [-> Hcs].
  assert ((1, 1) ∈ cs) as H11cs.
  { apply Hcs. split; [|done]. by apply (lab_dentro _ _ _ Hinv). }
  assert (∀ p, p ∈ cs → dentro f c p) as Hcsd by (intros p Hp; by apply Hcs).
  destruct cs as [|c0 cs']; [by apply elem_of_nil in H11cs|].
  set (cs := c0 :: cs') in *.
  destruct (min_por_is_Some (λ p : Z * Z, p.1 + p.2) (caminos_inicio f c cs) (1, 1))
    as [ini Hini]; [by apply caminos_inicio_11|].
  assert (ini = (1, 1)) as ->.
  { apply min_por_spec in Hini as [Hin Hmin].
    specialize (Hmin (1, 1) (caminos_inicio_11 cs H11cs Hcsd)). simpl in Hmin.
    apply caminos_inicio_sub, Hcsd in Hin. unfold dentro in Hin.
    destruct ini; simpl in *. f_equal; lia. }
  apply wp_bind. eapply wp_o_lanza; [done|]. apply wp_bind. unfold wp at 1. simpl.
  destruct (caminos_meta f c cs (1, 1)) as [|c1 cm] eqn:Hcm.
  - assert (∀ q, camino f c (matriz s) q → q = (1, 1)) as Hsolo.
    { intros q Hq. destruct (decide (q = (1, 1))) as [|Hne]; [done|].
      exfalso. eapply (caminos_meta_no_vacia cs (1, 1) q); [|done..].
      apply Hcs. split; [|done]. by apply (lab_dentro _ _ _ Hinv). }
    apply wp_bind. eapply (wp_escribir_matriz f c); [done|unfold enrango; simpl; lia|].
    simpl. intros m' Hf' Hl Ho. unfold wp. simpl.
    split; [done|]. split; [done|]. split.
    + intros (q & Hq & Hne). by apply Hsolo in Hq.
    + done.
  - destruct (max_por_is_Some (λ p : Z * Z, f - p.1 - 1 + (c - p.2 - 1))
                (caminos_meta f c cs (1, 1)) c1) as [fin Hfin].
    { rewrite Hcm. left. }
    rewrite <-Hcm. pose proof (max_por_elem _ _ _ Hfin) as Hfm.
    pose proof Hfm as [Hfcs Hfne]%caminos_meta_sub; [|lia].
    apply Hcs in Hfcs as [Hfd Hfc].
    apply wp_bind. eapply wp_o_lanza; [done|]. apply wp_bind. unfold wp at 1. simpl.
    apply wp_bind. apply (wp_escribir_matriz_mismo f c); [done|by destruct H11|by destruct H11|].
    apply (wp_escribir_matriz_mismo f c); [done|by destruct Hfc|by destruct Hfc|]. simpl.
    split; [done|]. split; [done|]. split.
    + intros _. split; [done|]. split; [done|]. split; [done|].
      intros q Hq H1 H2 H3. eapply (caminos_meta_cuadrante cs (1, 1) q); try done.
      apply Hcs. split; [|done]. by apply (lab_dentro _ _ _ Hinv).
    + intros Hsolo. by apply Hsolo in Hfc.
Qed.

End InicioMeta.

(** ** La busqueda [dfs] de [_garantizar_solucion] *)

Section Busqueda.
Variables f c : Z.
Implicit Types (m : list (list Z)) (v : list (list bool)) (p q n : Z * Z) (s : Estado).

Lemma wp_leer_meta (Q : Z * Z → Estado → Prop) s : Q (meta s) s → wp leer_meta Q s.
Proof. done. Qed.

Lemma wp_leer_inicio (Q : Z * Z → Estado → Prop) s : Q (inicio s) s → wp leer_inicio Q s.
Proof. done. Qed.

Lemma estable_refl s : estable s s.
Proof. done. Qed.

Lemma estable_trans s1 s2 s3 : estable s1 s2 → estable s2 s3 → estable s1 s3.
Proof. unfold estable. intros (-> & -> & ->) (-> & -> & ->). done. Qed.

Lemma estable_con_azar s g : estable s (con_azar s g).
Proof. done. Qed.

Lemma elem_of_libres v q : q ∈ libres f c v ↔ enrango f c q ∧ ¬ marcada f c v q.
Proof.
  unfold libres. rewrite elem_of_list_to_set, list_elem_of_filter, elem_of_posiciones. tauto.
Qed.

Lemma size_libres v : 0 ≤ f → 0 ≤ c → (size (libres f c v) ≤ Z.to_nat (f * c))%nat.
Proof.
  intros Hf Hc. unfold libres.
  etrans; [apply size_list_to_set_le|]. etrans; [apply length_filter|].
  unfold posiciones. rewrite list_cprod_list_prod, length_prod, !length_seqZ. lia.
Qed.

Lemma libres_mono v v' :
  (∀ q, marcada f c v q → marcada f c v' q) →
  (size (libres f c v') ≤ size (libres f c v))%nat.
Proof.
  intros Hsub. apply subseteq_size. intros q. rewrite !elem_of_libres. naive_solver.
Qed.

Lemma libres_marcar v v' p :
  enrango f c p → ¬ marcada f c v p → leer v' p = Some true →
  (∀ q, enrango f c q → q ≠ p → leer v' q = leer v q) →
  (size (libres f c v') + 1 = size (libres f c v))%nat.
Proof.
  intros Hp Hnm Hl Ho.
  assert (libres f c v = {[ p ]} ∪ libres f c v') as ->.
  { apply set_eq. intros q. rewrite elem_of_union, elem_of_singleton, !elem_of_libres.
    unfold marcada. destruct (decide (q = p)) as [->|Hne].
    - split; [auto|]. intros _. done.
    - split.
      + intros [Hq Hnq]. right. split; [done|]. rewrite Ho by done. done.
      + intros [->|[Hq Hnq]]; [done|]. split; [done|]. rewrite <-Ho by done. done. }
  rewrite (size_union (C:=gset (Z * Z)) {[ p ]} (libres f c v')).
  - rewrite size_singleton. lia.
  - apply disjoint_singleton_l. rewrite elem_of_libres. unfold marcada. tauto.
Qed.

Lemma recorrer_spec
    (llamar : list (list bool) → Z * Z → M (bool * list (list bool))) (N : nat) s0 v p :
  (∀ v1 n s1, estable s0 s1 → forma f c v1 → camino f c (matriz s0) n →
              ¬ marcada f c v1 n → ¬ marcada f c v1 (meta s0) →
              (size (libres f c v1) < N)%nat →
              wp (llamar v1 n)
                 (λ r s2, estable s0 s2 ∧ post_dfs f c (matriz s0) (meta s0) v1 n r) s1) →
  forma f c (matriz s0) → camino f c (matriz s0) p →
  ∀ ds hechas vc s1,
    (∀ d, d ∈ ds → Z.abs d.1 + Z.abs d.2 = 1) →
    estable s0 s1 → forma f c vc → (size (libres f c vc) < N)%nat →
    ¬ marcada f c vc (meta s0) → marcada f c vc p →
    (∀ q, marcada f c v q → marcada f c vc q) →
    (∀ q, marcada f c vc q → ¬ marcada f c v q → q ≠ p →
          ∀ n, adyacente q n → camino f c (matriz s0) n → marcada f c vc n) →
    (∀ d n, d ∈ hechas → n = (p.1 + d.1, p.2 + d.2) →
            camino f c (matriz s0) n → marcada f c vc n) →
    wp (recorrer f c llamar p ds vc)
       (λ r s2, estable s0 s2 ∧ forma f c r.2 ∧
                (∀ q, marcada f c v q → marcada f c r.2 q) ∧
                ¬ marcada f c r.2 (meta s0) ∧
                if r.1 then alcanzable f c (matriz s0) p (meta s0)
                else marcada f c r.2 p ∧
                     (∀ q, marcada f c r.2 q → ¬ marcada f c v q → q ≠ p →
                           ∀ n, adyacente q n → camino f c (matriz s0) n →
                                marcada f c r.2 n) ∧
                     (∀ d n, d ∈ hechas ++ ds → n = (p.1 + d.1, p.2 + d.2) →
                             camino f c (matriz s0) n → marcada f c r.2 n)) s1.
Proof.
  intros Hll Hfm Hp ds. induction ds as [|d ds IH];
    intros hechas vc s1 Hunit Hest Hfv Hsz Hnfin Hmp Hgrow Hcerr Hhechas.
  { apply wp_ret. simpl. rewrite app_nil_r. done. }
  cbn [recorrer]. set (n := (p.1 + d.1, p.2 + d.2)).
  assert (∀ vc' s1', estable s0 s1' → forma f c vc' → (size (libres f c vc') < N)%nat →
            ¬ marcada f c vc' (meta s0) →
            (∀ q, marcada f c vc q → marcada f c vc' q) →
            (∀ q, marcada f c vc' q → ¬ marcada f c v q → q ≠ p →
                  ∀ n, adyacente q n → camino f c (matriz s0) n → marcada f c vc' n) →
            (camino f c (matriz s0) n → marcada f c vc' n) →
            wp (recorrer f c llamar p ds vc')
               (λ r s2, estable s0 s2 ∧ forma f c r.2 ∧
                (∀ q, marcada f c v q → marcada f c r.2 q) ∧
                ¬ marcada f c r.2 (meta s0) ∧
                if r.1 then alcanzable f c (matriz s0) p (meta s0)
                else marcada f c r.2 p ∧
                     (∀ q, marcada f c r.2 q → ¬ marcada f c v q → q ≠ p →
                           ∀ n, adyacente q n → camino f c (matriz s0) n →
                                marcada f c r.2 n) ∧
                     (∀ d' n, d' ∈ hechas ++ d :: ds → n = (p.1 + d'.1, p.2 + d'.2) →
                             camino f c (matriz s0) n → marcada f c r.2 n)) s1') as Hsig.
  { intros vc' s1' Hest' Hfv' Hsz' Hnfin' Hgrow' Hcerr' Hn.
    eapply wp_mono.
    - apply (IH (hechas ++ [d])); try done.
      + intros d' Hd'. apply Hunit. by right.
      + auto.
      + auto.
      + intros d' n' [Hd'| ->%list_elem_of_singleton]%elem_of_app -> Hc'.
        * apply Hgrow'. by eapply Hhechas.
        * by apply Hn.
    - simpl. intros r s2 H. by rewrite <-(assoc_L (++)) in H. }
  destruct Hest as (Hm1 & Hi1 & Hme1).
  case_decide as Hr.
  - apply wp_bind. eapply (wp_leer_matriz f c); [by rewrite Hm1|done|].
    rewrite Hm1. intros val Hval. case_decide as Hv0.
    + subst val. assert (camino f c (matriz s0) n) as Hcn by done.
      apply wp_bind. eapply (wp_leer_en f c); [done..|]. intros b Hb.
      destruct b.
      * apply Hsig; done.
      * assert (¬ marcada f c vc n) as Hnm.
        { intros [_ Hmn]. rewrite Hb in Hmn. done. }
        apply wp_bind. eapply wp_mono; [by apply Hll|]. simpl.
        intros [h v2] s2 [Hest2 (Hf2 & Hgrow2 & Hnfin2 & Hres)]. simpl in *.
        destruct h.
        -- apply wp_ret. simpl. split; [done|]. split; [done|]. split; [auto|].
           split; [done|]. eapply alc_paso; [done| |done].
           unfold adyacente. subst n. simpl.
           specialize (Hunit d ltac:(left)). lia.
        -- destruct Hres as [Hmn Hcerr2].
           apply Hsig; try done.
           ++ pose proof (libres_mono vc v2 Hgrow2). lia.
           ++ intros q Hq Hnq Hne.
              destruct (decide (marcada f c vc q)) as [Hqc|Hqc].
              ** intros n' ??. apply Hgrow2. by eapply Hcerr.
              ** by apply Hcerr2.
    + apply Hsig; try done. intros [_ Hcn]. rewrite Hval in Hcn. by simplify_eq.
  - apply Hsig; try done. intros [Hcn _]. done.
Qed.

Lemma dfs_spec comb v p s :
  forma f c (matriz s) → forma f c v → camino f c (matriz s) p →
  ¬ marcada f c v p → ¬ marcada f c v (meta s) →
  (size (libres f c v) < comb)%nat →
  wp (dfs f c comb v p)
     (λ r s', estable s s' ∧ post_dfs f c (matriz s) (meta s) v p r) s.
Proof.
  revert v p s. induction comb as [|comb IH]; intros v p s Hfm Hfv Hp Hnp Hnfin Hsz; [lia|].
  cbn [dfs]. apply wp_bind, wp_leer_meta. case_decide as Hpf.
  { apply wp_ret. split; [done|]. unfold post_dfs. simpl. subst p.
    split; [done|]. split; [done|]. split; [done|]. by apply alc_aqui. }
  pose proof Hp as [Hpr _].
  apply wp_bind. eapply (wp_escribir_en f c); [done..|]. intros v1 Hf1 Hl1 Ho1.
  assert (∀ q, marcada f c v q → marcada f c v1 q) as Hgrow1.
  { intros q [Hq Hmq]. split; [done|]. destruct (decide (q = p)) as [->|]; [done|].
    by rewrite Ho1. }
  assert (∀ q, marcada f c v1 q → ¬ marcada f c v q → q = p) as Hnuevas.
  { intros q [Hq Hmq] Hnq. destruct (decide (q = p)) as [|Hne]; [done|].
    exfalso. apply Hnq. split; [done|]. by rewrite <-Ho1. }
  apply wp_bind, wp_shuffle. intros dirs g Hperm.
  eapply wp_mono.
  - apply (recorrer_spec (dfs f c comb) comb s v p) with (hechas := []); try done.
    + intros v1' n s1 Hest1 Hfv1 Hcn Hnn Hnf1 Hsz1.
      destruct Hest1 as (Hm1 & Hi1 & Hme1).
      eapply wp_mono.
      * apply IH; try done; by rewrite ?Hm1, ?Hme1.
      * simpl. intros r s2 [Hest2 Hpost]. rewrite Hm1, Hme1 in Hpost. split; [|done].
        eapply estable_trans; [|done]. done.
    + intros d Hd. rewrite Hperm in Hd. casos_dir Hd; simpl; lia.
    + pose proof (libres_marcar v v1 p Hpr Hnp Hl1 Ho1). lia.
    + intros Hm. apply Hnuevas in Hm; done.
    + intros q Hq Hnq Hne. by apply Hnuevas in Hq.
    + intros d n Hd. by apply elem_of_nil in Hd.
  - simpl. intros [h v'] s' (Hest & Hf' & Hgrow & Hnf & Hres). simpl in *.
    split; [done|]. unfold post_dfs. simpl. split; [done|].
    split; [auto|]. split; [done|].
    destruct h; [done|]. destruct Hres as (Hmp & Hcerr & Hdirs). split; [done|].
    intros q Hq Hnq n Hady Hcn. destruct (decide (q = p)) as [->|Hne].
    + apply (Hdirs (n.1 - p.1, n.2 - p.2)); [|destruct n; simpl; f_equal; lia|done].
      rewrite Hperm. unfold adyacente in Hady.
      assert ((n.1 - p.1, n.2 - p.2) = (-1, 0) ∨ (n.1 - p.1, n.2 - p.2) = (0, 1) ∨
              (n.1 - p.1, n.2 - p.2) = (1, 0) ∨ (n.1 - p.1, n.2 - p.2) = (0, -1))
        as [->|[->|[->| ->]]]; [|set_solver..].
      assert ((n.1 - p.1 = -1 ∧ n.2 - p.2 = 0) ∨ (n.1 - p.1 = 0 ∧ n.2 - p.2 = 1) ∨
              (n.1 - p.1 = 1 ∧ n.2 - p.2 = 0) ∨ (n.1 - p.1 = 0 ∧ n.2 - p.2 = -1))
        as [[-> ->]|[[-> ->]|[[-> ->]|[-> ->]]]] by lia; auto.
    + by eapply Hcerr.
Qed.

End Busqueda.

(** ** [_crear_camino] y [_garantizar_solucion] *)

Section Reparacion.
Variables f c : Z.
Implicit Types (m : list (list Z)) (p q : Z * Z) (s : Estado).

Lemma linea_alcanzable m dx dy (k : nat) p q :
  Z.abs dx + Z.abs dy = 1 →
  q = (p.1 + Z.of_nat k * dx, p.2 + Z.of_nat k * dy) →
  (∀ j : nat, (j ≤ k)%nat → camino f c m (p.1 + Z.of_nat j * dx, p.2 + Z.of_nat j * dy)) →
  alcanzable f c m p q.
Proof.
  intros Hd. revert q. induction k as [|k IH]; intros q -> Hcam.
  - specialize (Hcam 0%nat ltac:(lia)).
    replace (p.1 + Z.of_nat 0 * dx, p.2 + Z.of_nat 0 * dy) with p in *
      by (destruct p; simpl; f_equal; lia).
    by apply alc_aqui.
  - eapply alcanzable_trans.
    + apply (IH _ eq_refl). intros j Hj. apply Hcam. lia.
    + apply alcanzable_un_paso; [apply Hcam; lia..|].
      unfold adyacente. simpl. lia.
Qed.

Lemma fila_alcanzable m x y y' :
  (∀ j, entre y y' j → camino f c m (x, j)) → alcanzable f c m (x, y) (x, y').
Proof.
  intros Hcam. unfold entre in Hcam. destruct (decide (y ≤ y')).
  - apply (linea_alcanzable m 0 1 (Z.to_nat (y' - y))); [lia|simpl; f_equal; lia|].
    intros j Hj. simpl. replace (x + Z.of_nat j * 0) with x by lia. apply Hcam. lia.
  - apply (linea_alcanzable m 0 (-1) (Z.to_nat (y - y'))); [lia|simpl; f_equal; lia|].
    intros j Hj. simpl. replace (x + Z.of_nat j * 0) with x by lia. apply Hcam. lia.
Qed.

Lemma columna_alcanzable m y x x' :
  (∀ i, entre x x' i → camino f c m (i, y)) → alcanzable f c m (x, y) (x', y).
Proof.
  intros Hcam. unfold entre in Hcam. destruct (decide (x ≤ x')).
  - apply (linea_alcanzable m 1 0 (Z.to_nat (x' - x))); [lia|simpl; f_equal; lia|].
    intros j Hj. simpl. replace (y + Z.of_nat j * 0) with y by lia. apply Hcam. lia.
  - apply (linea_alcanzable m (-1) 0 (Z.to_nat (x - x'))); [lia|simpl; f_equal; lia|].
    intros j Hj. simpl. replace (y + Z.of_nat j * 0) with y by lia. apply Hcam. lia.
Qed.

Lemma par_igual p x y : p = (x, y) ↔ p.1 = x ∧ p.2 = y.
Proof. destruct p; simpl. split; [by intros [= -> ->]|by intros [-> ->]]. Qed.

Lemma camino_horizontal_spec comb x y my s :
  forma f c (matriz s) → binaria f c (matriz s) →
  0 ≤ x < f → 0 ≤ y < c → 0 ≤ my < c →
  (Z.to_nat (Z.abs (my - y)) < comb)%nat →
  wp (camino_horizontal comb x y my)
     (λ y' s', y' = my ∧ inicio s' = inicio s ∧ meta s' = meta s ∧
               forma f c (matriz s') ∧ binaria f c (matriz s') ∧
               ∀ p, camino f c (matriz s') p ↔
                    camino f c (matriz s) p ∨ (p.1 = x ∧ entre y my p.2 ∧ p.2 ≠ y)) s.
Proof.
  revert y s. induction comb as [|comb IH]; intros y s Hf Hb Hx Hy Hmy Hcomb; [lia|].
  cbn [camino_horizontal]. case_decide as Hne.
  - set (y1 := y + (if decide (y < my) then 1 else -1)).
    assert (0 ≤ y1 < c ∧ Z.abs (my - y1) = Z.abs (my - y) - 1 ∧
            (∀ j, (j = y1 ∨ (entre y1 my j ∧ j ≠ y1)) ↔ (entre y my j ∧ j ≠ y)))
      as (Hy1 & Habs & Hentre).
    { subst y1. unfold entre. case_decide; repeat split; lia. }
    apply wp_bind. eapply (wp_escribir_matriz f c); [done|unfold enrango; simpl; lia|].
    intros m1 Hf1 Hl1 Ho1.
    assert (enrango f c (x, y1)) as Hr1 by (unfold enrango; simpl; lia).
    pose proof (camino_escrito f c _ _ _ Hr1 Hl1 Ho1) as C1.
    eapply wp_mono.
    + apply (IH y1 (con_matriz s m1)); simpl; try done; [by eapply binaria_escrito|lia].
    + simpl. intros y' s' (-> & Hi & Hm & Hf' & Hb' & C). repeat (split; [done|]).
      intros p. rewrite C, C1, par_igual. specialize (Hentre p.2). tauto.
  - apply wp_ret. repeat (split; [done|]). intros p. unfold entre. split; [auto|].
    intros [?|?]; [done|lia].
Qed.

Lemma camino_vertical_spec comb x y mx s :
  forma f c (matriz s) → binaria f c (matriz s) →
  0 ≤ x < f → 0 ≤ y < c → 0 ≤ mx < f →
  (Z.to_nat (Z.abs (mx - x)) < comb)%nat →
  wp (camino_vertical comb x y mx)
     (λ x' s', x' = mx ∧ inicio s' = inicio s ∧ meta s' = meta s ∧
               forma f c (matriz s') ∧ binaria f c (matriz s') ∧
               ∀ p, camino f c (matriz s') p ↔
                    camino f c (matriz s) p ∨ (p.2 = y ∧ entre x mx p.1 ∧ p.1 ≠ x)) s.
Proof.
  revert x s. induction comb as [|comb IH]; intros x s Hf Hb Hx Hy Hmx Hcomb; [lia|].
  cbn [camino_vertical]. case_decide as Hne.
  - set (x1 := x + (if decide (x < mx) then 1 else -1)).
    assert (0 ≤ x1 < f ∧ Z.abs (mx - x1) = Z.abs (mx - x) - 1 ∧
            (∀ j, (j = x1 ∨ (entre x1 mx j ∧ j ≠ x1)) ↔ (entre x mx j ∧ j ≠ x)))
      as (Hx1 & Habs & Hentre).
    { subst x1. unfold entre. case_decide; repeat split; lia. }
    apply wp_bind. eapply (wp_escribir_matriz f c); [done|unfold enrango; simpl; lia|].
    intros m1 Hf1 Hl1 Ho1.
    assert (enrango f c (x1, y)) as Hr1 by (unfold enrango; simpl; lia).
    pose proof (camino_escrito f c _ _ _ Hr1 Hl1 Ho1) as C1.
    eapply wp_mono.
    + apply (IH x1 (con_matriz s m1)); simpl; try done; [by eapply binaria_escrito|lia].
    + simpl. intros x' s' (-> & Hi & Hm & Hf' & Hb' & C). repeat (split; [done|]).
      intros p. rewrite C, C1, par_igual. specialize (Hentre p.1). tauto.
  - apply wp_ret. repeat (split; [done|]). intros p. unfold entre. split; [auto|].
    intros [?|?]; [done|lia].
Qed.

Lemma crear_camino_spec s :
  forma f c (matriz s) → binaria f c (matriz s) →
  camino f c (matriz s) (inicio s) → enrango f c (meta s) →
  wp (_crear_camino f c)
     (λ _ s', inicio s' = inicio s ∧ meta s' = meta s ∧
              forma f c (matriz s') ∧ binaria f c (matriz s') ∧
              ∀ p, camino f c (matriz s') p ↔
                   camino f c (matriz s) p ∨
                   (p.1 = (inicio s).1 ∧ entre (inicio s).2 (meta s).2 p.2) ∨
                   (p.2 = (meta s).2 ∧ entre (inicio s).1 (meta s).1 p.1)) s.
Proof.
  intros Hf Hb Hini Hmeta. unfold _crear_camino.
  apply wp_bind, wp_leer_inicio. destruct (inicio s) as [ix iy] eqn:Ei.
  apply wp_bind, wp_leer_meta. destruct (meta s) as [mx my] eqn:Em.
  destruct Hini as [[Hix Hiy] Hli]. destruct Hmeta as [Hmx Hmy].
  simpl in Hix, Hiy, Hmx, Hmy.
  assert (Z.to_nat (Z.abs (my - iy)) < combustible f c ∧
          Z.to_nat (Z.abs (mx - ix)) < combustible f c)%nat as [Hc1 Hc2].
  { unfold combustible. split; nia. }
  apply wp_bind. eapply wp_mono; [by apply camino_horizontal_spec|]. cbv beta.
  intros y' s1 (-> & Hi1 & Hm1 & Hf1 & Hb1 & C1).
  apply wp_bind. eapply wp_mono; [by apply camino_vertical_spec|]. cbv beta.
  intros x' s2 (-> & Hi2 & Hm2 & Hf2 & Hb2 & C2).
  apply wp_ret. split; [congruence|]. split; [congruence|]. split; [done|]. split; [done|].
  intros p. rewrite C2, C1. simpl. unfold entre, camino, enrango.
  destruct (decide (p = (ix, iy))) as [->|Hne]; simpl.
  - split; [|intros _; left; left]; [lia|]. split; [lia|done].
  - assert (p.1 ≠ ix ∨ p.2 ≠ iy) by (destruct p; simpl in *; destruct (decide (z = ix));
                                      [right; congruence|left; done]).
    split.
    + intros [[?|?]|?]; [tauto|right; left; lia|].
      destruct (decide (p.1 = ix)); [right; left; lia|right; right; lia].
    + intros [?|[?|?]]; [tauto|left; right; lia|].
      destruct (decide (p.1 = ix)); [left; right; lia|right; lia].
Qed.

Lemma conexo_desde m a :
  (∀ p, camino f c m p → alcanzable f c m a p) → conexo f c m.
Proof.
  intros H p q Hp Hq. eapply alcanzable_trans; [|by apply H].
  apply alcanzable_sym. by apply H.
Qed.

Lemma cerrada_alcanzable m (v : list (list bool)) a b :
  (∀ q, marcada f c v q → ∀ n, adyacente q n → camino f c m n → marcada f c v n) →
  alcanzable f c m a b → marcada f c v a → marcada f c v b.
Proof.
  intros Hc. induction 1 as [p Hp|p q r Hp Hpq Hqr IH]; [done|].
  intros Hm. apply IH. eapply Hc; [done..|]. by eapply alcanzable_camino_l.
Qed.

Lemma garantizar_spec s :
  forma f c (matriz s) → binaria f c (matriz s) →
  camino f c (matriz s) (inicio s) → camino f c (matriz s) (meta s) →
  wp (_garantizar_solucion f c)
     (λ _ s', inicio s' = inicio s ∧ meta s' = meta s ∧
              forma f c (matriz s') ∧ binaria f c (matriz s') ∧
              alcanzable f c (matriz s') (inicio s) (meta s) ∧
              (alcanzable f c (matriz s) (inicio s) (meta s) → matriz s' = matriz s) ∧
              (∀ p, camino f c (matriz s) p → camino f c (matriz s') p) ∧
              (∀ p, camino f c (matriz s') p →
                    camino f c (matriz s) p ∨
                    (entre (inicio s).1 (meta s).1 p.1 ∧ entre (inicio s).2 (meta s).2 p.2)) ∧
              ((∀ p, camino f c (matriz s) p →
                     alcanzable f c (matriz s) (inicio s) p ∨
                     alcanzable f c (matriz s) (meta s) p) →
               conexo f c (matriz s'))) s.
Proof.
  intros Hf Hb Hini Hmeta. unfold _garantizar_solucion. cbv zeta.
  pose proof Hf as (Hf0 & Hc0 & _).
  assert (∀ q, ¬ marcada f c (np_full f c false) q) as Hnm.
  { intros q [Hq Hl]. rewrite (leer_np_full f c) in Hl by done. done. }
  apply wp_bind, wp_leer_inicio. apply wp_bind. eapply wp_mono.
  { apply (dfs_spec f c); try done.
    - by apply forma_np_full.
    - pose proof (size_libres f c (np_full f c false) Hf0 Hc0). unfold combustible.
      replace (2 * f * c) with (2 * (f * c)) by lia.
      pose proof (Z.mul_nonneg_nonneg f c Hf0 Hc0). lia. }
  cbv beta. intros [h v'] s1 [(Hm1 & Hi1 & Hme1) (Hf' & Hgrow & Hnf & Hres)].
  simpl in Hf', Hgrow, Hnf, Hres. destruct h.
  - apply wp_ret. rewrite Hm1. repeat (split; [by auto|]).
    intros Hcomp. apply (conexo_desde _ (inicio s)). intros p Hp.
    destruct (Hcomp p Hp) as [?|?]; [done|]. by eapply alcanzable_trans.
  - destruct Hres as [Hmi Hcerr].
    assert (¬ alcanzable f c (matriz s) (inicio s) (meta s)) as Hno.
    { intros Halc. apply Hnf. eapply cerrada_alcanzable; [|done..].
      intros q Hq. by apply Hcerr. }
    eapply wp_mono.
    { apply crear_camino_spec; rewrite ?Hm1, ?Hi1, ?Hme1; try done. by destruct Hmeta. }
    cbv beta. rewrite Hm1, Hi1, Hme1. intros [] s2 (Hi2 & Hm2 & Hf2 & Hb2 & C).
    destruct (inicio s) as [ix iy] eqn:Ei. destruct (meta s) as [mx my] eqn:Em.
    simpl in C.
    assert (∀ j, entre iy my j → alcanzable f c (matriz s2) (ix, iy) (ix, j)) as Hfila.
    { intros j Hj. apply fila_alcanzable. intros j' Hj'. apply C. right. left. simpl.
      unfold entre in *. lia. }
    assert (∀ i, entre ix mx i → alcanzable f c (matriz s2) (ix, iy) (i, my)) as Hcol.
    { intros i Hi. eapply alcanzable_trans; [apply (Hfila my); unfold entre; lia|].
      apply columna_alcanzable. intros i' Hi'. apply C. right. right. simpl.
      unfold entre in *. lia. }
    assert (alcanzable f c (matriz s2) (ix, iy) (mx, my)) as Halc.
    { apply Hcol. unfold entre. lia. }
    repeat (split; [done|]).
    split; [intros p Hp; apply C; by left|]. split.
    + intros p [?|[[? ?]|[? ?]]]%C; [by left|right; simpl..].
      * unfold entre in *. lia.
      * unfold entre in *. lia.
    + intros Hcomp. apply (conexo_desde _ (ix, iy)). intros p [Hp|[[Hp1 Hp2]|[Hp1 Hp2]]]%C.
      * assert (∀ a b, alcanzable f c (matriz s) a b → alcanzable f c (matriz s2) a b) as Hmono.
        { intros a b. apply alcanzable_mono. intros r Hr. apply C. by left. }
        destruct (Hcomp p Hp) as [?|?]; [by apply Hmono|].
        eapply alcanzable_trans; [done|]. by apply Hmono.
      * replace p with (ix, p.2) by (destruct p; simpl in *; by subst). by apply Hfila.
      * replace p with (p.1, my) by (destruct p; simpl in *; by subst). by apply Hcol.
Qed.

End Reparacion.

(** ** La generacion completa *)

Section Generacion.
Variables f c : Z.
Hypothesis Hf3 : 3 ≤ f.
Hypothesis Hc3 : 3 ≤ c.
Implicit Types (m : list (list Z)) (p q : Z * Z) (s : Estado).

Lemma hasta_complejidad_spec comp g :
  wp (hasta_complejidad f c comp)
     (λ _ s', inv_lab f c (matriz s') ∧ es_arbol f c (matriz s')) (objeto_nuevo f c g).
Proof.
  unfold hasta_complejidad. apply wp_bind. unfold wp at 1. simpl.
  assert (forma f c (np_fill (np_full f c 0) 1)) as Hf.
  { apply forma_np_fill, forma_np_full; lia. }
  apply wp_bind. eapply wp_mono.
  { apply tallar_spec; try done. simpl. intros p Hp.
    apply (leer_np_fill f c); [apply forma_np_full; lia|done]. }
  cbv beta. intros r sA (Hinv & Hpila & _ & _).
  eapply wp_mono.
  { apply (agregar_complejidad_spec f c).
    - apply (inv_forma _ _ _ _ Hinv).
    - intros p Hp. by eapply visitadas_total.
    - apply (inv_bifs _ _ _ _ Hinv). }
  cbv beta. intros vis sB (_ & Hm & _ & _). rewrite Hm. split.
  - by eapply inv_dfs_inv_lab.
  - apply (inv_arbol _ _ _ _ Hinv).
Qed.

Lemma generar_desglose comp dens s :
  _generar f c comp dens s =
  match hasta_complejidad f c comp s with
  | Ok (_, sB) =>
      match bucle_ciclos f c (Qmult dens (15 # 100)) sB with
      | Ok (_, sC) =>
          match _establecer_inicio_meta f c sC with
          | Ok (_, sD) => _garantizar_solucion f c sD
          | Lanza e => Lanza e
          | Agotado => Agotado
          end
      | Lanza e => Lanza e
      | Agotado => Agotado
      end
  | Lanza e => Lanza e
  | Agotado => Agotado
  end.
Proof.
  unfold _generar, hasta_complejidad, _crear_ciclos, mbind, M_bind, ligar.
  destruct (rellenar_matriz 1 s) as [[[] s1]| |]; [|done..].
  destruct (tallar f c s1) as [[r sA]| |]; [|done..].
  destruct (_agregar_complejidad f c _ _ _ sA) as [[vis sB]| |]; [|done..].
  destruct (bucle_ciclos f c _ sB) as [[[] sC]| |]; [|done..].
  destruct (_establecer_inicio_meta f c sC) as [[[] sD]| |]; done.
Qed.

Lemma hasta_inicio_meta_desglose comp dens s :
  hasta_inicio_meta f c comp dens s =
  match hasta_complejidad f c comp s with
  | Ok (_, sB) =>
      match bucle_ciclos f c (Qmult dens (15 # 100)) sB with
      | Ok (_, sC) => _establecer_inicio_meta f c sC
      | Lanza e => Lanza e
      | Agotado => Agotado
      end
  | Lanza e => Lanza e
  | Agotado => Agotado
  end.
Proof.
  unfold hasta_inicio_meta, mbind, M_bind, ligar.
  destruct (hasta_complejidad f c comp s) as [[vis sB]| |]; [|done..].
  destruct (bucle_ciclos f c _ sB) as [[[] sC]| |]; done.
Qed.

(** El estado con que se llama a [_garantizar_solucion]. *)
Lemma tras_establecer sC sD :
  inv_lab f c (matriz sC) →
  (inicio sD = (1, 1) ∧
   ((∃ q, camino f c (matriz sC) q ∧ q ≠ (1, 1)) →
      matriz sD = matriz sC ∧ camino f c (matriz sC) (meta sD) ∧ meta sD ≠ (1, 1) ∧
      ∀ q, camino f c (matriz sC) q → f / 2 ≤ q.1 → c / 2 ≤ q.2 →
           Z.max f c / 2 < Z.abs (q.1 - 1) + Z.abs (q.2 - 1) →
           f / 2 ≤ (meta sD).1 ∧ c / 2 ≤ (meta sD).2) ∧
   ((∀ q, camino f c (matriz sC) q → q = (1, 1)) →
      meta sD = (f - 2, c - 2) ∧ forma f c (matriz sD) ∧
      leer (matriz sD) (f - 2, c - 2) = Some 0 ∧
      ∀ q, enrango f c q → q ≠ (f - 2, c - 2) → leer (matriz sD) q = leer (matriz sC) q)) →
  forma f c (matriz sD) ∧ binaria f c (matriz sD) ∧
  camino f c (matriz sD) (1, 1) ∧ camino f c (matriz sD) (meta sD) ∧
  (∀ p, camino f c (matriz sD) p → dentro f c p) ∧
  (∀ p, camino f c (matriz sD) p →
        alcanzable f c (matriz sD) (1, 1) p ∨ alcanzable f c (matriz sD) (meta sD) p) ∧
  (¬ (f = 4 ∧ c = 4) → alcanzable f c (matriz sD) (1, 1) (meta sD)) ∧
  (¬ (f = 3 ∧ c = 3) → meta sD ≠ (1, 1)) ∧
  (10 ≤ f → 10 ≤ c → f / 2 ≤ (meta sD).1 ∧ c / 2 ≤ (meta sD).2) ∧
  ((5 ≤ f ∨ 5 ≤ c) → matriz sD = matriz sC ∧ conexo f c (matriz sD)).
Proof.
  intros Hinv (Hini & Hvarios & Hsolo).
  pose proof (inv_lab_11 f c _ Hf3 Hc3 Hinv) as H11.
  destruct (decide (5 ≤ f ∨ 5 ≤ c)) as [Hgrande|Hchico].
  - assert (∃ q, camino f c (matriz sC) q ∧ q ≠ (1, 1)) as Hq.
    { destruct Hgrande; [exists (3, 1)|exists (1, 3)]; (split; [|done]);
        apply (lab_reticula _ _ _ Hinv); unfold reticula, dentro, impar; simpl;
        repeat split; try lia; done. }
    destruct (Hvarios Hq) as (Hm & Hcm & Hne & Hcuad). rewrite Hm.
    split; [apply (lab_forma _ _ _ Hinv)|]. split; [apply (lab_binaria _ _ _ Hinv)|].
    split; [done|]. split; [done|]. split; [apply (lab_dentro _ _ _ Hinv)|].
    split; [intros p Hp; left; by apply (lab_conexo _ _ _ Hinv)|].
    split; [intros _; by apply (lab_conexo _ _ _ Hinv)|]. split; [done|].
    split; [|intros _; split; [done|apply (lab_conexo _ _ _ Hinv)]].
    intros Hf10 Hc10.
    apply (Hcuad (2 * ((f - 3) / 2) + 1, 2 * ((c - 3) / 2) + 1)); simpl; [|zlia..].
    apply (lab_reticula _ _ _ Hinv). unfold reticula, dentro, impar. simpl.
    repeat split; zlia.
  - assert (f ≤ 4 ∧ c ≤ 4) as [Hf4 Hc4] by lia.
    destruct (Hsolo (lab_chico _ _ _ Hinv Hf4 Hc4)) as (Hme & Hfo & Hl & Ho).
    assert (enrango f c (f - 2, c - 2)) as Hr by (unfold enrango; simpl; lia).
    pose proof (camino_escrito f c _ _ _ Hr Hl Ho) as C.
    assert (∀ p, camino f c (matriz sD) p → p = (1, 1) ∨ p = meta sD) as Hdos.
    { intros p [Hp| ->]%C; [left; by apply (lab_chico _ _ _ Hinv)|by right]. }
    assert (camino f c (matriz sD) (1, 1)) as H11' by (apply C; by left).
    assert (camino f c (matriz sD) (meta sD)) as Hcm by (rewrite Hme; apply C; by right).
    split; [done|]. split; [eapply binaria_escrito; [apply (lab_binaria _ _ _ Hinv)|done..]|].
    split; [done|]. split; [done|]. split.
    { intros p [->| ->]%Hdos; [by apply (lab_dentro _ _ _ Hinv)|].
      rewrite Hme. unfold dentro. simpl. lia. }
    split.
    { intros p Hp. destruct (Hdos p Hp) as [->| ->]; [left|right]; by apply alc_aqui. }
    split.
    { intros H44. destruct (decide (meta sD = (1, 1))) as [->|Hne]; [by apply alc_aqui|].
      apply alcanzable_un_paso; [done..|]. rewrite Hme in Hne |- *.
      assert (¬ (f = 3 ∧ c = 3)) by (intros [-> ->]; by apply Hne).
      unfold adyacente. simpl. lia. }
    split.
    { intros H33. rewrite Hme. intros [= ? ?]. lia. }
    split; [lia|]. intros [?|?]; lia.
Qed.

Lemma generacion comp dens g :
  ∃ sD sE,
    hasta_inicio_meta f c comp dens (objeto_nuevo f c g) = Ok (tt, sD) ∧
    _generar f c comp dens (objeto_nuevo f c g) = Ok (tt, sE) ∧
    laberinto_listo f c sD sE.
Proof.
  rewrite generar_desglose, hasta_inicio_meta_desglose.
  destruct (wp_elim _ _ _ (hasta_complejidad_spec comp g)) as (vis & sB & -> & HinvB & _).
  destruct (wp_elim _ _ _ (bucle_ciclos_spec f c (Qmult dens (15 # 100)) sB HinvB))
    as ([] & sC & -> & HinvC & _).
  destruct (wp_elim _ _ _ (establecer_spec f c sC Hf3 Hc3 HinvC))
    as ([] & sD & -> & _ & Hest).
  destruct (tras_establecer sC sD HinvC Hest)
    as (HfD & HbD & H11 & Hcm & Hden & Hunion & Halc & Hdist & Hcuad & _).
  destruct Hest as (HiD & _).
  assert (camino f c (matriz sD) (inicio sD)) as Hci by (by rewrite HiD).
  destruct (wp_elim _ _ _ (garantizar_spec f c sD HfD HbD Hci Hcm))
    as ([] & sE & -> & HiE & HmE & HfE & HbE & HalE & Hsin & Hmono & Hnuevas & Hcon).
  exists sD, sE. split; [done|]. split; [done|]. rewrite HiD in *.
  split; rewrite ?HiE, ?HmE; try done.
  - by apply Hmono.
  - by apply Hmono.
  - apply Hcon. intros p Hp. by apply Hunion.
  - intros p [Hp|[H1 H2]]%Hnuevas; [by apply Hden|].
    apply Hden in Hcm. unfold dentro, entre in *. simpl in *. lia.
  - intros H44. apply Hsin. by apply Halc.
Qed.

End Generacion.

(** ** Dos barridos de [_crear_ciclos] con distinta densidad *)

Section DosBarridos.
Variables f c : Z.
Implicit Types (m : list (list Z)) (p q : Z * Z) (s : Estado).

Lemma wp2_ret {A B} (a : A) (b : B) (R : A → Estado → B → Estado → Prop) s1 s2 :
  R a s1 b s2 → wp2 (ret a) (ret b) R s1 s2.
Proof. done. Qed.

Lemma wp2_bind {A A' B B'} (c1 : M A) (c2 : M B) (k1 : A → M A') (k2 : B → M B')
    (R : A' → Estado → B' → Estado → Prop) s1 s2 :
  wp2 c1 c2 (λ a s1' b s2', wp2 (k1 a) (k2 b) R s1' s2') s1 s2 →
  wp2 (c1 ≫= k1) (c2 ≫= k2) R s1 s2.
Proof.
  unfold wp2, mbind, M_bind, ligar.
  destruct (c1 s1) as [[a s1']| |], (c2 s2) as [[b s2']| |]; done.
Qed.

Lemma wp2_mono {A B} (c1 : M A) (c2 : M B) (R R' : A → Estado → B → Estado → Prop) s1 s2 :
  wp2 c1 c2 R s1 s2 → (∀ a s1' b s2', R a s1' b s2' → R' a s1' b s2') →
  wp2 c1 c2 R' s1 s2.
Proof.
  unfold wp2. destruct (c1 s1) as [[a s1']| |], (c2 s2) as [[b s2']| |]; auto.
Qed.

Lemma wp2_elim {A B} (c1 : M A) (c2 : M B) (R : A → Estado → B → Estado → Prop) s1 s2 :
  wp2 c1 c2 R s1 s2 →
  ∃ a s1' b s2', c1 s1 = Ok (a, s1') ∧ c2 s2 = Ok (b, s2') ∧ R a s1' b s2'.
Proof.
  unfold wp2. destruct (c1 s1) as [[a s1']| |], (c2 s2) as [[b s2']| |]; try done.
  intros. by exists a, s1', b, s2'.
Qed.

Lemma wp2_para {A} (Inv : list A → Estado → Estado → Prop)
    (cuerpo1 cuerpo2 : A → unit → M unit) (l : list A) s1 s2 :
  Inv l s1 s2 →
  (∀ a l' s1 s2, Inv (a :: l') s1 s2 →
     wp2 (cuerpo1 a tt) (cuerpo2 a tt) (λ _ s1' _ s2', Inv l' s1' s2') s1 s2) →
  wp2 (para l cuerpo1 tt) (para l cuerpo2 tt) (λ _ s1' _ s2', Inv [] s1' s2') s1 s2.
Proof.
  intros HI Hpaso. revert s1 s2 HI. induction l as [|a l IH]; intros s1 s2 HI.
  - by apply wp2_ret.
  - cbn [para]. apply wp2_bind. eapply wp2_mono; [by apply Hpaso|].
    intros [] s1' [] s2' HI'. by apply IH.
Qed.

Lemma wp2_leer_matriz p (R : Z → Estado → Z → Estado → Prop) s1 s2 :
  forma f c (matriz s1) → enrango f c p → leer (matriz s1) p = leer (matriz s2) p →
  (∀ v, leer (matriz s1) p = Some v → R v s1 v s2) →
  wp2 (leer_matriz p) (leer_matriz p) R s1 s2.
Proof.
  intros Hf Hp Heq HR. destruct (leer_is_Some f c _ p Hf Hp) as [v Hv].
  unfold wp2, leer_matriz. rewrite <-Heq, Hv. auto.
Qed.

Lemma rel_ciclos_menos (pend pend' : Z * Z → Prop) s1 s2 :
  (∀ q, pend' q → pend q) → rel_ciclos f c pend s1 s2 → rel_ciclos f c pend' s1 s2.
Proof.
  intros Hsub (Ha & Hf1 & Hf2 & Hrel). repeat (split; [done|]).
  intros q Hq. destruct (Hrel q Hq) as [?|(? & ? & ?)]; [by left|right]. auto.
Qed.

Lemma ciclo_en_rel pr1 pr2 (pend : Z * Z → Prop) i j s1 s2 :
  Qle pr1 pr2 → rel_ciclos f c pend s1 s2 → pend (i, j) →
  2 ≤ i < f - 2 → 2 ≤ j < c - 2 → i mod 2 = 0 → j mod 2 = 0 →
  wp2 (ciclo_en pr1 i j) (ciclo_en pr2 i j)
      (λ _ s1' _ s2', rel_ciclos f c (λ q, pend q ∧ q ≠ (i, j)) s1' s2') s1 s2.
Proof.
  intros Hle Hrel Hpend Hi Hj Hi2 Hj2.
  pose proof Hrel as (Haz & Hf1 & Hf2 & Hcel).
  assert (∀ q, i - 1 ≤ q.1 ≤ i + 1 → j - 1 ≤ q.2 ≤ j + 1 → enrango f c q) as Hr.
  { intros q ??. unfold enrango. lia. }
  assert (∀ q, enrango f c q → q = (i, j) ∨ ¬ par2 q →
               leer (matriz s1) q = leer (matriz s2) q) as Higual.
  { intros q Hq Hcaso. destruct (Hcel q Hq) as [?|(Hnp & Hpar & _)]; [done|].
    destruct Hcaso as [->|?]; done. }
  assert (rel_ciclos f c (λ q, pend q ∧ q ≠ (i, j)) s1 s2) as Hrel'.
  { eapply rel_ciclos_menos; [|done]. by intros q [? _]. }
  unfold ciclo_en.
  apply wp2_bind, wp2_leer_matriz; [done|apply Hr; simpl; lia|apply Higual; auto|].
  { apply Hr; simpl; lia. }
  intros v Hv. case_decide; [|by apply wp2_ret].
  assert (∀ q, i - 1 ≤ q.1 ≤ i + 1 → j - 1 ≤ q.2 ≤ j + 1 → q ≠ (i, j) →
               (q.1 = i ∨ q.2 = j) → enrango f c q ∧ leer (matriz s1) q = leer (matriz s2) q)
    as Hvec.
  { intros q H1 H2 Hne Hcruz. split; [by apply Hr|]. apply Higual; [by apply Hr|].
    right. unfold par2. intros [Hq1 Hq2].
    apply Hne. destruct q as [q1 q2]; simpl in *. f_equal; zlia. }
  assert (∀ (a : Z) (q : Z * Z) (R : bool → Estado → bool → Estado → Prop),
            enrango f c q → leer (matriz s1) q = leer (matriz s2) q →
            (∀ b : bool, R b s1 b s2) →
            wp2 (if decide (a = 0) then b ← leer_matriz q; ret (bool_decide (b = 0))
                 else ret false)
                (if decide (a = 0) then b ← leer_matriz q; ret (bool_decide (b = 0))
                 else ret false) R s1 s2) as Hlado.
  { intros a q R Hq Heq HR. case_decide; [|by apply wp2_ret].
    apply wp2_bind, wp2_leer_matriz; try done. intros b _. by apply wp2_ret. }
  apply wp2_bind, wp2_leer_matriz; [done|apply Hvec; simpl; auto; try lia..|].
  { intros ?; simplify_eq; try lia. }
  { intros ?; simplify_eq; try lia. }
  intros a1 _. apply wp2_bind, Hlado; [apply Hvec; simpl; auto; try lia..|].
  { intros ?; simplify_eq; try lia. }
  { intros ?; simplify_eq; try lia. }
  intros eh.
  apply wp2_bind, wp2_leer_matriz; [done|apply Hvec; simpl; auto; try lia..|].
  { intros ?; simplify_eq; try lia. }
  { intros ?; simplify_eq; try lia. }
  intros a2 _. apply wp2_bind, Hlado; [apply Hvec; simpl; auto; try lia..|].
  { intros ?; simplify_eq; try lia. }
  { intros ?; simplify_eq; try lia. }
  intros ev.
  destruct (eh || ev); [|by apply wp2_ret].
  apply wp2_bind. unfold wp2 at 1, random_random, extraer, mbind, M_bind, ligar, ret. simpl.
  rewrite <-Haz.
  set (u := Qmake (azar s1 O mod 2 ^ 53) (2 ^ 53)%positive).
  assert (enrango f c (i, j)) as Hij by (apply Hr; simpl; lia).
  destruct (escribir_spec f c (matriz s1) (i, j) 0 Hf1 Hij) as (m1' & He1 & Hf1' & Hl1 & Ho1).
  destruct (escribir_spec f c (matriz s2) (i, j) 0 Hf2 Hij) as (m2' & He2 & Hf2' & Hl2 & Ho2).
  destruct (Qlt_le_dec u pr1) as [Hu1|Hu1], (Qlt_le_dec u pr2) as [Hu2|Hu2].
  - unfold wp2, escribir_matriz. simpl. rewrite He1, He2.
    split; [simpl; by rewrite Haz|]. split; [done|]. split; [done|]. simpl.
    intros q Hq. destruct (decide (q = (i, j))) as [->|Hne]; [left; by rewrite Hl1, Hl2|].
    rewrite Ho1, Ho2 by done. destruct (Hcel q Hq) as [?|(? & ? & ?)]; [by left|right].
    split; [tauto|done].
  - exfalso. apply (Qlt_irrefl u). eapply Qlt_le_trans; [done|]. by eapply Qle_trans.
  - unfold wp2, escribir_matriz, ret. simpl. rewrite He2.
    split; [simpl; by rewrite Haz|]. split; [done|]. split; [done|]. simpl.
    intros q Hq. destruct (decide (q = (i, j))) as [->|Hne].
    + right. split; [tauto|]. split; [done|done].
    + rewrite Ho2 by done. destruct (Hcel q Hq) as [?|(? & ? & ?)]; [by left|right].
      split; [tauto|done].
  - unfold wp2, ret. simpl. split; [simpl; by rewrite Haz|]. split; [done|]. split; [done|].
    simpl. intros q Hq. destruct (Hcel q Hq) as [?|(? & ? & ?)]; [by left|right].
    split; [tauto|done].
Qed.

Lemma NoDup_rango a b paso : 0 < paso → NoDup (rango a b paso).
Proof.
  intros Hp. unfold rango. apply NoDup_fmap_2_strong; [|apply NoDup_seq].
  intros x y _ _ Heq. nia.
Qed.

Lemma bucle_ciclos_rel pr1 pr2 s :
  Qle pr1 pr2 → forma f c (matriz s) →
  wp2 (bucle_ciclos f c pr1) (bucle_ciclos f c pr2)
      (λ _ s1 _ s2, ∀ q, camino f c (matriz s1) q → camino f c (matriz s2) q) s s.
Proof.
  intros Hle Hf. unfold bucle_ciclos. eapply wp2_mono.
  - apply (wp2_para (λ (l : list Z) s1 s2,
        NoDup l ∧ (∀ i, i ∈ l → 2 ≤ i < f - 2 ∧ i mod 2 = 0) ∧
        rel_ciclos f c (λ q, q.1 ∈ l) s1 s2)).
    + split; [apply NoDup_rango; lia|]. split.
      * intros i Hi%elem_of_rango; [|lia]. split; [lia|]. zlia.
      * split; [done|]. split; [done|]. split; [done|]. by left.
    + intros i l s1 s2 (Hnd & Hl & Hrel).
      apply NoDup_cons in Hnd as [Hil Hnd].
      eapply wp2_mono.
      * apply (wp2_para (λ (l2 : list Z) s1 s2,
          NoDup l2 ∧ (∀ j, j ∈ l2 → 2 ≤ j < c - 2 ∧ j mod 2 = 0) ∧
          rel_ciclos f c (λ q, (q.1 = i ∧ q.2 ∈ l2) ∨ q.1 ∈ l) s1 s2)).
        -- split; [apply NoDup_rango; lia|]. split.
           ++ intros j Hj%elem_of_rango; [|lia]. split; [lia|]. zlia.
           ++ eapply rel_ciclos_menos; [|done]. intros q [[-> _]|?]; [left|by right].
        -- intros j l2 s1' s2' (Hnd2 & Hl2 & Hrel2).
           apply NoDup_cons in Hnd2 as [Hjl Hnd2].
           destruct (Hl i ltac:(left)) as [Hi Hi2].
           destruct (Hl2 j ltac:(left)) as [Hj Hj2].
           eapply wp2_mono.
           ++ eapply (ciclo_en_rel pr1 pr2 _ i j); [done|exact Hrel2|..]; try done.
              simpl. left. split; [done|left].
           ++ cbv beta. intros _ s1'' _ s2'' Hrel3. split; [done|].
              split; [intros; apply Hl2; by right|].
              eapply rel_ciclos_menos; [|done]. simpl.
              intros q [[Hq1 Hq2]|Hq]; (split; [|]).
              ** left. split; [done|by right].
              ** intros ->. done.
              ** by right.
              ** intros ->. done.
      * cbv beta. intros _ s1' _ s2' (_ & _ & Hrel'). split; [done|].
        split; [intros; apply Hl; by right|].
        eapply rel_ciclos_menos; [|done]. simpl. intros q Hq. by right.
  - cbv beta. intros _ s1 _ s2 (_ & _ & _ & _ & _ & Hrel) q [Hq Hl]. split; [done|].
    destruct (Hrel q Hq) as [<-|(_ & _ & ?)]; done.
Qed.

End DosBarridos.

(** * Teoremas sobre la especificacion *)

Section Teoremas.
Implicit Types (filas columnas : Z) (complejidad densidad : Q) (g : Rng).

Lemma Laberinto_init_listo filas columnas complejidad densidad g :
  3 ≤ filas → 3 ≤ columnas →
  ∃ sD sE,
    correr filas columnas g (hasta_inicio_meta filas columnas complejidad densidad) = Ok sD ∧
    Laberinto_init filas columnas complejidad densidad g = Ok sE ∧
    laberinto_listo filas columnas sD sE.
Proof.
  intros Hf Hc.
  destruct (generacion filas columnas Hf Hc complejidad densidad g)
    as (sD & sE & HD & HE & Hl).
  exists sD, sE. unfold Laberinto_init, correr.
  rewrite !decide_False by lia. rewrite HD, HE. split; [done|]. split; [done|]. exact Hl.
Qed.

Lemma tallar_falla filas columnas s :
  filas < 3 ∨ columnas < 3 → tallar filas columnas s = Lanza ValueError.
Proof.
  intros Hdim. unfold tallar, mbind, M_bind, ligar.
  destruct (decide (filas < 3)) as [Hf|Hf].
  - by rewrite randrange_vacio by lia.
  - destruct (wp_elim (randrange 1 (filas - 1) 2) (λ _ _, True) s) as (x & s' & -> & _).
    { apply wp_randrange_paso; [lia..|done]. }
    by rewrite randrange_vacio by lia.
Qed.

(** C1. En todo laberinto generado (filas >= 3, columnas >= 3, cualquier
    complejidad, densidad y flujo de azar) la meta es alcanzable desde el
    inicio en 4 direcciones por celdas de camino. *)
Theorem C1_meta_alcanzable filas columnas complejidad densidad g :
  3 ≤ filas → 3 ≤ columnas →
  ∃ s, Laberinto_init filas columnas complejidad densidad g = Ok s ∧
       alcanzable filas columnas (matriz s) (inicio s) (meta s).
Proof.
  intros Hf Hc.
  destruct (Laberinto_init_listo filas columnas complejidad densidad g Hf Hc)
    as (sD & sE & _ & HE & Hl).
  exists sE. split; [done|]. apply (ll_alcanzable _ _ _ _ Hl).
Qed.

Lemma C1_meta_alcanzable_testigo :
  ∃ s, Laberinto_init 5 5 (1 # 2) (1 # 2) (λ _, 0) = Ok s ∧
       alcanzable 5 5 (matriz s) (inicio s) (meta s).
Proof. apply (C1_meta_alcanzable 5 5 (1 # 2) (1 # 2) (λ _, 0)); lia. Defined.

(** C2 (la afirmacion falla en el codigo). Con 3 filas y 3 columnas el
    inicio y la meta son siempre la misma celda, la (1, 1): la unica celda
    interior es el inicio y la meta forzada [(filas - 2, columnas - 2)]
    coincide con ella. *)
Theorem C2_inicio_es_meta_en_3x3 complejidad densidad g :
  ∃ s, Laberinto_init 3 3 complejidad densidad g = Ok s ∧
       inicio s = (1, 1) ∧ meta s = (1, 1).
Proof.
  destruct (Laberinto_init_listo 3 3 complejidad densidad g) as (sD & sE & _ & HE & Hl);
    [lia..|].
  exists sE. split; [done|]. split; [apply (ll_inicio _ _ _ _ Hl)|].
  pose proof (ll_dentro _ _ _ _ Hl _ (ll_cam_meta _ _ _ _ Hl)) as Hd.
  unfold dentro in Hd. destruct (meta sE); simpl in *. f_equal; lia.
Qed.

(** Fuera del caso 3 x 3 el inicio y la meta son celdas distintas. *)
Lemma inicio_distinto_de_meta filas columnas complejidad densidad g :
  3 ≤ filas → 3 ≤ columnas → ¬ (filas = 3 ∧ columnas = 3) →
  ∃ s, Laberinto_init filas columnas complejidad densidad g = Ok s ∧ inicio s ≠ meta s.
Proof.
  intros Hf Hc Hno.
  destruct (Laberinto_init_listo filas columnas complejidad densidad g Hf Hc)
    as (sD & sE & _ & HE & Hl).
  exists sE. split; [done|]. intros Heq. by apply (ll_distintas _ _ _ _ Hl).
Qed.

(** C7. En todo laberinto generado de al menos 10 x 10 el inicio esta en
    la mitad superior o en la mitad izquierda y la meta en la mitad
    inferior o en la mitad derecha (las mitades, con la division entera
    del codigo). *)
Theorem C7_cuadrantes filas columnas complejidad densidad g :
  10 ≤ filas → 10 ≤ columnas →
  ∃ s, Laberinto_init filas columnas complejidad densidad g = Ok s ∧
       ((inicio s).1 < filas / 2 ∨ (inicio s).2 < columnas / 2) ∧
       (filas / 2 ≤ (meta s).1 ∨ columnas / 2 ≤ (meta s).2).
Proof.
  intros Hf Hc.
  destruct (Laberinto_init_listo filas columnas complejidad densidad g) as
    (sD & sE & _ & HE & Hl); [lia..|].
  exists sE. split; [done|]. rewrite (ll_inicio _ _ _ _ Hl). simpl. split.
  - left. zlia.
  - left. by apply (ll_cuadrante _ _ _ _ Hl).
Qed.

Lemma C7_cuadrantes_testigo :
  ∃ s, Laberinto_init 10 10 (1 # 2) (1 # 2) (λ _, 0) = Ok s ∧
       ((inicio s).1 < 10 / 2 ∨ (inicio s).2 < 10 / 2) ∧
       (10 / 2 ≤ (meta s).1 ∨ 10 / 2 ≤ (meta s).2).
Proof. apply (C7_cuadrantes 10 10 (1 # 2) (1 # 2) (λ _, 0)); lia. Defined.

(** C9. En todo laberinto generado las celdas del borde (fila 0, ultima
    fila, columna 0, ultima columna) son pared. *)
Theorem C9_borde_es_pared filas columnas complejidad densidad g :
  3 ≤ filas → 3 ≤ columnas →
  ∃ s, Laberinto_init filas columnas complejidad densidad g = Ok s ∧
       ∀ p, borde filas columnas p → pared filas columnas (matriz s) p.
Proof.
  intros Hf Hc.
  destruct (Laberinto_init_listo filas columnas complejidad densidad g Hf Hc)
    as (sD & sE & _ & HE & Hl).
  exists sE. split; [done|]. intros p [Hp Hb]. split; [done|].
  destruct (ll_binaria _ _ _ _ Hl p Hp) as [H0|H1]; [|done].
  exfalso. pose proof (ll_dentro _ _ _ _ Hl p (conj Hp H0)) as Hd.
  unfold dentro in Hd. lia.
Qed.

Lemma C9_borde_es_pared_testigo :
  ∃ s, Laberinto_init 5 5 (1 # 2) (1 # 2) (λ _, 0) = Ok s ∧
       ∀ p, borde 5 5 p → pared 5 5 (matriz s) p.
Proof. apply (C9_borde_es_pared 5 5 (1 # 2) (1 # 2) (λ _, 0)); lia. Defined.

(** C10. En todo laberinto generado el inicio y la meta son celdas
    estrictamente interiores. *)
Theorem C10_extremos_interiores filas columnas complejidad densidad g :
  3 ≤ filas → 3 ≤ columnas →
  ∃ s, Laberinto_init filas columnas complejidad densidad g = Ok s ∧
       (1 ≤ (inicio s).1 ≤ filas - 2 ∧ 1 ≤ (inicio s).2 ≤ columnas - 2) ∧
       (1 ≤ (meta s).1 ≤ filas - 2 ∧ 1 ≤ (meta s).2 ≤ columnas - 2).
Proof.
  intros Hf Hc.
  destruct (Laberinto_init_listo filas columnas complejidad densidad g Hf Hc)
    as (sD & sE & _ & HE & Hl).
  exists sE. split; [done|].
  pose proof (ll_dentro _ _ _ _ Hl _ (ll_cam_inicio _ _ _ _ Hl)) as Hi.
  pose proof (ll_dentro _ _ _ _ Hl _ (ll_cam_meta _ _ _ _ Hl)) as Hm.
  unfold dentro in *. lia.
Qed.

Lemma C10_extremos_interiores_testigo :
  ∃ s, Laberinto_init 5 5 (1 # 2) (1 # 2) (λ _, 0) = Ok s ∧
       (1 ≤ (inicio s).1 ≤ 5 - 2 ∧ 1 ≤ (inicio s).2 ≤ 5 - 2) ∧
       (1 ≤ (meta s).1 ≤ 5 - 2 ∧ 1 ≤ (meta s).2 ≤ 5 - 2).
Proof. apply (C10_extremos_interiores 5 5 (1 # 2) (1 # 2) (λ _, 0)); lia. Defined.

End Teoremas.

Section TeoremasDeEtapas.
Implicit Types (filas columnas : Z) (complejidad densidad : Q) (g : Rng).

Lemma elem_of_caminos_de filas columnas (m : list (list Z)) p :
  p ∈ caminos_de filas columnas m ↔ camino filas columnas m p.
Proof.
  unfold caminos_de. rewrite elem_of_list_to_set, list_elem_of_filter, elem_of_posiciones.
  unfold camino. tauto.
Qed.

Lemma num_caminos_mono filas columnas (m1 m2 : list (list Z)) :
  (∀ p, camino filas columnas m1 p → camino filas columnas m2 p) →
  (num_caminos filas columnas m1 ≤ num_caminos filas columnas m2)%nat.
Proof.
  intros Hsub. unfold num_caminos. apply subseteq_size. intros p.
  rewrite !elem_of_caminos_de. auto.
Qed.

Lemma rango_vacio a b paso : 0 < paso → b ≤ a → rango a b paso = [].
Proof.
  intros Hp Hba. unfold rango.
  assert ((b - a + paso - 1) / paso ≤ 0) as H.
  { assert ((b - a + paso - 1) / paso < 1); [|lia]. apply Z.div_lt_upper_bound; lia. }
  replace (Z.to_nat ((b - a + paso - 1) / paso)) with 0%nat by lia. done.
Qed.

(** Con al menos 5 filas o 5 columnas, lo que sigue al barrido de
    [_crear_ciclos] ya no cambia la matriz. *)
Lemma final_sin_cambios filas columnas sC :
  3 ≤ filas → 3 ≤ columnas → 5 ≤ filas ∨ 5 ≤ columnas →
  inv_lab filas columnas (matriz sC) →
  ∃ sD sE, _establecer_inicio_meta filas columnas sC = Ok (tt, sD) ∧
           _garantizar_solucion filas columnas sD = Ok (tt, sE) ∧
           matriz sE = matriz sC.
Proof.
  intros Hf Hc Hg HinvC.
  destruct (wp_elim _ _ _ (establecer_spec filas columnas sC Hf Hc HinvC))
    as ([] & sD & HD & _ & Hest).
  destruct (tras_establecer filas columnas Hf Hc sC sD HinvC Hest)
    as (HfD & HbD & H11 & Hcm & _ & _ & _ & _ & _ & Hgrande).
  destruct (Hgrande Hg) as [HmD Hcon]. destruct Hest as (HiD & _).
  assert (camino filas columnas (matriz sD) (inicio sD)) as Hci by (by rewrite HiD).
  destruct (wp_elim _ _ _ (garantizar_spec filas columnas sD HfD HbD Hci Hcm))
    as ([] & sE & HE & _ & _ & _ & _ & _ & Hsin & _).
  exists sD, sE. split; [done|]. split; [done|]. rewrite <-HmD. apply Hsin.
  by apply Hcon.
Qed.

(** C4. Con las mismas dimensiones, complejidad y flujo de azar, el
    numero de celdas de camino del laberinto generado no decrece al
    aumentar la densidad. *)
Theorem C4_densidad_monotona filas columnas complejidad d1 d2 g :
  3 ≤ filas → 3 ≤ columnas → Qle d1 d2 →
  ∃ s1 s2, Laberinto_init filas columnas complejidad d1 g = Ok s1 ∧
           Laberinto_init filas columnas complejidad d2 g = Ok s2 ∧
           (num_caminos filas columnas (matriz s1) ≤
            num_caminos filas columnas (matriz s2))%nat.
Proof.
  intros Hf Hc Hle. unfold Laberinto_init, correr. rewrite !decide_False by lia.
  rewrite !generar_desglose.
  destruct (wp_elim _ _ _ (hasta_complejidad_spec filas columnas Hf Hc complejidad g))
    as (vis & sB & -> & HinvB & _).
  destruct (decide (5 ≤ filas ∨ 5 ≤ columnas)) as [Hg|Hch].
  - assert (Qle (Qmult d1 (15 # 100)) (Qmult d2 (15 # 100))) as Hp.
    { apply Qmult_le_compat_r; [done|]. unfold Qle. simpl. lia. }
    destruct (wp2_elim _ _ _ _ _
                (bucle_ciclos_rel filas columnas _ _ sB Hp (lab_forma _ _ _ HinvB)))
      as ([] & s1C & [] & s2C & H1 & H2 & Hmono).
    destruct (wp_elim _ _ _ (bucle_ciclos_spec filas columnas (Qmult d1 (15 # 100)) sB HinvB))
      as ([] & s1C' & H1' & Hinv1 & _).
    destruct (wp_elim _ _ _ (bucle_ciclos_spec filas columnas (Qmult d2 (15 # 100)) sB HinvB))
      as ([] & s2C' & H2' & Hinv2 & _).
    rewrite H1 in H1'. rewrite H2 in H2'. simplify_eq. rewrite H1, H2.
    destruct (final_sin_cambios filas columnas s1C' Hf Hc Hg Hinv1)
      as (s1D & s1E & -> & -> & Hm1).
    destruct (final_sin_cambios filas columnas s2C' Hf Hc Hg Hinv2)
      as (s2D & s2E & -> & -> & Hm2).
    exists s1E, s2E. split; [done|]. split; [done|]. rewrite Hm1, Hm2.
    by apply num_caminos_mono.
  - assert (∀ pr, bucle_ciclos filas columnas pr sB = Ok (tt, sB)) as Hnada.
    { intros pr. unfold bucle_ciclos.
      destruct (decide (5 ≤ filas)) as [H5|H5].
      - assert (rango 2 (columnas - 2) 2 = []) as -> by (apply rango_vacio; lia).
        simpl. induction (rango 2 (filas - 2) 2) as [|i l IH]; [done|].
        simpl. unfold mbind, M_bind, ligar, ret. simpl. apply IH.
      - by rewrite rango_vacio by lia. }
    rewrite !Hnada.
    destruct (wp_elim _ _ _ (establecer_spec filas columnas sB Hf Hc HinvB))
      as ([] & sD & -> & _ & Hest).
    destruct (tras_establecer filas columnas Hf Hc sB sD HinvB Hest)
      as (HfD & HbD & H11 & Hcm & _).
    destruct Hest as (HiD & _).
    assert (camino filas columnas (matriz sD) (inicio sD)) as Hci by (by rewrite HiD).
    destruct (wp_elim _ _ _ (garantizar_spec filas columnas sD HfD HbD Hci Hcm))
      as ([] & sE & -> & _).
    exists sE, sE. done.
Qed.

Lemma C4_densidad_monotona_testigo :
  ∃ s1 s2, Laberinto_init 5 5 (1 # 2) (1 # 4) (λ _, 0) = Ok s1 ∧
           Laberinto_init 5 5 (1 # 2) (3 # 4) (λ _, 0) = Ok s2 ∧
           (num_caminos 5 5 (matriz s1) ≤ num_caminos 5 5 (matriz s2))%nat.
Proof.
  apply (C4_densidad_monotona 5 5 (1 # 2) (1 # 4) (3 # 4) (λ _, 0)); [lia..|].
  unfold Qle. simpl. lia.
Defined.

(** C6. Al terminar [_agregar_complejidad] las celdas de camino forman un
    arbol: grafo conexo y sin ciclos. *)
Theorem C6_arbol_tras_complejidad filas columnas complejidad g :
  3 ≤ filas → 3 ≤ columnas →
  ∃ vis s, hasta_complejidad filas columnas complejidad (objeto_nuevo filas columnas g)
             = Ok (vis, s) ∧
           es_arbol filas columnas (matriz s).
Proof.
  intros Hf Hc.
  destruct (wp_elim _ _ _ (hasta_complejidad_spec filas columnas Hf Hc complejidad g))
    as (vis & sB & H & _ & Harbol).
  by exists vis, sB.
Qed.

Lemma C6_arbol_tras_complejidad_testigo :
  ∃ vis s, hasta_complejidad 5 5 (1 # 2) (objeto_nuevo 5 5 (λ _, 0)) = Ok (vis, s) ∧
           es_arbol 5 5 (matriz s).
Proof. apply (C6_arbol_tras_complejidad 5 5 (1 # 2) (λ _, 0)); lia. Defined.

(** En toda ejecucion [_agregar_complejidad] deja la matriz como la
    recibio: al acabar el tallado no queda vecino sin visitar. *)
Lemma complejidad_no_talla filas columnas complejidad g :
  3 ≤ filas → 3 ≤ columnas →
  ∃ r sA vis sB,
    (rellenar_matriz 1;; tallar filas columnas) (objeto_nuevo filas columnas g) = Ok (r, sA) ∧
    _agregar_complejidad filas columnas (visitadas r) (bifurcaciones r)
      (factor_de complejidad) sA = Ok (vis, sB) ∧
    matriz sB = matriz sA.
Proof.
  intros Hf Hc. unfold mbind, M_bind, ligar. simpl.
  destruct (wp_elim _ _ _
    (tallar_spec filas columnas
       (mkEstado (np_fill (np_full filas columnas 0) 1) (0, 0)
                 (filas - 1, columnas - 1) g) Hf Hc
       (forma_np_fill _ _ _ _ (forma_np_full filas columnas 0 ltac:(lia) ltac:(lia)))
       (λ p Hp, leer_np_fill filas columnas _ 1 p
                  (forma_np_full filas columnas 0 ltac:(lia) ltac:(lia)) Hp)))
    as (r & sA & HA & Hinv & Hpila & _).
  destruct (wp_elim _ _ _
    (agregar_complejidad_spec filas columnas (visitadas r) (bifurcaciones r)
       (factor_de complejidad) sA (inv_forma _ _ _ _ Hinv)
       (λ p Hp, visitadas_total filas columnas r sA p Hinv Hpila Hp)
       (inv_bifs _ _ _ _ Hinv)))
    as (vis & sB & HB & _ & Hm & _).
  exists r, sA, vis, sB. simpl in HA. by rewrite HA.
Qed.

Lemma generar_por_tramos filas columnas complejidad densidad s :
  _generar filas columnas complejidad densidad s =
  match hasta_inicio_meta filas columnas complejidad densidad s with
  | Ok (_, sD) => _garantizar_solucion filas columnas sD
  | Lanza e => Lanza e
  | Agotado => Agotado
  end.
Proof.
  rewrite generar_desglose, hasta_inicio_meta_desglose.
  destruct (hasta_complejidad _ _ _ s) as [[? sB]| |]; [|done..].
  destruct (bucle_ciclos _ _ _ sB) as [[? sC]| |]; [|done..].
  by destruct (_establecer_inicio_meta _ _ sC) as [[? sD]| |].
Qed.

(** C8 (enmendada). En todo laberinto generado el conjunto de celdas de
    camino es conexo, y [_garantizar_solucion] deja la matriz como la
    recibio (no talla el corredor de [_crear_camino]) salvo cuando hay 4
    filas y 4 columnas. *)
Theorem C8_conexo_y_sin_reparar filas columnas complejidad densidad g :
  3 ≤ filas → 3 ≤ columnas →
  ∃ sD sE,
    hasta_inicio_meta filas columnas complejidad densidad (objeto_nuevo filas columnas g)
      = Ok (tt, sD) ∧
    _garantizar_solucion filas columnas sD = Ok (tt, sE) ∧
    Laberinto_init filas columnas complejidad densidad g = Ok sE ∧
    conexo filas columnas (matriz sE) ∧
    (¬ (filas = 4 ∧ columnas = 4) → matriz sE = matriz sD).
Proof.
  intros Hf Hc.
  destruct (generacion filas columnas Hf Hc complejidad densidad g)
    as (sD & sE & HD & HE & Hl).
  exists sD, sE. split; [done|].
  split; [by rewrite generar_por_tramos, HD in HE|].
  split; [unfold Laberinto_init, correr; rewrite decide_False by lia; by rewrite HE|].
  split; [apply (ll_conexo _ _ _ _ Hl)|apply (ll_sin_reparar _ _ _ _ Hl)].
Qed.

Lemma C8_conexo_y_sin_reparar_testigo :
  ∃ sD sE,
    hasta_inicio_meta 5 5 (1 # 2) (1 # 2) (objeto_nuevo 5 5 (λ _, 0)) = Ok (tt, sD) ∧
    _garantizar_solucion 5 5 sD = Ok (tt, sE) ∧
    Laberinto_init 5 5 (1 # 2) (1 # 2) (λ _, 0) = Ok sE ∧
    conexo 5 5 (matriz sE) ∧
    (¬ (5 = 4 ∧ 5 = 4) → matriz sE = matriz sD).
Proof. apply (C8_conexo_y_sin_reparar 5 5 (1 # 2) (1 # 2) (λ _, 0)); lia. Defined.

(** C8, contraejemplo: con 4 filas y 4 columnas el inicio (1, 1) y la meta
    forzada (2, 2) no son vecinos; [_garantizar_solucion] recibe la celda
    (1, 2) como pared y la deja tallada por [_crear_camino]. *)
Lemma C8_contraejemplo_4x4 :
  ∃ sD sE,
    hasta_inicio_meta 4 4 (1 # 2) (1 # 2) (objeto_nuevo 4 4 (λ _, 0)) = Ok (tt, sD) ∧
    _garantizar_solucion 4 4 sD = Ok (tt, sE) ∧
    Laberinto_init 4 4 (1 # 2) (1 # 2) (λ _, 0) = Ok sE ∧
    leer (matriz sD) (1, 2) = Some 1 ∧ leer (matriz sE) (1, 2) = Some 0.
Proof.
  eexists _, _. split; [vm_compute; reflexivity|]. split; [vm_compute; reflexivity|].
  split; [vm_compute; reflexivity|]. split; vm_compute; reflexivity.
Qed.

(** C5, contraejemplo: con 5 filas, 7 columnas y complejidad 1 el tallado
    registra 3 bifurcaciones; el factor es 0.3, int(3 * 0.3) = 0 y el bucle
    no procesa ninguna, mientras que round(3 * 0.3) = 1. *)
Lemma C5_contraejemplo_5x7 :
  ∃ r s,
    (rellenar_matriz 1;; tallar 5 7) (objeto_nuevo 5 7 (λ _, 0)) = Ok (r, s) ∧
    length (bifurcaciones r) = 3%nat ∧
    num_a_procesar (length (bifurcaciones r)) (factor_de 1) = 0%nat ∧
    redondear (Qmult (inject_Z (Z.of_nat (length (bifurcaciones r)))) (factor_de 1)) = 1.
Proof.
  eexists _, _. split; [vm_compute; reflexivity|].
  split; [vm_compute; reflexivity|]. split; vm_compute; reflexivity.
Qed.

(** La meta se elige con [max] sobre la distancia a la esquina inferior
    derecha: con 11 filas y 11 columnas queda en la celda central, sobre la
    fila y la columna [11 // 2]. *)
Example meta_en_11x11 :
  ∃ s, Laberinto_init 11 11 (1 # 2) (1 # 2) (λ _, 0) = Ok s ∧
       inicio s = (1, 1) ∧ meta s = (5, 5).
Proof. eexists. split; [vm_compute; reflexivity|]. split; vm_compute; reflexivity. Qed.

End TeoremasDeEtapas.

(** ** Otras propiedades del generador *)

Section EtapasNeutras.
Variables f c : Z.
Implicit Types (m : list (list Z)) (p q : Z * Z) (s : Estado).

(** Con el tallado completo, el bucle de [_agregar_complejidad] no escribe
    ni consume azar: solo cuenta el [shuffle] inicial. *)
Lemma agregar_complejidad_neutro (vis : gset (Z * Z)) bifs factor s :
  (∀ p, reticula f c p → p ∈ vis) →
  Forall (λ b : Z * Z * list (Z * Z * Z * Z),
            Forall (λ v : Z * Z * Z * Z, reticula f c (v.1.1.1, v.1.1.2)) b.2) bifs →
  _agregar_complejidad f c vis bifs factor s =
  match shuffle bifs s with
  | Ok (_, s1) => Ok (vis, s1)
  | Lanza e => Lanza e
  | Agotado => Agotado
  end.
Proof.
  intros Htot Hbifs. unfold _agregar_complejidad, mbind, M_bind, ligar.
  destruct (wp_elim (shuffle bifs) (λ x' _, x' ≡ₚ bifs) s) as (bifs' & s1 & -> & Hperm).
  { by apply wp_shuffle. }
  rewrite <-Hperm in Hbifs.
  destruct (wp_elim
    (para (seq 0 (num_a_procesar (length bifs') factor))
       (λ i (vis0 : gset (Z * Z)),
          '(x, y, vecinos) ← o_lanza (bifs' !! i) IndexError;
          match vecinos with
          | (nx, ny, wx, wy) :: _ =>
              if decide ((nx, ny) ∉ vis0) then
                escribir_matriz (x + wx, y + wy) 0;;
                escribir_matriz (nx, ny) 0;;
                longitud ← randint 1 3;
                _crear_callejon f c nx ny longitud vis0
              else ret vis0
          | [] => ret vis0
          end) vis)
    (λ v s', v = vis ∧ s' = s1) s1) as (v & s' & Hpara & -> & ->); [|exact Hpara].
  eapply wp_mono.
  - apply (wp_para (λ (l : list nat) (v : gset (Z * Z)) s',
                      v = vis ∧ s' = s1 ∧ ∀ i, i ∈ l → (i < length bifs')%nat)).
    + repeat split; try done. intros i Hi%elem_of_seq. unfold num_a_procesar in Hi. lia.
    + intros i l v s' (-> & -> & Hl).
      destruct (lookup_lt_is_Some_2 bifs' i) as [[[x y] vecinos] Hb]; [apply Hl; left|].
      apply wp_bind. eapply wp_o_lanza; [done|].
      assert (∀ j, j ∈ l → (j < length bifs')%nat) by (intros; apply Hl; by right).
      destruct vecinos as [|[[[nx ny] wx] wy] otros]; [by apply wp_ret|].
      rewrite Forall_forall in Hbifs.
      pose proof (Hbifs _ (list_elem_of_lookup_2 _ _ _ Hb)) as Hv. simpl in Hv.
      apply Forall_cons in Hv as [Hv _]. simpl in Hv.
      rewrite decide_False; [by apply wp_ret|]. intros Hn. apply Hn, Htot, Hv.
  - simpl. intros v s' (-> & -> & _). done.
Qed.

Lemma random_no_negativo (g : nat → Z) : Qle 0 (Qmake (g O mod 2 ^ 53) (2 ^ 53)%positive).
Proof.
  unfold Qle. simpl. pose proof (Z.mod_pos_bound (g O) (2 ^ 53) ltac:(lia)). lia.
Qed.

(** Con probabilidad no positiva [_crear_ciclos] no abre ninguna celda. *)
Lemma ciclo_en_nulo prob i j s :
  Qle prob 0 → forma f c (matriz s) → 2 ≤ i < f - 2 → 2 ≤ j < c - 2 →
  wp (ciclo_en prob i j) (λ _ s', estable s s') s.
Proof.
  intros Hprob Hf Hi Hj.
  assert (∀ p, i - 1 ≤ p.1 ≤ i + 1 → j - 1 ≤ p.2 ≤ j + 1 → enrango f c p) as Hr.
  { intros p ??. unfold enrango. lia. }
  unfold ciclo_en.
  apply wp_bind. eapply (wp_leer_matriz f c); [done|apply Hr; simpl; lia|].
  intros v Hv. case_decide; [|by apply wp_ret].
  assert (∀ (Q : bool → Estado → Prop) a p2,
            enrango f c p2 → (∀ b : bool, Q b s) →
            wp (if decide (a = 0)
                then b ← leer_matriz p2; ret (bool_decide (b = 0))
                else ret false) Q s) as Hlado.
  { intros Q a p2 Hp2 HQ. case_decide.
    - apply wp_bind. eapply (wp_leer_matriz f c); [done..|]. intros b Hb. apply wp_ret, HQ.
    - apply wp_ret, HQ. }
  apply wp_bind. eapply (wp_leer_matriz f c); [done|apply Hr; simpl; lia|]. intros a1 Ha1.
  apply wp_bind. apply (Hlado _ a1 (i + 1, j)); [apply Hr; simpl; lia|]. intros eh.
  apply wp_bind. eapply (wp_leer_matriz f c); [done|apply Hr; simpl; lia|]. intros a2 Ha2.
  apply wp_bind. apply (Hlado _ a2 (i, j + 1)); [apply Hr; simpl; lia|]. intros ev.
  destruct (eh || ev); [|by apply wp_ret].
  apply wp_bind, wp_random_random. destruct (Qlt_le_dec _ prob) as [Hlt|Hge].
  - exfalso. apply (Qlt_not_le _ _ Hlt). eapply Qle_trans; [exact Hprob|].
    apply random_no_negativo.
  - by apply wp_ret.
Qed.

Lemma bucle_ciclos_nulo prob s :
  Qle prob 0 → forma f c (matriz s) →
  wp (bucle_ciclos f c prob) (λ _ s', estable s s') s.
Proof.
  intros Hprob Hf. unfold bucle_ciclos.
  eapply wp_mono.
  - apply (wp_para (λ (l : list Z) (_ : unit) s', estable s s' ∧ ∀ i, i ∈ l → 2 ≤ i < f - 2)).
    + split; [done|intros i Hi%elem_of_rango; lia].
    + intros i l [] s1 [HP Hl].
      eapply wp_mono.
      * apply (wp_para (λ (l2 : list Z) (_ : unit) s',
                          estable s s' ∧ ∀ j, j ∈ l2 → 2 ≤ j < c - 2)).
        -- split; [done|]. intros j Hj%elem_of_rango; lia.
        -- intros j l2 [] s2 [He2 Hl2].
           eapply wp_mono.
           ++ apply (ciclo_en_nulo prob i j s2); [done| |apply Hl; left|apply Hl2; left].
              destruct He2 as (-> & _). done.
           ++ simpl. intros [] s3 He3. split; [by eapply estable_trans|].
              intros; apply Hl2; by right.
      * simpl. intros [] s2 [HP2 _]. split; [done|]. intros; apply Hl; by right.
  - simpl. intros [] s' [HP _]. exact HP.
Qed.

End EtapasNeutras.

Section GeneracionDetallada.
Variables f c : Z.
Hypothesis Hf3 : 3 ≤ f.
Hypothesis Hc3 : 3 ≤ c.
Implicit Types (m : list (list Z)) (p q : Z * Z) (s : Estado).

(** Los estados intermedios de una generacion y lo que los relaciona. *)
Lemma generacion_detallada comp dens g :
  ∃ vis sB sC sD sE,
    hasta_complejidad f c comp (objeto_nuevo f c g) = Ok (vis, sB) ∧
    bucle_ciclos f c (Qmult dens (15 # 100)) sB = Ok (tt, sC) ∧
    _establecer_inicio_meta f c sC = Ok (tt, sD) ∧
    _garantizar_solucion f c sD = Ok (tt, sE) ∧
    _generar f c comp dens (objeto_nuevo f c g) = Ok (tt, sE) ∧
    es_arbol f c (matriz sB) ∧
    (Qle dens 0 → matriz sC = matriz sB) ∧
    (∀ p, reticula f c p → camino f c (matriz sE) p) ∧
    (5 ≤ f ∨ 5 ≤ c → matriz sE = matriz sC).
Proof.
  rewrite generar_desglose.
  destruct (wp_elim _ _ _ (hasta_complejidad_spec f c Hf3 Hc3 comp g))
    as (vis & sB & -> & HinvB & HarbB).
  destruct (wp_elim _ _ _ (bucle_ciclos_spec f c (Qmult dens (15 # 100)) sB HinvB))
    as ([] & sC & HC & HinvC & _).
  rewrite HC.
  destruct (wp_elim _ _ _ (establecer_spec f c sC Hf3 Hc3 HinvC))
    as ([] & sD & HD & _ & Hest).
  rewrite HD.
  destruct (tras_establecer f c Hf3 Hc3 sC sD HinvC Hest)
    as (HfD & HbD & H11 & Hcm & _ & _ & _ & _ & _ & Hgrande).
  pose proof Hest as (HiD & _).
  assert (camino f c (matriz sD) (inicio sD)) as Hci by (by rewrite HiD).
  destruct (wp_elim _ _ _ (garantizar_spec f c sD HfD HbD Hci Hcm))
    as ([] & sE & HE & _ & _ & _ & _ & _ & Hsin & Hmono & _).
  exists vis, sB, sC, sD, sE. split; [done|]. split; [done|]. split; [done|]. split; [done|]. split; [done|].
  split; [exact HarbB|].
  split; [|split].
  - intros Hd.
    assert (Qle (Qmult dens (15 # 100)) 0) as Hp.
    { apply Qle_trans with (Qmult 0 (15 # 100)).
      - apply Qmult_le_compat_r; [done|]. unfold Qle. simpl. lia.
      - unfold Qle. simpl. lia. }
    destruct (wp_elim _ _ _ (bucle_ciclos_nulo f c (Qmult dens (15 # 100)) sB Hp
                               (lab_forma _ _ _ HinvB)))
      as ([] & sC' & HC' & Hm & _).
    rewrite HC in HC'. by simplify_eq.
  - intros p Hp. apply Hmono.
    destruct (decide (5 ≤ f ∨ 5 ≤ c)) as [Hg|Hch].
    + destruct (Hgrande Hg) as [-> _]. by apply (lab_reticula _ _ _ HinvC).
    + destruct Hp as (Hd & H1 & H2). unfold dentro, impar in *.
      destruct p as [x y]. simpl in *.
      assert (x = 1) as -> by zlia. assert (y = 1) as -> by zlia. done.
  - intros Hg. destruct (Hgrande Hg) as [HmD Hcon].
    rewrite <-HmD. apply Hsin. rewrite HiD. by apply Hcon.
Qed.

End GeneracionDetallada.

Section PropiedadesDelLaberinto.
Implicit Types (filas columnas : Z) (complejidad densidad : Q) (g : Rng).

(** El inicio de todo laberinto generado es la celda (1, 1). *)
Theorem inicio_en_1_1 filas columnas complejidad densidad g :
  3 ≤ filas → 3 ≤ columnas →
  ∃ s, Laberinto_init filas columnas complejidad densidad g = Ok s ∧ inicio s = (1, 1).
Proof.
  intros Hf Hc.
  destruct (Laberinto_init_listo filas columnas complejidad densidad g Hf Hc)
    as (sD & sE & _ & HE & Hl).
  exists sE. split; [done|]. apply (ll_inicio _ _ _ _ Hl).
Qed.

Lemma inicio_en_1_1_testigo :
  ∃ s, Laberinto_init 5 7 (1 # 2) (1 # 2) (λ _, 0) = Ok s ∧ inicio s = (1, 1).
Proof. apply (inicio_en_1_1 5 7 (1 # 2) (1 # 2) (λ _, 0)); lia. Defined.

(** La matriz devuelta tiene [filas] filas de [columnas] celdas y cada
    celda vale 0 o 1. *)
Theorem matriz_forma_y_valores filas columnas complejidad densidad g :
  3 ≤ filas → 3 ≤ columnas →
  ∃ s, Laberinto_init filas columnas complejidad densidad g = Ok s ∧
       length (matriz s) = Z.to_nat filas ∧
       Forall (λ fila, length fila = Z.to_nat columnas) (matriz s) ∧
       ∀ p, enrango filas columnas p →
            leer (matriz s) p = Some 0 ∨ leer (matriz s) p = Some 1.
Proof.
  intros Hf Hc.
  destruct (Laberinto_init_listo filas columnas complejidad densidad g Hf Hc)
    as (sD & sE & _ & HE & Hl).
  exists sE. split; [done|].
  destruct (ll_forma _ _ _ _ Hl) as (_ & _ & H1 & H2).
  split; [done|]. split; [done|]. apply (ll_binaria _ _ _ _ Hl).
Qed.

Lemma matriz_forma_y_valores_testigo :
  ∃ s, Laberinto_init 5 7 (1 # 2) (1 # 2) (λ _, 0) = Ok s ∧
       length (matriz s) = Z.to_nat 5 ∧
       Forall (λ fila, length fila = Z.to_nat 7) (matriz s) ∧
       ∀ p, enrango 5 7 p → leer (matriz s) p = Some 0 ∨ leer (matriz s) p = Some 1.
Proof. apply (matriz_forma_y_valores 5 7 (1 # 2) (1 # 2) (λ _, 0)); lia. Defined.

(** Toda celda interior de fila y columna impares es camino en el
    laberinto generado: el tallado las visita todas. *)
Theorem reticula_es_camino filas columnas complejidad densidad g :
  3 ≤ filas → 3 ≤ columnas →
  ∃ s, Laberinto_init filas columnas complejidad densidad g = Ok s ∧
       ∀ i j, 1 ≤ i < filas - 1 → 1 ≤ j < columnas - 1 → i mod 2 = 1 → j mod 2 = 1 →
              leer (matriz s) (i, j) = Some 0.
Proof.
  intros Hf Hc.
  destruct (generacion_detallada filas columnas Hf Hc complejidad densidad g)
    as (vis & sB & sC & sD & sE & _ & _ & _ & _ & HE & _ & _ & Hret & _).
  exists sE. unfold Laberinto_init, correr. rewrite decide_False by lia. rewrite HE.
  split; [done|]. intros i j Hi Hj Hi2 Hj2.
  apply (Hret (i, j)). split; [done|]. done.
Qed.

Lemma reticula_es_camino_testigo :
  ∃ s, Laberinto_init 5 7 (1 # 2) (1 # 2) (λ _, 0) = Ok s ∧
       ∀ i j, 1 ≤ i < 5 - 1 → 1 ≤ j < 7 - 1 → i mod 2 = 1 → j mod 2 = 1 →
              leer (matriz s) (i, j) = Some 0.
Proof. apply (reticula_es_camino 5 7 (1 # 2) (1 # 2) (λ _, 0)); lia. Defined.

End PropiedadesDelLaberinto.

Section ParametrosYConsultas.
Implicit Types (filas columnas : Z) (complejidad densidad : Q) (g : Rng).

(** La complejidad no influye en el laberinto: con las mismas
    dimensiones, densidad y azar, dos complejidades cualesquiera dan el
    mismo resultado (la misma matriz, inicio, meta y azar restante, o el
    mismo error). *)
Theorem complejidad_sin_efecto filas columnas (c1 c2 : Q) densidad g :
  Laberinto_init filas columnas c1 densidad g = Laberinto_init filas columnas c2 densidad g.
Proof.
  unfold Laberinto_init, correr. case_decide; [done|].
  destruct (decide (filas < 3 ∨ columnas < 3)) as [Hch|Hg].
  - unfold _generar, mbind, M_bind, ligar. simpl. by rewrite !tallar_falla.
  - rewrite !generar_desglose.
    assert (hasta_complejidad filas columnas c1 (objeto_nuevo filas columnas g) =
            hasta_complejidad filas columnas c2 (objeto_nuevo filas columnas g)) as ->;
      [|done].
    unfold hasta_complejidad, mbind, M_bind, ligar. simpl.
    destruct (wp_elim _ _ _
      (tallar_spec filas columnas
         (mkEstado (np_fill (np_full filas columnas 0) 1) (0, 0)
                   (filas - 1, columnas - 1) g) ltac:(lia) ltac:(lia)
         (forma_np_fill _ _ _ _ (forma_np_full filas columnas 0 ltac:(lia) ltac:(lia)))
         (λ p Hp, leer_np_fill filas columnas _ 1 p
                    (forma_np_full filas columnas 0 ltac:(lia) ltac:(lia)) Hp)))
      as (r & sA & HA & Hinv & Hpila & _).
    simpl in HA. rewrite HA.
    assert (∀ p, reticula filas columnas p → p ∈ visitadas r) as Htot.
    { intros p Hp. by eapply visitadas_total. }
    rewrite (agregar_complejidad_neutro filas columnas (visitadas r) (bifurcaciones r)
               (factor_de c1) sA Htot (inv_bifs _ _ _ _ Hinv)).
    rewrite (agregar_complejidad_neutro filas columnas (visitadas r) (bifurcaciones r)
               (factor_de c2) sA Htot (inv_bifs _ _ _ _ Hinv)).
    done.
Qed.

(** Con densidad nula (o negativa) y al menos 5 filas o 5 columnas el
    laberinto generado es perfecto: sus celdas de camino forman un arbol. *)
Theorem densidad_nula_es_arbol filas columnas complejidad densidad g :
  3 ≤ filas → 3 ≤ columnas → 5 ≤ filas ∨ 5 ≤ columnas → Qle densidad 0 →
  ∃ s, Laberinto_init filas columnas complejidad densidad g = Ok s ∧
       es_arbol filas columnas (matriz s).
Proof.
  intros Hf Hc Hg Hd.
  destruct (generacion_detallada filas columnas Hf Hc complejidad densidad g)
    as (vis & sB & sC & sD & sE & _ & _ & _ & _ & HE & Harb & Hnulo & _ & Hfin).
  exists sE. unfold Laberinto_init, correr. rewrite decide_False by lia. rewrite HE.
  split; [done|]. rewrite (Hfin Hg), (Hnulo Hd). exact Harb.
Qed.

Lemma densidad_nula_es_arbol_testigo :
  ∃ s, Laberinto_init 5 7 (1 # 2) 0 (λ _, 0) = Ok s ∧ es_arbol 5 7 (matriz s).
Proof.
  apply (densidad_nula_es_arbol 5 7 (1 # 2) 0 (λ _, 0)); [lia..|].
  unfold Qle. simpl. lia.
Defined.

Lemma es_pared_de_camino filas columnas s p :
  camino filas columnas (matriz s) p → es_pared filas columnas s p.1 p.2 = Ok false.
Proof.
  intros [Hp Hl]. unfold es_pared, enrango in *. rewrite decide_False by lia.
  destruct p as [i j]. simpl in *. by rewrite Hl.
Qed.

(** [es_pared] sobre un laberinto generado nunca falla, sea cual sea la
    celda pedida; devuelve [False] exactamente en las celdas de camino y
    [True] en todo lo que no es estrictamente interior (fuera de la matriz
    o en su borde). *)
Theorem es_pared_total filas columnas complejidad densidad g :
  3 ≤ filas → 3 ≤ columnas →
  ∃ s, Laberinto_init filas columnas complejidad densidad g = Ok s ∧
       ∀ fila columna,
         ∃ b, es_pared filas columnas s fila columna = Ok b ∧
              (b = false ↔ camino filas columnas (matriz s) (fila, columna)) ∧
              (¬ (1 ≤ fila ≤ filas - 2 ∧ 1 ≤ columna ≤ columnas - 2) → b = true).
Proof.
  intros Hf Hc.
  destruct (Laberinto_init_listo filas columnas complejidad densidad g Hf Hc)
    as (sD & sE & _ & HE & Hl).
  exists sE. split; [done|]. intros fila columna. unfold es_pared.
  destruct (decide (fila < 0 ∨ filas ≤ fila ∨ columna < 0 ∨ columnas ≤ columna)) as [Hfu|Hde].
  - exists true. split; [done|]. split; [|done]. split; [done|].
    intros [Hr _]. unfold enrango in Hr. simpl in Hr. lia.
  - assert (enrango filas columnas (fila, columna)) as Hr by (unfold enrango; simpl; lia).
    destruct (ll_binaria _ _ _ _ Hl _ Hr) as [H0|H1].
    + rewrite H0. exists false. split; [done|]. split; [by split|].
      intros Hno. exfalso. apply Hno.
      pose proof (ll_dentro _ _ _ _ Hl (fila, columna) (conj Hr H0)) as Hd.
      unfold dentro in Hd. simpl in Hd. lia.
    + rewrite H1. exists true. split; [done|]. split; [|done]. split; [done|].
      intros [_ H0]. congruence.
Qed.

Lemma es_pared_total_testigo :
  ∃ s, Laberinto_init 5 7 (1 # 2) (1 # 2) (λ _, 0) = Ok s ∧
       ∀ fila columna,
         ∃ b, es_pared 5 7 s fila columna = Ok b ∧
              (b = false ↔ camino 5 7 (matriz s) (fila, columna)) ∧
              (¬ (1 ≤ fila ≤ 5 - 2 ∧ 1 ≤ columna ≤ 7 - 2) → b = true).
Proof. apply (es_pared_total 5 7 (1 # 2) (1 # 2) (λ _, 0)); lia. Defined.

(** El inicio y la meta de un laberinto generado no son pared para
    [es_pared], y fuera del caso 3 x 3 [es_meta] distingue el inicio de la
    meta. *)
Theorem extremos_transitables filas columnas complejidad densidad g :
  3 ≤ filas → 3 ≤ columnas →
  ∃ s, Laberinto_init filas columnas complejidad densidad g = Ok s ∧
       es_pared filas columnas s (inicio s).1 (inicio s).2 = Ok false ∧
       es_pared filas columnas s (meta s).1 (meta s).2 = Ok false ∧
       es_meta s (meta s).1 (meta s).2 = true ∧
       (¬ (filas = 3 ∧ columnas = 3) → es_meta s (inicio s).1 (inicio s).2 = false).
Proof.
  intros Hf Hc.
  destruct (Laberinto_init_listo filas columnas complejidad densidad g Hf Hc)
    as (sD & sE & _ & HE & Hl).
  exists sE. split; [done|].
  split; [apply es_pared_de_camino, (ll_cam_inicio _ _ _ _ Hl)|].
  split; [apply es_pared_de_camino, (ll_cam_meta _ _ _ _ Hl)|].
  unfold es_meta. split.
  - apply bool_decide_eq_true. by destruct (meta sE).
  - intros Hno. apply bool_decide_eq_false. intros Heq.
    apply (ll_distintas _ _ _ _ Hl Hno). rewrite <-Heq. by destruct (inicio sE).
Qed.

Lemma extremos_transitables_testigo :
  ∃ s, Laberinto_init 5 7 (1 # 2) (1 # 2) (λ _, 0) = Ok s ∧
       es_pared 5 7 s (inicio s).1 (inicio s).2 = Ok false ∧
       es_pared 5 7 s (meta s).1 (meta s).2 = Ok false ∧
       es_meta s (meta s).1 (meta s).2 = true ∧
       (¬ (5 = 3 ∧ 7 = 3) → es_meta s (inicio s).1 (inicio s).2 = false).
Proof. apply (extremos_transitables 5 7 (1 # 2) (1 # 2) (λ _, 0)); lia. Defined.

End ParametrosYConsultas.

Section Reparar.
Implicit Types (filas columnas : Z) (s : Estado).

Lemma estado_4x4_forma : forma 4 4 (matriz estado_4x4).
Proof. repeat split; try lia. repeat constructor. Qed.

Lemma estado_4x4_binaria : binaria 4 4 (matriz estado_4x4).
Proof.
  intros [x y] [Hx Hy]. simpl in *.
  assert (x = 0 ∨ x = 1 ∨ x = 2 ∨ x = 3) as Hx' by lia.
  assert (y = 0 ∨ y = 1 ∨ y = 2 ∨ y = 3) as Hy' by lia.
  destruct Hx' as [-> | [-> | [-> | ->]]]; destruct Hy' as [-> | [-> | [-> | ->]]];
    vm_compute; auto.
Qed.

(** [_crear_camino], sobre cualquier matriz de ceros y unos con el inicio
    en una celda de camino y la meta dentro de la matriz, termina y abre
    exactamente el corredor en L: la fila del inicio entre las dos columnas
    y la columna de la meta entre las dos filas. No toca nada mas ni mueve
    el inicio o la meta. *)
Theorem crear_camino_corredor filas columnas s :
  forma filas columnas (matriz s) → binaria filas columnas (matriz s) →
  camino filas columnas (matriz s) (inicio s) → enrango filas columnas (meta s) →
  ∃ s', _crear_camino filas columnas s = Ok (tt, s') ∧
        inicio s' = inicio s ∧ meta s' = meta s ∧
        ∀ p, camino filas columnas (matriz s') p ↔
             camino filas columnas (matriz s) p ∨
             (p.1 = (inicio s).1 ∧ entre (inicio s).2 (meta s).2 p.2) ∨
             (p.2 = (meta s).2 ∧ entre (inicio s).1 (meta s).1 p.1).
Proof.
  intros Hf Hb Hi Hm.
  destruct (wp_elim _ _ _ (crear_camino_spec filas columnas s Hf Hb Hi Hm))
    as ([] & s' & Hs & Hi' & Hm' & _ & _ & Hcam).
  by exists s'.
Qed.

Lemma crear_camino_corredor_testigo :
  ∃ s', _crear_camino 4 4 estado_4x4 = Ok (tt, s') ∧
        inicio s' = inicio estado_4x4 ∧ meta s' = meta estado_4x4 ∧
        ∀ p, camino 4 4 (matriz s') p ↔
             camino 4 4 (matriz estado_4x4) p ∨
             (p.1 = (inicio estado_4x4).1 ∧
              entre (inicio estado_4x4).2 (meta estado_4x4).2 p.2) ∨
             (p.2 = (meta estado_4x4).2 ∧
              entre (inicio estado_4x4).1 (meta estado_4x4).1 p.1).
Proof.
  apply (crear_camino_corredor 4 4 estado_4x4).
  - exact estado_4x4_forma.
  - exact estado_4x4_binaria.
  - split; [unfold enrango; simpl; lia|reflexivity].
  - unfold enrango. simpl. lia.
Defined.

(** En laberintos de al menos 10 x 10 la meta cae en el cuadrante inferior
    derecho: su fila y su columna son al menos la mitad (entera) de las
    dimensiones. *)
Theorem meta_en_cuadrante filas columnas (complejidad densidad : Q) (g : Rng) :
  10 ≤ filas → 10 ≤ columnas →
  ∃ s, Laberinto_init filas columnas complejidad densidad g = Ok s ∧
       filas / 2 ≤ (meta s).1 ∧ columnas / 2 ≤ (meta s).2.
Proof.
  intros Hf Hc.
  destruct (Laberinto_init_listo filas columnas complejidad densidad g) as
    (sD & sE & _ & HE & Hl); [lia..|].
  exists sE. split; [done|]. by apply (ll_cuadrante _ _ _ _ Hl).
Qed.

Lemma meta_en_cuadrante_testigo :
  ∃ s, Laberinto_init 10 12 (1 # 2) (1 # 2) (λ _, 0) = Ok s ∧
       10 / 2 ≤ (meta s).1 ∧ 12 / 2 ≤ (meta s).2.
Proof. apply (meta_en_cuadrante 10 12 (1 # 2) (1 # 2) (λ _, 0)); lia. Defined.

End Reparar.

(** ** El modulo [utilidades.helpers] *)

Section Coordenadas.
Implicit Types (fila columna tamano_celda x y : Z).

(** [calcular_posicion_celda] es la inversa de [calcular_centro_celda]
    para todo tamano de celda positivo: el centro de una celda vuelve a su
    fila y columna. *)
Theorem posicion_de_centro fila columna tamano_celda :
  0 < tamano_celda →
  calcular_posicion_celda (calcular_centro_celda fila columna tamano_celda).1
                          (calcular_centro_celda fila columna tamano_celda).2
                          tamano_celda
  = inr (fila, columna).
Proof.
  intros Ht. unfold calcular_posicion_celda, calcular_centro_celda, division_entera. simpl.
  rewrite !decide_False by lia. do 2 f_equal.
  - symmetry. apply (Z.div_unique _ _ _ (tamano_celda / 2)); [zlia|lia].
  - symmetry. apply (Z.div_unique _ _ _ (tamano_celda / 2)); [zlia|lia].
Qed.

Lemma posicion_de_centro_testigo :
  calcular_posicion_celda (calcular_centro_celda 2 3 30).1
                          (calcular_centro_celda 2 3 30).2 30
  = inr (2, 3).
Proof. apply (posicion_de_centro 2 3 30). lia. Defined.

(** Con tamano de celda positivo, [calcular_posicion_celda] devuelve
    (fila, columna) exactamente para los pixeles del cuadrado de esa
    celda; con tamano 0 falla con [ZeroDivisionError]. *)
Theorem posicion_en_su_celda x y tamano_celda fila columna :
  (tamano_celda = 0 →
   calcular_posicion_celda x y tamano_celda = inl ZeroDivisionError) ∧
  (0 < tamano_celda →
   (calcular_posicion_celda x y tamano_celda = inr (fila, columna) ↔
    (fila * tamano_celda ≤ y < (fila + 1) * tamano_celda ∧
     columna * tamano_celda ≤ x < (columna + 1) * tamano_celda))).
Proof.
  unfold calcular_posicion_celda, division_entera. split.
  - intros ->. done.
  - intros Ht. rewrite !decide_False by lia. split.
    + intros Heq. simplify_eq. split; zlia.
    + intros [Hy Hx]. do 2 f_equal.
      * symmetry. apply (Z.div_unique _ _ _ (y - fila * tamano_celda)); lia.
      * symmetry. apply (Z.div_unique _ _ _ (x - columna * tamano_celda)); lia.
Qed.

End Coordenadas.

Section Colores.

Lemma canal_acotado (a b : Z) (factor : Q) :
  Qle 0 factor → Qle factor 1 →
  Z.min a b ≤ int_de (Qplus (inject_Z a) (Qmult (inject_Z (b - a)) factor)) ≤ Z.max a b.
Proof.
  destruct factor as [n d]. unfold Qle, int_de. simpl. intros H0 H1.
  rewrite Z.mul_1_r in *.
  set (N := a * Z.pos d + (b - a) * n).
  assert (Z.min a b * Z.pos d ≤ N ≤ Z.max a b * Z.pos d) as HN by (unfold N; nia).
  clearbody N. pose proof (Pos2Z.is_pos d) as Hd.
  Z.quot_rem_to_equations. nia.
Qed.

Lemma canal_entero (a b k : Z) :
  int_de (Qplus (inject_Z a) (Qmult (inject_Z (b - a)) (inject_Z k))) = a + (b - a) * k.
Proof. unfold int_de. simpl. rewrite Z.quot_1_r. lia. Qed.

(** [interpolar_color] devuelve [color1] con factor 0 y [color2] con
    factor 1. *)
Theorem interpolar_color_extremos (color1 color2 : Z * Z * Z) :
  interpolar_color color1 color2 0 = color1 ∧
  interpolar_color color1 color2 1 = color2.
Proof.
  destruct color1 as [[r1 g1] b1], color2 as [[r2 g2] b2].
  unfold interpolar_color. simpl fst. simpl snd.
  change 0%Q with (inject_Z 0). change 1%Q with (inject_Z 1).
  rewrite !canal_entero. split; do 2 f_equal; lia.
Qed.

(** Con el factor entre 0 y 1, cada canal del color interpolado queda
    entre los canales correspondientes de los dos colores; con colores de
    0 a 255 el resultado tambien lo es. *)
Theorem interpolar_color_acotado (color1 color2 : Z * Z * Z) (factor : Q) :
  Qle 0 factor → Qle factor 1 →
  let c := interpolar_color color1 color2 factor in
  Z.min color1.1.1 color2.1.1 ≤ c.1.1 ≤ Z.max color1.1.1 color2.1.1 ∧
  Z.min color1.1.2 color2.1.2 ≤ c.1.2 ≤ Z.max color1.1.2 color2.1.2 ∧
  Z.min color1.2 color2.2 ≤ c.2 ≤ Z.max color1.2 color2.2.
Proof.
  intros H0 H1. unfold interpolar_color. cbv zeta. simpl fst. simpl snd.
  split; [|split]; by apply canal_acotado.
Qed.

Lemma interpolar_color_acotado_testigo :
  let c := interpolar_color (255, 0, 0) (0, 255, 0) (1 # 2) in
  Z.min 255 0 ≤ c.1.1 ≤ Z.max 255 0 ∧
  Z.min 0 255 ≤ c.1.2 ≤ Z.max 0 255 ∧
  Z.min 0 0 ≤ c.2 ≤ Z.max 0 0.
Proof.
  apply (interpolar_color_acotado (255, 0, 0) (0, 255, 0) (1 # 2));
    unfold Qle; simpl; lia.
Defined.

End Colores.

Section Formato.

Lemma string_app_nil (s : string) : "" +:+ s = s.
Proof. reflexivity. Qed.

Lemma string_app_cons (ch : ascii) (s1 s2 : string) :
  String ch s1 +:+ s2 = String ch (s1 +:+ s2).
Proof. reflexivity. Qed.

Lemma string_length_app (s1 s2 : string) :
  String.length (s1 +:+ s2) = (String.length s1 + String.length s2)%nat.
Proof.
  induction s1 as [|ch s1 IH]; [done|]. rewrite string_app_cons. simpl. by rewrite IH.
Qed.

Lemma string_app_inj (s1 s1' s2 s2' : string) :
  String.length s2 = String.length s2' → s1 +:+ s2 = s1' +:+ s2' → s1 = s1' ∧ s2 = s2'.
Proof.
  revert s1'. induction s1 as [|ch s1 IH]; intros [|ch' s1'] Hlen Heq;
    rewrite ?string_app_nil, ?string_app_cons in Heq.
  - done.
  - exfalso. rewrite Heq in Hlen. simpl in Hlen. rewrite string_length_app in Hlen. lia.
  - exfalso. rewrite <-Heq in Hlen. simpl in Hlen. rewrite string_length_app in Hlen. lia.
  - injection Heq as -> Heq. destruct (IH s1' Hlen Heq) as [-> ->]. done.
Qed.

(** Un entero de 0 a 99 ocupa dos caracteres con [:02d]. *)
Lemma formato_02d_longitud n : 0 ≤ n < 100 → String.length (formato_02d n) = 2%nat.
Proof.
  intros Hn.
  assert (forallb (λ k, Nat.eqb (String.length (formato_02d k)) 2) (seqZ 0 100) = true)
    as H by (vm_compute; reflexivity).
  rewrite forallb_forall in H. apply Nat.eqb_eq, H, list_elem_of_In, elem_of_seqZ. lia.
Qed.

Lemma pretty_N_go_cabeza (x : N) (s : string) :
  (0 < x)%N → ∃ ch r, pretty_N_go x s = String ch r ∧ ch ≠ "0"%char.
Proof.
  revert s. induction (N.lt_wf_0 x) as [x _ IH]. intros s Hx.
  rewrite pretty_N_go_step by done.
  destruct (decide (x < 10)%N) as [Hc|Hl].
  - rewrite N.div_small, pretty_N_go_0 by done. eexists _, _. split; [done|].
    rewrite N.mod_small by done.
    assert (x = 1 ∨ x = 2 ∨ x = 3 ∨ x = 4 ∨ x = 5 ∨ x = 6 ∨ x = 7 ∨ x = 8 ∨ x = 9)%N
      as Hx' by lia.
    destruct Hx' as [-> | [-> | [-> | [-> | [-> | [-> | [-> | [-> | ->]]]]]]]]; done.
  - apply IH; [apply N.div_lt; lia|apply N.div_str_pos; lia].
Qed.

(** Solo el 0 se escribe empezando por el caracter 0. *)
Lemma pretty_Z_cabeza (m : Z) (r : string) : pretty m = String "0"%char r → m = 0.
Proof.
  destruct m as [|p|p]; [done|..]; intros H; exfalso.
  - unfold pretty, pretty_Z, pretty, pretty_positive, pretty, pretty_N in H.
    rewrite decide_False in H by done.
    destruct (pretty_N_go_cabeza (N.pos p) "") as (ch & r' & Heq & Hch); [lia|].
    rewrite Heq in H. by simplify_eq.
  - unfold pretty, pretty_Z in H. simpl in H. discriminate.
Qed.

Lemma formato_02d_inj n m : formato_02d n = formato_02d m → n = m.
Proof.
  unfold formato_02d. cbv zeta.
  destruct (decide (String.length (pretty n) < 2)%nat) as [Hn|Hn];
    destruct (decide (String.length (pretty m) < 2)%nat) as [Hm|Hm]; intros Heq.
  - rewrite !string_app_cons, !string_app_nil in Heq. injection Heq as Heq.
    by apply (inj pretty).
  - rewrite string_app_cons, string_app_nil in Heq. symmetry in Heq.
    apply pretty_Z_cabeza in Heq as ->. exfalso. apply Hm. vm_compute. lia.
  - rewrite string_app_cons, string_app_nil in Heq.
    apply pretty_Z_cabeza in Heq as ->. exfalso. apply Hn. vm_compute. lia.
  - by apply (inj pretty).
Qed.

(** [formatear_tiempo] es inyectiva sobre todos los enteros: dos
    cantidades de segundos distintas nunca se muestran igual. *)
Theorem formatear_tiempo_inyectiva (s1 s2 : Z) :
  s1 ≠ s2 → formatear_tiempo s1 ≠ formatear_tiempo s2.
Proof.
  unfold formatear_tiempo. cbv zeta. intros Hne Heq. apply Hne.
  apply string_app_inj in Heq as [Hmin Hseg].
  - rewrite !string_app_cons, !string_app_nil in Hseg. injection Hseg as Hseg.
    apply formato_02d_inj in Hmin, Hseg.
    rewrite (Z.div_mod s1 60), (Z.div_mod s2 60) by lia. congruence.
  - rewrite !string_app_cons, !string_app_nil. simpl.
    rewrite !formato_02d_longitud; [done|zlia..].
Qed.

Lemma formatear_tiempo_inyectiva_testigo :
  59 ≠ 60 ∧ formatear_tiempo 59 ≠ formatear_tiempo 60.
Proof. split; [lia|apply (formatear_tiempo_inyectiva 59 60); lia]. Defined.

(** Hasta 99 minutos y 59 segundos el resultado tiene exactamente los
    cinco caracteres de "mm:ss", con los dos puntos en el centro. *)
Theorem formatear_tiempo_mm_ss (segundos : Z) :
  0 ≤ segundos < 6000 →
  ∃ m1 m2 d1 d2,
    formatear_tiempo segundos = String m1 (String m2 (String ":" (String d1 (String d2 "")))) ∧
    formato_02d (segundos / 60) = String m1 (String m2 "") ∧
    formato_02d (segundos mod 60) = String d1 (String d2 "").
Proof.
  intros Hs. unfold formatear_tiempo. cbv zeta.
  pose proof (formato_02d_longitud (segundos / 60) ltac:(zlia)) as Hm.
  pose proof (formato_02d_longitud (segundos mod 60) ltac:(zlia)) as Hd.
  destruct (formato_02d (segundos / 60)) as [|m1 [|m2 [|]]]; try done.
  destruct (formato_02d (segundos mod 60)) as [|d1 [|d2 [|]]]; try done.
  exists m1, m2, d1, d2. by rewrite !string_app_cons, !string_app_nil.
Qed.

Lemma formatear_tiempo_mm_ss_testigo :
  ∃ m1 m2 d1 d2,
    formatear_tiempo 125 = String m1 (String m2 (String ":" (String d1 (String d2 "")))) ∧
    formato_02d (125 / 60) = String m1 (String m2 "") ∧
    formato_02d (125 mod 60) = String d1 (String d2 "").
Proof. apply (formatear_tiempo_mm_ss 125). lia. Defined.

End Formato.

(** ** La clase [Temporizador] *)

Section Reloj.
Implicit Types (self : Temporizador.t) (ahora : Q).

(** [int()] sobre racionales: signo por parte entera del valor absoluto. *)
Lemma int_de_suelo (q : Q) :
  int_de q = if decide (0 ≤ Qnum q) then Qfloor q else - Qfloor (Qopp q).
Proof.
  destruct q as [n d]. unfold int_de, Qfloor, Qopp. simpl. case_decide.
  - apply Z.quot_div_nonneg; lia.
  - rewrite <-(Z.quot_div_nonneg (- n) (Z.pos d)) by lia.
    rewrite Z.quot_opp_l by lia. lia.
Qed.

Lemma int_de_Qeq (q1 q2 : Q) : Qeq q1 q2 → int_de q1 = int_de q2.
Proof.
  intros Heq. rewrite !int_de_suelo.
  assert (0 ≤ Qnum q1 ↔ 0 ≤ Qnum q2) as Hs.
  { unfold Qeq in Heq. destruct q1 as [a b], q2 as [a' b']. simpl in *. nia. }
  destruct (decide (0 ≤ Qnum q1)), (decide (0 ≤ Qnum q2)); try tauto.
  - by rewrite Heq.
  - by rewrite Heq.
Qed.

Lemma int_de_mono (q1 q2 : Q) : Qle q1 q2 → int_de q1 ≤ int_de q2.
Proof.
  intros Hle. rewrite !int_de_suelo.
  destruct (decide (0 ≤ Qnum q1)) as [H1|H1], (decide (0 ≤ Qnum q2)) as [H2|H2].
  - by apply Qfloor_resp_le.
  - exfalso. unfold Qle in Hle. destruct q1 as [a b], q2 as [a' b']. simpl in *. nia.
  - assert (0 ≤ Qfloor (Qopp q1)); [|assert (0 ≤ Qfloor q2); [|lia]].
    + change 0 with (Qfloor 0). apply Qfloor_resp_le.
      unfold Qle, Qopp. destruct q1 as [a b]. simpl in *. lia.
    + change 0 with (Qfloor 0). apply Qfloor_resp_le.
      unfold Qle. destruct q2 as [a b]. simpl in *. lia.
  - assert (Qfloor (Qopp q2) ≤ Qfloor (Qopp q1)); [|lia].
    apply Qfloor_resp_le. by apply Qopp_le_compat.
Qed.

(** Pausar en el instante [a] congela la lectura en el valor que tenia en
    [a]: mientras dure la pausa, el tiempo transcurrido no depende del
    reloj (y pausar de nuevo no cambia nada). *)
Theorem pausar_congela self (a ahora : Q) :
  Temporizador.obtener_tiempo_transcurrido (Temporizador.pausar self a) ahora =
  Temporizador.obtener_tiempo_transcurrido self a ∧
  Temporizador.pausar (Temporizador.pausar self a) ahora = Temporizador.pausar self a.
Proof.
  unfold Temporizador.obtener_tiempo_transcurrido, Temporizador.pausar.
  destruct self as [ini lim pau [] pin]; simpl; done.
Qed.

(** El tiempo en pausa no cuenta: tras pausar en [a1] y reanudar en [a2],
    la lectura en [a3] es la que habria dado el reloj atrasado en
    [a2 - a1]. *)
Theorem reanudar_descuenta_pausa self (a1 a2 a3 : Q) :
  Temporizador.pausado self = false →
  Temporizador.obtener_tiempo_transcurrido
    (Temporizador.reanudar (Temporizador.pausar self a1) a2) a3 =
  Temporizador.obtener_tiempo_transcurrido self (Qminus a3 (Qminus a2 a1)).
Proof.
  destruct self as [ini lim pau p pin]. simpl. intros ->.
  unfold Temporizador.obtener_tiempo_transcurrido, Temporizador.reanudar,
    Temporizador.pausar. simpl.
  apply int_de_Qeq. ring.
Qed.

Lemma reanudar_descuenta_pausa_testigo :
  Temporizador.obtener_tiempo_transcurrido
    (Temporizador.reanudar (Temporizador.pausar (Temporizador.init (Some 60) 100) 110) 115)
    120 =
  Temporizador.obtener_tiempo_transcurrido (Temporizador.init (Some 60) 100)
    (Qminus 120 (Qminus 115 110)).
Proof.
  apply (reanudar_descuenta_pausa (Temporizador.init (Some 60) 100) 110 115 120).
  reflexivity.
Defined.

(** [obtener_tiempo_restante] es [None] solo sin limite y nunca es
    negativo; [ha_terminado] es cierto exactamente cuando hay limite y el
    tiempo transcurrido lo ha alcanzado. *)
Theorem limite_de_tiempo self ahora :
  (Temporizador.obtener_tiempo_restante self ahora = None ↔
   Temporizador.tiempo_limite self = None) ∧
  (∀ r, Temporizador.obtener_tiempo_restante self ahora = Some r → 0 ≤ r) ∧
  (Temporizador.ha_terminado self ahora = true ↔
   ∃ limite, Temporizador.tiempo_limite self = Some limite ∧
             limite ≤ Temporizador.obtener_tiempo_transcurrido self ahora).
Proof.
  unfold Temporizador.ha_terminado, Temporizador.obtener_tiempo_restante.
  destruct (Temporizador.tiempo_limite self) as [l|]; cbv zeta.
  - split; [done|]. split; [intros r ?; simplify_eq; lia|].
    rewrite bool_decide_eq_true. split.
    + intros H. exists l. split; [done|lia].
    + intros (l' & ? & H). simplify_eq. lia.
  - split; [done|]. split; [done|]. split; [done|]. by intros (l' & ? & _).
Qed.

(** Sin pausa de por medio el tiempo transcurrido no decrece al avanzar
    el reloj, y un temporizador terminado sigue terminado. *)
Theorem transcurrido_monotono self (a1 a2 : Q) :
  Temporizador.pausado self = false → Qle a1 a2 →
  Temporizador.obtener_tiempo_transcurrido self a1 ≤
  Temporizador.obtener_tiempo_transcurrido self a2 ∧
  (Temporizador.ha_terminado self a1 = true → Temporizador.ha_terminado self a2 = true).
Proof.
  intros Hp Hle.
  assert (Temporizador.obtener_tiempo_transcurrido self a1 ≤
          Temporizador.obtener_tiempo_transcurrido self a2) as Hm.
  { unfold Temporizador.obtener_tiempo_transcurrido. rewrite Hp.
    apply int_de_mono. unfold Qminus.
    apply Qplus_le_compat; [|apply Qle_refl].
    apply Qplus_le_compat; [done|apply Qle_refl]. }
  split; [done|].
  unfold Temporizador.ha_terminado, Temporizador.obtener_tiempo_restante.
  destruct (Temporizador.tiempo_limite self) as [l|]; [|done]. cbv zeta.
  rewrite !bool_decide_eq_true. lia.
Qed.

Lemma transcurrido_monotono_testigo :
  Temporizador.obtener_tiempo_transcurrido (Temporizador.init (Some 60) 100) 130 ≤
  Temporizador.obtener_tiempo_transcurrido (Temporizador.init (Some 60) 100) 170 ∧
  (Temporizador.ha_terminado (Temporizador.init (Some 60) 100) 130 = true →
   Temporizador.ha_terminado (Temporizador.init (Some 60) 100) 170 = true).
Proof.
  apply (transcurrido_monotono (Temporizador.init (Some 60) 100) 130 170);
    [reflexivity|]. unfold Qle. simpl. lia.
Defined.

(** [reiniciar] pone el tiempo transcurrido a cero y quita la pausa, este
    como este el temporizador; sin limite nuevo conserva el anterior. *)
Theorem reiniciar_pone_a_cero self (limite : option Z) ahora :
  Temporizador.obtener_tiempo_transcurrido (Temporizador.reiniciar self limite ahora) ahora
    = 0 ∧
  Temporizador.pausado (Temporizador.reiniciar self limite ahora) = false ∧
  Temporizador.tiempo_limite (Temporizador.reiniciar self limite ahora) =
    match limite with Some l => Some l | None => Temporizador.tiempo_limite self end.
Proof.
  split; [|done].
  unfold Temporizador.obtener_tiempo_transcurrido, Temporizador.reiniciar. simpl.
  transitivity (int_de 0); [|reflexivity]. apply int_de_Qeq. ring.
Qed.

End Reloj.

(** ** La clase [Jugador] *)

Section JugadorEnLaberinto.
Implicit Types (filas columnas : Z) (l : Laberinto) (j : Jugador.t).

Lemma es_pared_definida filas columnas s fila columna :
  forma filas columnas (matriz s) →
  ∃ b, es_pared filas columnas s fila columna = Ok b.
Proof.
  intros Hf. unfold es_pared. case_decide; [by eexists|].
  destruct (leer_is_Some filas columnas (matriz s) (fila, columna) Hf) as [v ->].
  - unfold enrango. simpl. lia.
  - by eexists.
Qed.

Lemma es_pared_falso filas columnas s fila columna :
  binaria filas columnas (matriz s) →
  es_pared filas columnas s fila columna = Ok false →
  camino filas columnas (matriz s) (fila, columna).
Proof.
  intros Hb. unfold es_pared. case_decide; [done|].
  assert (enrango filas columnas (fila, columna)) as Hr by (unfold enrango; simpl; lia).
  destruct (Hb _ Hr) as [H0|H1]; [by split|]. by rewrite H1.
Qed.

(** El objeto completo que deja el constructor. *)
Lemma Laberinto_nuevo_listo filas columnas (complejidad densidad : Q) tamano_celda (g : Rng) :
  3 ≤ filas → 3 ≤ columnas →
  ∃ l sD, Laberinto_nuevo filas columnas complejidad densidad (Some tamano_celda) g = Ok l ∧
          filas_de l = filas ∧ columnas_de l = columnas ∧
          tamano_celda_de l = tamano_celda ∧
          laberinto_listo filas columnas sD (estado_de l).
Proof.
  intros Hf Hc.
  destruct (Laberinto_init_listo filas columnas complejidad densidad g Hf Hc)
    as (sD & sE & _ & HE & Hl).
  unfold Laberinto_nuevo. rewrite HE. eexists _, sD. split; [done|]. simpl. done.
Qed.

Section Invariante.
Variables (filas columnas : Z) (l : Laberinto) (sD : Estado).
Hypothesis Hfilas : filas_de l = filas.
Hypothesis Hcolumnas : columnas_de l = columnas.
Hypothesis Htc : 0 < tamano_celda_de l.
Hypothesis Hlisto : laberinto_listo filas columnas sD (estado_de l).

Lemma centro_en_celda_1_1 :
  (1 * tamano_celda_de l + tamano_celda_de l / 2) / tamano_celda_de l = 1.
Proof. symmetry. apply (Z.div_unique _ _ _ (tamano_celda_de l / 2)); [zlia|lia]. Qed.

Lemma jugador_init_en_juego : jugador_en_juego l (Jugador.init l).
Proof.
  unfold Jugador.init. rewrite (ll_inicio _ _ _ _ Hlisto).
  unfold calcular_centro_celda. cbv zeta.
  split; simpl; try done; try lia.
  - by rewrite centro_en_celda_1_1.
  - rewrite Hfilas, Hcolumnas.
    pose proof (ll_cam_inicio _ _ _ _ Hlisto) as H.
    by rewrite (ll_inicio _ _ _ _ Hlisto) in H.
Qed.

Lemma jugador_reiniciar_es_init j :
  jugador_en_juego l j → Jugador.reiniciar j = Jugador.init l.
Proof.
  intros [Hl Ht _ _ Hta Hco Hve Hma _]. unfold Jugador.reiniciar, Jugador.init.
  rewrite Hl, Ht, (ll_inicio _ _ _ _ Hlisto). unfold calcular_centro_celda. cbv zeta.
  rewrite Hta, Hco, Hve, Hma. done.
Qed.

Lemma jugador_evento_en_juego j evento :
  jugador_en_juego l j → jugador_en_juego l (Jugador.manejar_evento j evento).
Proof.
  intros [Hl Ht Hce Hca Hta Hco Hve Hma Hcn].
  unfold Jugador.manejar_evento, Jugador.pulsar.
  destruct (tipo evento), (key evento); by split.
Qed.

Lemma jugador_actualizar_definido j :
  jugador_en_juego l j → ∃ j', Jugador.actualizar j = inr j'.
Proof.
  intros [Hl Ht Hce Hca Hta Hco Hve Hma Hcn]. unfold Jugador.actualizar. cbv zeta.
  unfold division_entera, resto_entero. rewrite Ht, Hma, Hl, Hfilas, Hcolumnas.
  rewrite !decide_False by lia.
  match goal with
  | |- context [es_pared filas columnas (estado_de l) ?a ?b] =>
      destruct (es_pared_definida filas columnas (estado_de l) a b
                  (ll_forma _ _ _ _ Hlisto)) as [choca ->]
  end.
  simpl. destruct choca;
    destruct (Jugador._moviendo_arriba j || Jugador._moviendo_abajo j ||
              Jugador._moviendo_izquierda j || Jugador._moviendo_derecha j);
    by eexists.
Qed.

Lemma jugador_actualizar_en_juego j j' :
  jugador_en_juego l j → Jugador.actualizar j = inr j' → jugador_en_juego l j'.
Proof.
  intros [Hl Ht Hce Hca Hta Hco Hve Hma Hcn]. unfold Jugador.actualizar. cbv zeta.
  unfold division_entera, resto_entero. rewrite Ht, Hma, Hl, Hfilas, Hcolumnas.
  rewrite !decide_False by lia.
  match goal with
  | |- context [es_pared filas columnas (estado_de l) ?a ?b] =>
      destruct (es_pared filas columnas (estado_de l) a b) as [choca| |] eqn:Hpared
  end; simpl; [|done..].
  assert (0 ≤ (Jugador._animacion_contador j + 1) mod 5 < 5) as Hmod by zlia.
  unfold Jugador.celda in *.
  destruct choca;
    destruct (Jugador._moviendo_arriba j || Jugador._moviendo_abajo j ||
              Jugador._moviendo_izquierda j || Jugador._moviendo_derecha j);
    intros Heq; injection Heq as <-; split; simpl; try done;
    rewrite Hfilas, Hcolumnas;
    (apply es_pared_falso; [apply (ll_binaria _ _ _ _ Hlisto)|done]).
Qed.

Lemma jugador_reiniciar_en_juego j :
  jugador_en_juego l j → jugador_en_juego l (Jugador.reiniciar j).
Proof. intros Hj. rewrite jugador_reiniciar_es_init by done. apply jugador_init_en_juego. Qed.

Lemma jugador_alcanzado_en_juego j :
  rtc Jugador.paso (Jugador.init l) j → jugador_en_juego l j.
Proof.
  revert j. apply (rtc_ind_r (λ j, jugador_en_juego l j)).
  - apply jugador_init_en_juego.
  - intros j0 j1 Hr Hp IH. destruct Hp as [j0 evento|j0 j1 Hact|j0].
    + by apply jugador_evento_en_juego.
    + by eapply jugador_actualizar_en_juego.
    + by apply jugador_reiniciar_en_juego.
Qed.

End Invariante.

End JugadorEnLaberinto.

Section TeoremasDelJugador.
Implicit Types (filas columnas tamano_celda : Z) (complejidad densidad : Q) (g : Rng).

(** El objeto generado y el invariante de todo jugador alcanzable. *)
Lemma jugador_sobre_laberinto filas columnas complejidad densidad tamano_celda g :
  3 ≤ filas → 3 ≤ columnas → 0 < tamano_celda →
  ∃ l sD, Laberinto_nuevo filas columnas complejidad densidad (Some tamano_celda) g = Ok l ∧
          filas_de l = filas ∧ columnas_de l = columnas ∧
          tamano_celda_de l = tamano_celda ∧
          laberinto_listo filas columnas sD (estado_de l) ∧
          ∀ j, rtc Jugador.paso (Jugador.init l) j → jugador_en_juego l j.
Proof.
  intros Hf Hc Ht.
  destruct (Laberinto_nuevo_listo filas columnas complejidad densidad tamano_celda g Hf Hc)
    as (l & sD & HL & Hfi & Hco & Htc & Hlisto).
  exists l, sD. do 5 (split; [done|]). intros j Hr.
  apply (jugador_alcanzado_en_juego filas columnas l sD); try done. lia.
Qed.

(** Pase lo que pase (eventos de teclado, actualizaciones, reinicios), la
    celda del jugador sobre un laberinto generado es la que contiene su
    posicion en pixeles, no es pared y es estrictamente interior. *)
Theorem jugador_nunca_en_pared filas columnas complejidad densidad tamano_celda g :
  3 ≤ filas → 3 ≤ columnas → 0 < tamano_celda →
  ∃ l, Laberinto_nuevo filas columnas complejidad densidad (Some tamano_celda) g = Ok l ∧
       ∀ j, rtc Jugador.paso (Jugador.init l) j →
            Jugador.celda j =
              (Jugador._y j / tamano_celda, Jugador._x j / tamano_celda) ∧
            es_pared filas columnas (estado_de l) (Jugador._fila j) (Jugador._columna j)
              = Ok false ∧
            1 ≤ Jugador._fila j ≤ filas - 2 ∧ 1 ≤ Jugador._columna j ≤ columnas - 2.
Proof.
  intros Hf Hc Ht.
  destruct (jugador_sobre_laberinto filas columnas complejidad densidad tamano_celda g
              Hf Hc Ht) as (l & sD & HL & Hfi & Hco & Htc & Hlisto & Hinv).
  exists l. split; [done|]. intros j Hr.
  destruct (Hinv j Hr) as [_ _ Hce Hca _ _ _ _ _].
  rewrite Htc in Hce. rewrite Hfi, Hco in Hca. split; [done|].
  split; [apply (es_pared_de_camino filas columnas (estado_de l) (Jugador.celda j) Hca)|].
  pose proof (ll_dentro _ _ _ _ Hlisto _ Hca) as Hd.
  unfold dentro, Jugador.celda in Hd. simpl in Hd. lia.
Qed.

Lemma jugador_nunca_en_pared_testigo :
  ∃ l, Laberinto_nuevo 5 7 (1 # 2) (1 # 2) (Some 30) (λ _, 0) = Ok l ∧
       ∀ j, rtc Jugador.paso (Jugador.init l) j →
            Jugador.celda j = (Jugador._y j / 30, Jugador._x j / 30) ∧
            es_pared 5 7 (estado_de l) (Jugador._fila j) (Jugador._columna j) = Ok false ∧
            1 ≤ Jugador._fila j ≤ 5 - 2 ∧ 1 ≤ Jugador._columna j ≤ 7 - 2.
Proof. apply (jugador_nunca_en_pared 5 7 (1 # 2) (1 # 2) 30 (λ _, 0)); lia. Defined.

(** [actualizar] nunca falla sobre un laberinto generado con celdas de
    tamano positivo: ni division por cero ni indice fuera de la matriz. *)
Theorem actualizar_nunca_falla filas columnas complejidad densidad tamano_celda g :
  3 ≤ filas → 3 ≤ columnas → 0 < tamano_celda →
  ∃ l, Laberinto_nuevo filas columnas complejidad densidad (Some tamano_celda) g = Ok l ∧
       ∀ j, rtc Jugador.paso (Jugador.init l) j → ∃ j', Jugador.actualizar j = inr j'.
Proof.
  intros Hf Hc Ht.
  destruct (jugador_sobre_laberinto filas columnas complejidad densidad tamano_celda g
              Hf Hc Ht) as (l & sD & HL & Hfi & Hco & Htc & Hlisto & Hinv).
  exists l. split; [done|]. intros j Hr.
  apply (jugador_actualizar_definido filas columnas l sD); try done; [lia|]. by apply Hinv.
Qed.

Lemma actualizar_nunca_falla_testigo :
  ∃ l, Laberinto_nuevo 5 7 (1 # 2) (1 # 2) (Some 30) (λ _, 0) = Ok l ∧
       ∀ j, rtc Jugador.paso (Jugador.init l) j → ∃ j', Jugador.actualizar j = inr j'.
Proof. apply (actualizar_nunca_falla 5 7 (1 # 2) (1 # 2) 30 (λ _, 0)); lia. Defined.

(** Sin ninguna tecla de movimiento pulsada, [actualizar] deja al jugador
    exactamente como estaba. *)
Theorem sin_teclas_no_se_mueve filas columnas complejidad densidad tamano_celda g :
  3 ≤ filas → 3 ≤ columnas → 0 < tamano_celda →
  ∃ l, Laberinto_nuevo filas columnas complejidad densidad (Some tamano_celda) g = Ok l ∧
       ∀ j, rtc Jugador.paso (Jugador.init l) j →
            Jugador._moviendo_arriba j = false → Jugador._moviendo_abajo j = false →
            Jugador._moviendo_izquierda j = false → Jugador._moviendo_derecha j = false →
            Jugador.actualizar j = inr j.
Proof.
  intros Hf Hc Ht.
  destruct (jugador_sobre_laberinto filas columnas complejidad densidad tamano_celda g
              Hf Hc Ht) as (l & sD & HL & Hfi & Hco & Htc & Hlisto & Hinv).
  exists l. split; [done|]. intros j Hr Har Hab Hiz Hde.
  destruct (Hinv j Hr) as [Hl Htj Hce Hca _ _ _ _ _].
  unfold Jugador.actualizar. cbv zeta. rewrite Har, Hab, Hiz, Hde.
  unfold division_entera. rewrite Htj, Hl. rewrite !decide_False by lia.
  pose proof (es_pared_de_camino _ _ _ _ Hca) as Hp.
  rewrite Hce in Hp. simpl in Hp. rewrite Hp. simpl.
  destruct j. unfold Jugador.celda in Hce. simpl in *. simplify_eq. done.
Qed.

Lemma sin_teclas_no_se_mueve_testigo :
  ∃ l, Laberinto_nuevo 5 7 (1 # 2) (1 # 2) (Some 30) (λ _, 0) = Ok l ∧
       ∀ j, rtc Jugador.paso (Jugador.init l) j →
            Jugador._moviendo_arriba j = false → Jugador._moviendo_abajo j = false →
            Jugador._moviendo_izquierda j = false → Jugador._moviendo_derecha j = false →
            Jugador.actualizar j = inr j.
Proof. apply (sin_teclas_no_se_mueve 5 7 (1 # 2) (1 # 2) 30 (λ _, 0)); lia. Defined.

(** [reiniciar] devuelve al jugador, desde cualquier situacion, al estado
    en que lo dejo el constructor: en la celda (1, 1), en su centro, sin
    movimiento. *)
Theorem reiniciar_vuelve_al_inicio filas columnas complejidad densidad tamano_celda g :
  3 ≤ filas → 3 ≤ columnas → 0 < tamano_celda →
  ∃ l, Laberinto_nuevo filas columnas complejidad densidad (Some tamano_celda) g = Ok l ∧
       Jugador.celda (Jugador.init l) = (1, 1) ∧
       Jugador.posicion (Jugador.init l) =
         (tamano_celda + tamano_celda / 2, tamano_celda + tamano_celda / 2) ∧
       ∀ j, rtc Jugador.paso (Jugador.init l) j → Jugador.reiniciar j = Jugador.init l.
Proof.
  intros Hf Hc Ht.
  destruct (jugador_sobre_laberinto filas columnas complejidad densidad tamano_celda g
              Hf Hc Ht) as (l & sD & HL & Hfi & Hco & Htc & Hlisto & Hinv).
  exists l. split; [done|].
  split; [|split].
  - unfold Jugador.celda, Jugador.init. by rewrite (ll_inicio _ _ _ _ Hlisto).
  - unfold Jugador.posicion, Jugador.init. rewrite (ll_inicio _ _ _ _ Hlisto).
    unfold calcular_centro_celda. cbv zeta. simpl. rewrite Htc. do 2 f_equal; lia.
  - intros j Hr. by apply (jugador_reiniciar_es_init filas columnas l sD), Hinv.
Qed.

Lemma reiniciar_vuelve_al_inicio_testigo :
  ∃ l, Laberinto_nuevo 5 7 (1 # 2) (1 # 2) (Some 30) (λ _, 0) = Ok l ∧
       Jugador.celda (Jugador.init l) = (1, 1) ∧
       Jugador.posicion (Jugador.init l) = (30 + 30 / 2, 30 + 30 / 2) ∧
       ∀ j, rtc Jugador.paso (Jugador.init l) j → Jugador.reiniciar j = Jugador.init l.
Proof. apply (reiniciar_vuelve_al_inicio 5 7 (1 # 2) (1 # 2) 30 (λ _, 0)); lia. Defined.

Lemma division_vecina (a b t : Z) :
  0 < t → Z.abs (b - a) ≤ t → Z.abs (b / t - a / t) ≤ 1.
Proof.
  intros Ht Hab.
  assert ((a - t) / t ≤ b / t) as H1 by (apply Z.div_le_mono; lia).
  assert (b / t ≤ (a + t) / t) as H2 by (apply Z.div_le_mono; lia).
  replace (a - t) with (a + (-1) * t) in H1 by lia.
  replace (a + t) with (a + 1 * t) in H2 by lia.
  rewrite Z.div_add in H1, H2 by lia. lia.
Qed.

(** Con celdas al menos tan grandes como la velocidad del jugador, cada
    [actualizar] lo deja en su celda o en una vecina (tambien en diagonal)
    y desplaza cada coordenada en pixeles a lo sumo [VELOCIDAD_JUGADOR]. *)
Theorem actualizar_avanza_poco filas columnas complejidad densidad tamano_celda g :
  3 ≤ filas → 3 ≤ columnas → VELOCIDAD_JUGADOR ≤ tamano_celda →
  ∃ l, Laberinto_nuevo filas columnas complejidad densidad (Some tamano_celda) g = Ok l ∧
       ∀ j j', rtc Jugador.paso (Jugador.init l) j → Jugador.actualizar j = inr j' →
               Z.abs (Jugador._fila j' - Jugador._fila j) ≤ 1 ∧
               Z.abs (Jugador._columna j' - Jugador._columna j) ≤ 1 ∧
               Z.abs (Jugador._x j' - Jugador._x j) ≤ VELOCIDAD_JUGADOR ∧
               Z.abs (Jugador._y j' - Jugador._y j) ≤ VELOCIDAD_JUGADOR.
Proof.
  unfold VELOCIDAD_JUGADOR. intros Hf Hc Ht.
  destruct (jugador_sobre_laberinto filas columnas complejidad densidad tamano_celda g
              Hf Hc ltac:(lia)) as (l & sD & HL & Hfi & Hco & Htc & Hlisto & Hinv).
  exists l. split; [done|]. intros j j' Hr.
  destruct (Hinv j Hr) as [Hl Htj Hce _ _ _ Hve Hma _].
  unfold VELOCIDAD_JUGADOR in Hve.
  unfold Jugador.actualizar. cbv zeta.
  unfold division_entera, resto_entero. rewrite Htj, Hma, Hl, Hve, Htc.
  rewrite !decide_False by lia.
  match goal with
  | |- context [es_pared ?f ?c (estado_de l) ?a ?b] =>
      destruct (es_pared f c (estado_de l) a b) as [choca| |]
  end; simpl; [|done..].
  unfold Jugador.celda in Hce. rewrite Htc in Hce. injection Hce as Hfila Hcol.
  assert (∀ a b, Z.abs (b - a) ≤ 5 → Z.abs (b / tamano_celda - a / tamano_celda) ≤ 1)
    as Hdiv by (intros; apply division_vecina; lia).
  destruct choca;
    destruct (Jugador._moviendo_arriba j), (Jugador._moviendo_abajo j),
             (Jugador._moviendo_izquierda j), (Jugador._moviendo_derecha j);
    simpl; intros Heq; injection Heq as <-; simpl;
    rewrite ?Hfila, ?Hcol;
    (split; [try lia; apply Hdiv; lia|]);
    (split; [try lia; apply Hdiv; lia|]); lia.
Qed.

Lemma actualizar_avanza_poco_testigo :
  ∃ l, Laberinto_nuevo 5 7 (1 # 2) (1 # 2) (Some 30) (λ _, 0) = Ok l ∧
       ∀ j j', rtc Jugador.paso (Jugador.init l) j → Jugador.actualizar j = inr j' →
               Z.abs (Jugador._fila j' - Jugador._fila j) ≤ 1 ∧
               Z.abs (Jugador._columna j' - Jugador._columna j) ≤ 1 ∧
               Z.abs (Jugador._x j' - Jugador._x j) ≤ VELOCIDAD_JUGADOR ∧
               Z.abs (Jugador._y j' - Jugador._y j) ≤ VELOCIDAD_JUGADOR.
Proof.
  apply (actualizar_avanza_poco 5 7 (1 # 2) (1 # 2) 30 (λ _, 0)); unfold VELOCIDAD_JUGADOR; lia.
Defined.

End TeoremasDelJugador.

Section DensidadAnidada.
Implicit Types (filas columnas : Z) (complejidad : Q) (g : Rng).

(** Con las mismas dimensiones, complejidad y azar, aumentar la densidad
    solo abre celdas: toda celda de camino del laberinto de densidad [d1]
    lo es tambien en el de densidad [d2 >= d1]. *)
Theorem densidad_solo_abre filas columnas complejidad (d1 d2 : Q) g :
  3 ≤ filas → 3 ≤ columnas → Qle d1 d2 →
  ∃ s1 s2, Laberinto_init filas columnas complejidad d1 g = Ok s1 ∧
           Laberinto_init filas columnas complejidad d2 g = Ok s2 ∧
           ∀ p, camino filas columnas (matriz s1) p → camino filas columnas (matriz s2) p.
Proof.
  intros Hf Hc Hle. unfold Laberinto_init, correr. rewrite !decide_False by lia.
  rewrite !generar_desglose.
  destruct (wp_elim _ _ _ (hasta_complejidad_spec filas columnas Hf Hc complejidad g))
    as (vis & sB & -> & HinvB & _).
  destruct (decide (5 ≤ filas ∨ 5 ≤ columnas)) as [Hg|Hch].
  - assert (Qle (Qmult d1 (15 # 100)) (Qmult d2 (15 # 100))) as Hp.
    { apply Qmult_le_compat_r; [done|]. unfold Qle. simpl. lia. }
    destruct (wp2_elim _ _ _ _ _
                (bucle_ciclos_rel filas columnas _ _ sB Hp (lab_forma _ _ _ HinvB)))
      as ([] & s1C & [] & s2C & H1 & H2 & Hmono).
    destruct (wp_elim _ _ _ (bucle_ciclos_spec filas columnas (Qmult d1 (15 # 100)) sB HinvB))
      as ([] & s1C' & H1' & Hinv1 & _).
    destruct (wp_elim _ _ _ (bucle_ciclos_spec filas columnas (Qmult d2 (15 # 100)) sB HinvB))
      as ([] & s2C' & H2' & Hinv2 & _).
    rewrite H1 in H1'. rewrite H2 in H2'. simplify_eq. rewrite H1, H2.
    destruct (final_sin_cambios filas columnas s1C' Hf Hc Hg Hinv1)
      as (s1D & s1E & -> & -> & Hm1).
    destruct (final_sin_cambios filas columnas s2C' Hf Hc Hg Hinv2)
      as (s2D & s2E & -> & -> & Hm2).
    exists s1E, s2E. split; [done|]. split; [done|]. by rewrite Hm1, Hm2.
  - assert (∀ pr, bucle_ciclos filas columnas pr sB = Ok (tt, sB)) as Hnada.
    { intros pr. unfold bucle_ciclos. by rewrite rango_vacio by lia. }
    rewrite !Hnada.
    destruct (wp_elim _ _ _ (establecer_spec filas columnas sB Hf Hc HinvB))
      as ([] & sD & -> & _ & Hest).
    destruct (tras_establecer filas columnas Hf Hc sB sD HinvB Hest)
      as (HfD & HbD & H11 & Hcm & _).
    destruct Hest as (HiD & _).
    assert (camino filas columnas (matriz sD) (inicio sD)) as Hci by (by rewrite HiD).
    destruct (wp_elim _ _ _ (garantizar_spec filas columnas sD HfD HbD Hci Hcm))
      as ([] & sE & -> & _).
    exists sE, sE. done.
Qed.

Lemma densidad_solo_abre_testigo :
  ∃ s1 s2, Laberinto_init 7 7 (1 # 2) (1 # 4) (λ _, 0) = Ok s1 ∧
           Laberinto_init 7 7 (1 # 2) (3 # 4) (λ _, 0) = Ok s2 ∧
           ∀ p, camino 7 7 (matriz s1) p → camino 7 7 (matriz s2) p.
Proof.
  apply (densidad_solo_abre 7 7 (1 # 2) (1 # 4) (3 # 4) (λ _, 0)); [lia..|].
  unfold Qle. simpl. lia.
Defined.

End DensidadAnidada.

(** ** El limite de recursion *)

Section RelacionDeBusquedas.
Variables f c : Z.
Variable R : Resultado (bool * list (list bool) * Estado) →
             Resultado (bool * list (list bool) * Estado) → Prop.
Hypothesis R_ok : ∀ x, R (Ok x) (Ok x).
Hypothesis R_lanza : ∀ e, R (Lanza e) (Lanza e).
Hypothesis R_ligar :
  ∀ r1 r2 (k1 k2 : bool * list (list bool) → M (bool * list (list bool))),
    R r1 r2 → (∀ a s, R (k1 a s) (k2 a s)) →
    R (match r1 with Ok (a, s) => k1 a s | Lanza e => Lanza e | Agotado => Agotado end)
      (match r2 with Ok (a, s) => k2 a s | Lanza e => Lanza e | Agotado => Agotado end).

(** Dos recorridos de vecinos cuyas llamadas recursivas estan en relacion
    lo estan tambien. *)
Lemma recorrer_rel ll1 ll2 (p : Z * Z) ds (v : list (list bool)) s :
  (∀ v n s, R (ll1 v n s) (ll2 v n s)) →
  R (recorrer f c ll1 p ds v s) (recorrer f c ll2 p ds v s).
Proof.
  intros Hll. revert v s. induction ds as [|d ds IH]; intros v s.
  - apply R_ok.
  - cbn [recorrer]. cbv zeta. case_decide; [|apply IH].
    unfold mbind, M_bind, ligar, leer_matriz.
    destruct (leer (matriz s) (p.1 + d.1, p.2 + d.2)) as [v0|]; [|apply R_lanza].
    case_decide; [|apply IH].
    unfold leer_en. destruct (leer v (p.1 + d.1, p.2 + d.2)) as [b|]; [|apply R_lanza].
    unfold ret at 1 3. destruct b; [apply IH|].
    apply (R_ligar (ll1 v (p.1 + d.1, p.2 + d.2) s) (ll2 v (p.1 + d.1, p.2 + d.2) s)
             (λ a, let '(hallado, visitado) := a in
                   if (hallado : bool) then ret (true, visitado)
                   else recorrer f c ll1 p ds visitado)
             (λ a, let '(hallado, visitado) := a in
                   if (hallado : bool) then ret (true, visitado)
                   else recorrer f c ll2 p ds visitado)); [apply Hll|].
    intros [h v'] s'. destruct h; [apply R_ok|apply IH].
Qed.

End RelacionDeBusquedas.

Section BusquedaLimitada.
Variables f c : Z.
Implicit Types (v : list (list bool)) (p : Z * Z) (s : Estado).

Lemma shuffle_no_agotado {A} (x : list A) s : shuffle x s ≠ Agotado.
Proof.
  intros Hs. pose proof (wp_shuffle x (λ _ _, True) s (λ _ _ _, I)) as H.
  unfold wp in H. by rewrite Hs in H.
Qed.

(** [dfs_limitado] es [dfs] con el agotamiento leido como [RecursionError]. *)
Lemma dfs_limitado_cambiar l v p s :
  dfs_limitado f c l v p s = cambiar (dfs f c l v p s).
Proof.
  revert v p s. induction l as [|l IH]; intros v p s; [done|].
  cbn [dfs_limitado dfs]. unfold mbind, M_bind, ligar, leer_meta.
  case_decide; [done|]. unfold escribir_en.
  destruct (escribir v p true) as [v1|]; [|done]. unfold ret at 1 2.
  destruct (shuffle _ s) as [[dirs s1]|e|] eqn:Hs; [|done|by apply shuffle_no_agotado in Hs].
  apply (recorrer_rel f c (λ r1 r2, r2 = cambiar r1)); try done.
  intros r1 r2 k1 k2 -> Hk. destruct r1 as [[a s0]|e|]; simpl; auto.
Qed.

(** Con menos limite el resultado es el mismo, o la recursion se desborda. *)
Lemma dfs_limitado_menor l' l v p s :
  (l' ≤ l)%nat → o_desborda (dfs_limitado f c l v p s) (dfs_limitado f c l' v p s).
Proof.
  revert l v p s. induction l' as [|l' IH]; intros l v p s Hl; [by right|].
  destruct l as [|l]; [lia|].
  cbn [dfs_limitado]. unfold mbind, M_bind, ligar, leer_meta.
  case_decide; [by left|]. unfold escribir_en.
  destruct (escribir v p true) as [v1|]; [|by left]. unfold ret at 1 2.
  destruct (shuffle _ s) as [[dirs s1]|e|]; [|by left..].
  apply (recorrer_rel f c (λ r1 r2, o_desborda r1 r2)).
  - by left.
  - by left.
  - intros r1 r2 k1 k2 [-> | ->] Hk; [|by right].
    destruct r1 as [[a s0]|e|]; [apply Hk|by left..].
  - intros v' n s'. apply IH. lia.
Qed.

(** Si la busqueda con combustible termina, la limitada da lo mismo o se
    desborda. *)
Lemma dfs_limitado_resultado comb l v p s x :
  dfs f c comb v p s = Ok x → o_desborda (Ok x) (dfs_limitado f c l v p s).
Proof.
  intros Hd.
  assert (dfs_limitado f c comb v p s = Ok x) as Hc by (by rewrite dfs_limitado_cambiar, Hd).
  destruct (decide (l ≤ comb)%nat) as [Hle|Hgt].
  - pose proof (dfs_limitado_menor l comb v p s Hle) as H. by rewrite Hc in H.
  - pose proof (dfs_limitado_menor comb l v p s ltac:(lia)) as [H|H].
    + left. by rewrite <-H.
    + by rewrite Hc in H.
Qed.

Lemma garantizar_limitado_o_desborda l s r :
  _garantizar_solucion f c s = Ok r →
  o_desborda (Ok r) (_garantizar_solucion_limitado f c l s).
Proof.
  unfold _garantizar_solucion, _garantizar_solucion_limitado. cbv zeta.
  unfold mbind, M_bind, ligar, leer_inicio.
  destruct (dfs f c (combustible f c) _ (inicio s) s) as [[[h v'] s1]|e|] eqn:Hd; [|done..].
  intros Hr.
  destruct (dfs_limitado_resultado _ l _ _ _ _ Hd) as [-> | ->]; [by left|by right].
Qed.

(** Con limite por encima del numero de celdas la busqueda limitada no se
    desborda. *)
Lemma garantizar_limitado_igual l s :
  forma f c (matriz s) → camino f c (matriz s) (inicio s) →
  f * c < Z.of_nat l →
  _garantizar_solucion_limitado f c l s = _garantizar_solucion f c s.
Proof.
  intros Hf Hini Hl. pose proof Hf as (Hf0 & Hc0 & _).
  assert (∀ q, ¬ marcada f c (np_full f c false) q) as Hnm.
  { intros q [Hq Hle]. rewrite (leer_np_full f c) in Hle by done. done. }
  pose proof (size_libres f c (np_full f c false) Hf0 Hc0) as Hsz.
  pose proof (Z.mul_nonneg_nonneg f c Hf0 Hc0) as Hfc.
  destruct (wp_elim _ _ _
    (dfs_spec f c l (np_full f c false) (inicio s) s Hf
       (forma_np_full f c false Hf0 Hc0) Hini (Hnm _) (Hnm _) ltac:(lia)))
    as (x1 & s1 & H1 & _).
  destruct (wp_elim _ _ _
    (dfs_spec f c (combustible f c) (np_full f c false) (inicio s) s Hf
       (forma_np_full f c false Hf0 Hc0) Hini (Hnm _) (Hnm _)
       ltac:(unfold combustible; lia)))
    as (x2 & s2 & H2 & _).
  pose proof (dfs_limitado_cambiar l (np_full f c false) (inicio s) s) as Hc.
  rewrite H1 in Hc. simpl in Hc.
  destruct (dfs_limitado_resultado _ l _ _ _ _ H2) as [H|H]; [|congruence].
  unfold _garantizar_solucion, _garantizar_solucion_limitado. cbv zeta.
  unfold mbind, M_bind, ligar, leer_inicio. by rewrite H, H2.
Qed.

Lemma generar_limitado_por_tramos l comp dens s :
  _generar_limitado f c l comp dens s =
  match hasta_inicio_meta f c comp dens s with
  | Ok (_, sD) => _garantizar_solucion_limitado f c l sD
  | Lanza e => Lanza e
  | Agotado => Agotado
  end.
Proof.
  rewrite hasta_inicio_meta_desglose.
  unfold _generar_limitado, hasta_complejidad, _crear_ciclos_limitado, mbind, M_bind, ligar.
  destruct (rellenar_matriz 1 s) as [[[] s1]| |]; [|done..].
  destruct (tallar f c s1) as [[r sA]| |]; [|done..].
  destruct (_agregar_complejidad f c _ _ _ sA) as [[vis sB]| |]; [|done..].
  destruct (bucle_ciclos f c _ sB) as [[[] sC]| |]; [|done..].
  destruct (_establecer_inicio_meta f c sC) as [[[] sD]| |]; done.
Qed.

End BusquedaLimitada.

Section ConstruccionConLimite.
Implicit Types (filas columnas : Z) (complejidad densidad : Q) (g : Rng) (limite : nat).

(** El estado con que se llama a [_garantizar_solucion] en una generacion. *)
Lemma generacion_antes_de_reparar filas columnas complejidad densidad g :
  3 ≤ filas → 3 ≤ columnas →
  ∃ sD sE,
    hasta_inicio_meta filas columnas complejidad densidad (objeto_nuevo filas columnas g)
      = Ok (tt, sD) ∧
    _garantizar_solucion filas columnas sD = Ok (tt, sE) ∧
    Laberinto_init filas columnas complejidad densidad g = Ok sE ∧
    forma filas columnas (matriz sD) ∧
    camino filas columnas (matriz sD) (inicio sD).
Proof.
  intros Hf Hc.
  destruct (generacion_detallada filas columnas Hf Hc complejidad densidad g)
    as (vis & sB & sC & sD & sE & HB & HC & HD & HE & HG & _).
  destruct (wp_elim _ _ _ (hasta_complejidad_spec filas columnas Hf Hc complejidad g))
    as (vis' & sB' & HB' & HinvB & _).
  rewrite HB in HB'. simplify_eq.
  destruct (wp_elim _ _ _ (bucle_ciclos_spec filas columnas (Qmult densidad (15 # 100))
                             sB' HinvB)) as ([] & sC' & HC' & HinvC & _).
  rewrite HC in HC'. simplify_eq.
  destruct (wp_elim _ _ _ (establecer_spec filas columnas sC' Hf Hc HinvC))
    as ([] & sD' & HD' & _ & Hest).
  rewrite HD in HD'. simplify_eq.
  destruct (tras_establecer filas columnas Hf Hc sC' sD' HinvC Hest)
    as (HfD & _ & H11 & _).
  destruct Hest as (HiD & _).
  exists sD', sE. split.
  { by rewrite hasta_inicio_meta_desglose, HB, HC, HD. }
  split; [done|]. split.
  { unfold Laberinto_init, correr. rewrite decide_False by lia. by rewrite HG. }
  split; [done|]. by rewrite HiD.
Qed.

(** La construccion con limite de recursion da el laberinto de la
    construccion sin limite, o se desborda. *)
Lemma Laberinto_init_limitado_o_desborda limite filas columnas complejidad densidad g :
  3 ≤ filas → 3 ≤ columnas →
  o_desborda (Laberinto_init filas columnas complejidad densidad g)
             (Laberinto_init_limitado limite filas columnas complejidad densidad g).
Proof.
  intros Hf Hc.
  destruct (generacion_antes_de_reparar filas columnas complejidad densidad g Hf Hc)
    as (sD & sE & HD & HE & HG & _).
  rewrite HG. unfold Laberinto_init_limitado, correr. rewrite decide_False by lia.
  rewrite generar_limitado_por_tramos, HD.
  destruct (garantizar_limitado_o_desborda filas columnas limite sD _ HE) as [-> | ->];
    [by left|by right].
Qed.



(** [_garantizar_solucion], sobre cualquier matriz de ceros y unos cuyo
    inicio y meta son celdas de camino, termina: o la recursion de [dfs]
    se desborda ([RecursionError]), o deja la meta alcanzable desde el
    inicio sin cerrar ninguna celda de camino y, si la meta ya era
    alcanzable, sin tocar la matriz. No se desborda cuando el interprete
    admite mas llamadas anidadas que celdas tiene la matriz. *)
Theorem garantizar_solucion_limitado_contrato limite filas columnas s :
  forma filas columnas (matriz s) → binaria filas columnas (matriz s) →
  camino filas columnas (matriz s) (inicio s) → camino filas columnas (matriz s) (meta s) →
  (_garantizar_solucion_limitado filas columnas limite s = Lanza RecursionError ∨
   ∃ s', _garantizar_solucion_limitado filas columnas limite s = Ok (tt, s') ∧
         inicio s' = inicio s ∧ meta s' = meta s ∧
         alcanzable filas columnas (matriz s') (inicio s) (meta s) ∧
         (∀ p, camino filas columnas (matriz s) p → camino filas columnas (matriz s') p) ∧
         (alcanzable filas columnas (matriz s) (inicio s) (meta s) → matriz s' = matriz s)) ∧
  (filas * columnas < Z.of_nat limite →
   _garantizar_solucion_limitado filas columnas limite s ≠ Lanza RecursionError).
Proof.
  intros Hf Hb Hi Hm.
  destruct (wp_elim _ _ _ (garantizar_spec filas columnas s Hf Hb Hi Hm))
    as ([] & s' & Hs & Hi' & Hm' & _ & _ & Halc & Hsin & Hmono & _).
  split.
  - destruct (garantizar_limitado_o_desborda filas columnas limite s _ Hs) as [H|H];
      [right|by left].
    by exists s'.
  - intros Hl. by rewrite (garantizar_limitado_igual filas columnas limite s Hf Hi Hl), Hs.
Qed.

Lemma garantizar_solucion_limitado_contrato_testigo :
  (_garantizar_solucion_limitado 4 4 17 estado_4x4 = Lanza RecursionError ∨
   ∃ s', _garantizar_solucion_limitado 4 4 17 estado_4x4 = Ok (tt, s') ∧
         inicio s' = inicio estado_4x4 ∧ meta s' = meta estado_4x4 ∧
         alcanzable 4 4 (matriz s') (inicio estado_4x4) (meta estado_4x4) ∧
         (∀ p, camino 4 4 (matriz estado_4x4) p → camino 4 4 (matriz s') p) ∧
         (alcanzable 4 4 (matriz estado_4x4) (inicio estado_4x4) (meta estado_4x4) →
          matriz s' = matriz estado_4x4)) ∧
  (4 * 4 < Z.of_nat 17 →
   _garantizar_solucion_limitado 4 4 17 estado_4x4 ≠ Lanza RecursionError).
Proof.
  apply (garantizar_solucion_limitado_contrato 17 4 4 estado_4x4).
  - exact estado_4x4_forma.
  - exact estado_4x4_binaria.
  - split; [unfold enrango; simpl; lia|reflexivity].
  - split; [unfold enrango; simpl; lia|reflexivity].
Defined.

End ConstruccionConLimite.
(** ** La etapa de complejidad en doble precision *)

Section BucleSobrePrefijo.
Context {A B S : Type}.

Lemma para_fmap (h : A → B) (l : list A) (cuerpo : B → S → M S) x s :
  para (h <$> l) cuerpo x s = para l (λ a, cuerpo (h a)) x s.
Proof.
  revert x s. induction l as [|a l IH]; intros x s; [done|].
  rewrite fmap_cons. cbn [para]. unfold mbind, M_bind, ligar.
  destruct (cuerpo (h a) x s) as [[x' s']| |]; [apply IH|done..].
Qed.

Lemma para_ext (l : list A) (cuerpo1 cuerpo2 : A → S → M S) x s :
  (∀ a x s, cuerpo1 a x s = cuerpo2 a x s) →
  para l cuerpo1 x s = para l cuerpo2 x s.
Proof.
  intros Hext. revert x s. induction l as [|a l IH]; intros x s; [done|].
  cbn [para]. unfold mbind, M_bind, ligar. rewrite Hext.
  destruct (cuerpo2 a x s) as [[x' s']| |]; [apply IH|done..].
Qed.

End BucleSobrePrefijo.

Lemma ligar_ok {A B} (c : M A) (k : A → M B) s a s' :
  c s = Ok (a, s') → (c ≫= k) s = k a s'.
Proof. unfold mbind, M_bind, ligar. by intros ->. Qed.

(** Un [for i in range(k)] que lee [l[i]], con [k <= len(l)], recorre los
    [k] primeros elementos de [l] y no lanza [IndexError]. *)
Lemma para_indices {A S} (l : list A) (cuerpo : A → S → M S) (k : nat) x s :
  (k ≤ length l)%nat →
  para (seq 0 k) (λ i x, a ← o_lanza (l !! i) IndexError; cuerpo a x) x s =
  para (take k l) cuerpo x s.
Proof.
  revert k x s. induction l as [|a l IH]; intros k x s Hk.
  - simpl in Hk. assert (k = O) as -> by lia. done.
  - destruct k as [|k]; [done|].
    rewrite firstn_cons. cbn [seq para]. unfold mbind, M_bind, ligar. simpl.
    destruct (cuerpo a x s) as [[x' s']| |]; [|done..].
    rewrite <-fmap_S_seq, para_fmap.
    rewrite <-IH by (simpl in Hk; lia).
    apply para_ext. intros i x0 s0. done.
Qed.

Lemma take_min_longitud {A} (l : list A) (num : Z) :
  take (Z.to_nat (Z.min num (Z.of_nat (length l)))) l = take (Z.to_nat num) l.
Proof.
  destruct (decide (num ≤ Z.of_nat (length l))) as [Hle|Hgt].
  - by rewrite Z.min_l.
  - rewrite Z.min_r by lia. rewrite Nat2Z.id, firstn_all.
    symmetry. apply take_ge. lia.
Qed.

(** C5 (enmendada). Para toda complejidad y toda lista de bifurcaciones,
    [_agregar_complejidad] baraja la lista y procesa, en orden, exactamente
    los primeros int(len * factor) elementos de la lista barajada (todos si
    ese numero pasa de len, ninguno si es negativo), donde
    factor = min(0.3, complejidad * 0.4), el producto se hace en doble
    precision e int trunca hacia cero en lugar de redondear al entero mas
    cercano; si la conversion a entero lanza una excepcion, la etapa lanza
    la misma y no procesa ninguno. *)
Theorem C5_procesa_los_primeros (filas columnas : Z) (vis : gset (Z * Z))
    (bifs : list (Z * Z * list (Z * Z * Z * Z))) (complejidad : doble) s :
  ∃ barajada s1,
    shuffle bifs s = Ok (barajada, s1) ∧ barajada ≡ₚ bifs ∧
    match num_bifurcaciones_doble (length bifs) (factor_de_doble complejidad) with
    | inr num_bifurcaciones =>
        _agregar_complejidad_doble filas columnas vis bifs (factor_de_doble complejidad) s =
        para (take (Z.to_nat num_bifurcaciones) barajada)
          (procesar_bifurcacion filas columnas) vis s1
    | inl e =>
        _agregar_complejidad_doble filas columnas vis bifs (factor_de_doble complejidad) s =
        Lanza e
    end.
Proof.
  destruct (wp_elim (shuffle bifs) (λ x' _, x' ≡ₚ bifs) s) as (bifs' & s1 & Hs & Hperm).
  { by apply wp_shuffle. }
  exists bifs', s1. split; [done|]. split; [done|].
  unfold _agregar_complejidad_doble. rewrite (ligar_ok _ _ _ _ _ Hs).
  rewrite (Permutation_length Hperm).
  destruct (num_bifurcaciones_doble (length bifs) (factor_de_doble complejidad))
    as [e|num]; [done|].
  rewrite (ligar_ok _ _ s1 num s1) by done.
  pose proof (Permutation_length Hperm) as Hlen.
  rewrite para_indices by lia. by rewrite <-Hlen, take_min_longitud.
Qed.

(** Los literales [0.3] y [0.4] del generador. *)
Example literales_del_generador :
  d_0_3 = SpecFloat.S754_finite false 5404319552844595 (-54) ∧
  d_0_4 = SpecFloat.S754_finite false 7205759403792794 (-54).
Proof. split; vm_compute; reflexivity. Qed.

(** Con complejidad 0.7 y 25 bifurcaciones el producto en doble precision
    es 6.999999999999999 y se procesan 6, donde la aritmetica exacta de
    [num_a_procesar] da 7; con complejidad 1 y 3 bifurcaciones, ninguna. *)
Example num_bifurcaciones_ejemplos :
  factor_de_doble (literal 7 10) = SpecFloat.S754_finite false 5044031582654955 (-54) ∧
  d_mul (doble_de_int 25) (factor_de_doble (literal 7 10)) =
    SpecFloat.S754_finite false 7881299347898367 (-50) ∧
  num_bifurcaciones_doble 25 (factor_de_doble (literal 7 10)) = inr 6 ∧
  num_a_procesar 25 (factor_de (7 # 10)) = 7%nat ∧
  factor_de_doble (literal 1 1) = d_0_3 ∧
  num_bifurcaciones_doble 3 (factor_de_doble (literal 1 1)) = inr 0.
Proof. repeat split; vm_compute; reflexivity. Qed.

(** Con las complejidades de los cinco niveles del juego (0.5 a 0.9) y
    hasta 4096 bifurcaciones, [int] no lanza y el numero queda entre 0 y la
    longitud de la lista. *)
Lemma num_bifurcaciones_en_los_niveles :
  forallb (λ complejidad,
             forallb (λ n, match num_bifurcaciones_doble n (factor_de_doble complejidad) with
                           | inr num => bool_decide (0 ≤ num ≤ Z.of_nat n)
                           | inl _ => false
                           end) (seq 0 4097))
    [literal 5 10; literal 6 10; literal 7 10; literal 8 10; literal 9 10] = true.
Proof. vm_compute. reflexivity. Qed.

Section EtapaDobleNeutra.
Variables f c : Z.

Lemma para_procesar_neutro (vis : gset (Z * Z)) (l : list (Z * Z * list (Z * Z * Z * Z))) s :
  (∀ p, reticula f c p → p ∈ vis) →
  Forall (λ b : Z * Z * list (Z * Z * Z * Z),
            Forall (λ v : Z * Z * Z * Z, reticula f c (v.1.1.1, v.1.1.2)) b.2) l →
  para l (procesar_bifurcacion f c) vis s = Ok (vis, s).
Proof.
  intros Htot Hl. induction Hl as [|[[x y] vecinos] l Hb _ IH]; [done|].
  cbn [para]. unfold mbind, M_bind, ligar.
  destruct vecinos as [|[[[nx ny] wx] wy] otros]; [exact IH|].
  simpl in Hb. apply Forall_cons in Hb as [Hv _]. simpl in Hv.
  unfold procesar_bifurcacion.
  rewrite decide_False; [exact IH|]. intros Hn. apply Hn, Htot, Hv.
Qed.

(** Sobre el tallado completo la etapa en doble precision, como la exacta,
    no escribe en la matriz: devuelve el mismo conjunto y el estado que deja
    el [shuffle], salvo que [int] lance. *)
Lemma agregar_complejidad_doble_neutro (vis : gset (Z * Z)) bifs factor s :
  (∀ p, reticula f c p → p ∈ vis) →
  Forall (λ b : Z * Z * list (Z * Z * Z * Z),
            Forall (λ v : Z * Z * Z * Z, reticula f c (v.1.1.1, v.1.1.2)) b.2) bifs →
  _agregar_complejidad_doble f c vis bifs factor s =
  match shuffle bifs s, num_bifurcaciones_doble (length bifs) factor with
  | Ok (_, s1), inr _ => Ok (vis, s1)
  | Ok _, inl e => Lanza e
  | Lanza e, _ => Lanza e
  | Agotado, _ => Agotado
  end.
Proof.
  intros Htot Hbifs. unfold _agregar_complejidad_doble.
  destruct (wp_elim (shuffle bifs) (λ x' _, x' ≡ₚ bifs) s) as (bifs' & s1 & Hs & Hperm).
  { by apply wp_shuffle. }
  rewrite (ligar_ok _ _ _ _ _ Hs), Hs, (Permutation_length Hperm).
  destruct (num_bifurcaciones_doble (length bifs) factor) as [e|num]; [done|].
  rewrite (ligar_ok _ _ s1 num s1) by done.
  pose proof (Permutation_length Hperm) as Hlen.
  rewrite para_indices by lia.
  apply para_procesar_neutro; [done|]. apply Forall_take. by rewrite Hperm.
Qed.

(** La construccion con la etapa en doble precision da el mismo resultado
    que con la exacta, sea cual sea la complejidad de esta, salvo que [int]
    lance al contar las bifurcaciones. *)
Lemma Laberinto_init_doble_o_exacta limite (complejidad : doble) (q densidad : Q) g :
  3 ≤ f → 3 ≤ c →
  ∃ r s1,
    (rellenar_matriz 1;; tallar f c) (objeto_nuevo f c g) = Ok (r, s1) ∧
    Laberinto_init_doble limite f c complejidad densidad g =
    match num_bifurcaciones_doble (length (bifurcaciones r)) (factor_de_doble complejidad) with
    | inr _ => Laberinto_init_limitado limite f c q densidad g
    | inl e => Lanza e
    end.
Proof.
  intros Hf Hc.
  destruct (wp_elim _ _ _
    (tallar_spec f c
       (mkEstado (np_fill (np_full f c 0) 1) (0, 0) (f - 1, c - 1) g) ltac:(lia) ltac:(lia)
       (forma_np_fill _ _ _ _ (forma_np_full f c 0 ltac:(lia) ltac:(lia)))
       (λ p Hp, leer_np_fill f c _ 1 p (forma_np_full f c 0 ltac:(lia) ltac:(lia)) Hp)))
    as (r & sA & HA & Hinv & Hpila & _).
  simpl in HA.
  assert (∀ p, reticula f c p → p ∈ visitadas r) as Htot.
  { intros p Hp. by eapply visitadas_total. }
  exists r, sA. split.
  { unfold mbind, M_bind, ligar. simpl. by rewrite HA. }
  unfold Laberinto_init_doble, Laberinto_init_limitado, correr.
  rewrite decide_False by lia.
  unfold _generar_doble, _generar_limitado, mbind, M_bind, ligar. simpl. rewrite HA.
  rewrite (agregar_complejidad_doble_neutro (visitadas r) (bifurcaciones r)
             (factor_de_doble complejidad) sA Htot (inv_bifs _ _ _ _ Hinv)).
  rewrite (agregar_complejidad_neutro f c (visitadas r) (bifurcaciones r)
             (factor_de q) sA Htot (inv_bifs _ _ _ _ Hinv)).
  destruct (wp_elim (shuffle (bifurcaciones r)) (λ _ _, True) sA) as (b' & sB & -> & _).
  { by apply wp_shuffle. }
  destruct (num_bifurcaciones_doble _ _); [done|]. by rewrite decide_False by lia.
Qed.

End EtapaDobleNeutra.
